(** * Victron BLE HTTP gateway (victron-ble-http-gateway.js)

    A shallow embedding of the Shelly script and the properties of its
    forwarding pipeline: manufacturer filter, per-device rate limiting with
    a bounded store, single-slot delivery with a watchdog, and backoff on
    consecutive failures.

    Conventions of the embedding.
    - Script strings are byte strings ([string], one [ascii] per byte).
    - Script numbers are integers ([Z]); the 32-bit conversions of the
      bit operators are written out ([toInt32]).
    - The record [World] holds the script's module-level variables together
      with the state of the device facilities the script calls (timers,
      outstanding RPC calls, the clock) and two history variables that no
      handler reads.  Handlers are functions [World -> World].
    - [print] diagnostics (and with them the DBG switch) write to the
      console only and are left out. *)

From Stdlib Require Import ZArith List Bool Lia String Ascii Permutation Sorted.
From Stdlib Require Import DecimalString.
Import ListNotations.
Local Open Scope string_scope.
Local Open Scope Z_scope.

(** ** JavaScript string and number primitives used by the script *)

Module JS.

Definition charCode (c : ascii) : Z := Z.of_N (N_of_ascii c).

Definition fromCharCode (z : Z) : ascii := ascii_of_N (Z.to_N z).

(** [s.length] *)
Definition len (s : string) : Z := Z.of_nat (String.length s).

(** ToInt32, applied by [&] and [>>] to their operands. *)
Definition toInt32 (z : Z) : Z := (z + 2 ^ 31) mod 2 ^ 32 - 2 ^ 31.

(** [a & b] *)
Definition band (a b : Z) : Z := Z.land (toInt32 a) (toInt32 b).

(** [a >> n] (sign-propagating) *)
Definition sar (a n : Z) : Z := Z.shiftr (toInt32 a) (Z.land n 31).

(** One digit of [Number.prototype.toString(16)]: lower case. *)
Definition digit16 (d : Z) : ascii :=
  if d <? 10 then fromCharCode (48 + d) else fromCharCode (87 + d).

Fixpoint toString16_aux (fuel : nat) (n : Z) (acc : string) : string :=
  match fuel with
  | O => acc
  | S f =>
      let acc' := String (digit16 (n mod 16)) acc in
      if n / 16 =? 0 then acc' else toString16_aux f (n / 16) acc'
  end.

(** [n.toString(16)] for an integer [n >= 0]. *)
Definition toString16 (n : Z) : string :=
  toString16_aux (S (Z.to_nat (Z.log2 n))) n EmptyString.

(** Decimal rendering of an integer, as string concatenation does it. *)
Definition toStringDec (n : Z) : string := NilZero.string_of_int (Z.to_int n).

Definition upperChar (c : ascii) : ascii :=
  let k := charCode c in
  if (97 <=? k) && (k <=? 122) then fromCharCode (k - 32) else c.

(** [s.toUpperCase()] on a byte string: the letters a-z change. *)
Fixpoint toUpperCase (s : string) : string :=
  match s with
  | EmptyString => EmptyString
  | String c s' => String (upperChar c) (toUpperCase s')
  end.

Fixpoint indexOf_from (s pat : string) (i : Z) : Z :=
  if String.prefix pat s then i
  else match s with
       | EmptyString => -1
       | String _ s' => indexOf_from s' pat (i + 1)
       end.

(** [s.indexOf(pat)] *)
Definition indexOf (s pat : string) : Z := indexOf_from s pat 0.

(** [s.substr(i, n)] for [0 <= i]. *)
Definition substr (s : string) (i n : Z) : string :=
  String.substring (Z.to_nat i) (Z.to_nat n) s.

End JS.

(** ** The filter: [hex] and [hasMfg] *)

(** [hex(s)]: the loop appends two digits per byte, the result is upper-cased. *)
Fixpoint hex_loop (s : string) (r : string) : string :=
  match s with
  | EmptyString => r
  | String c s' =>
      let h := JS.toString16 (JS.charCode c) in
      hex_loop s' (r ++ (if JS.len h =? 1 then "0" ++ h else h))
  end.

Definition hex (s : string) : string := JS.toUpperCase (hex_loop s EmptyString).

(** The search pattern [hasMfg] builds for one id. *)
Definition mfg_pattern (id : Z) : string :=
  let lo := JS.toString16 (JS.band id 255) in
  let hi := JS.toString16 (JS.band (JS.sar id 8) 255) in
  let lo := if JS.len lo =? 1 then "0" ++ lo else lo in
  let hi := if JS.len hi =? 1 then "0" ++ hi else hi in
  "FF" ++ JS.toUpperCase lo ++ JS.toUpperCase hi.

Fixpoint hasMfg_loop (d : string) (ids : list Z) : bool :=
  match ids with
  | [] => false
  | id :: rest =>
      if negb (JS.indexOf d (mfg_pattern id) =? -1) then true
      else hasMfg_loop d rest
  end.

(** [hasMfg(d, ids)] *)
Definition hasMfg (d : string) (ids : list Z) : bool :=
  if Z.of_nat (List.length ids) =? 0 then true else hasMfg_loop d ids.

(** *** The encoding as the specification words it *)

(** One upper-case hexadecimal digit. *)
Definition upper_digit (d : Z) : ascii :=
  if d <? 10 then JS.fromCharCode (48 + d) else JS.fromCharCode (55 + d).

(** A byte as two upper-case hexadecimal digits, high nibble first. *)
Definition byte_hex_spec (b : Z) : string :=
  String (upper_digit (b / 16)) (String (upper_digit (b mod 16)) EmptyString).

(** A payload encoded as upper-case hexadecimal. *)
Fixpoint payload_hex_spec (p : string) : string :=
  match p with
  | EmptyString => EmptyString
  | String c p' => byte_hex_spec (JS.charCode c) ++ payload_hex_spec p'
  end.

(** The two-byte little-endian encoding of an id, in hexadecimal. *)
Definition le16_hex_spec (id : Z) : string :=
  byte_hex_spec (id mod 256) ++ byte_hex_spec ((id / 256) mod 256).

(** [pat] occurs in [s] as a contiguous substring. *)
Definition Substring (pat s : string) : Prop :=
  exists pre post, s = pre ++ pat ++ post.


(** What [hex] and [hasMfg] do with one byte: two lower-case digits from
    [toString(16)], padded, then upper-cased. *)
Definition two_digits (b : Z) : string :=
  let h := JS.toString16 b in
  JS.toUpperCase (if JS.len h =? 1 then "0" ++ h else h).

(** The payload the specification's second scenario uses: its encoding
    holds FFAA01 and no FF9904. *)
Definition payload_FFAA01 : string :=
  String (JS.fromCharCode 2) (String (JS.fromCharCode 1)
  (String (JS.fromCharCode 6) (String (JS.fromCharCode 4)
  (String (JS.fromCharCode 255) (String (JS.fromCharCode 170)
  (String (JS.fromCharCode 1) EmptyString)))))).

(** The bytes 0F F9 90 4A. *)
Definition payload_misaligned : string :=
  String (JS.fromCharCode 15) (String (JS.fromCharCode 249)
  (String (JS.fromCharCode 144) (String (JS.fromCharCode 74) EmptyString))).

(** ** Configuration *)

Record Config := mkConfig {
  URL : string;
  MFG : list Z;
  RATE_LIMIT_SEC : Z;
  MAX_LASTSENT_ENTRIES : Z;
  CLEANUP_INTERVAL_SEC : Z;
  (** [BLE.Scanner.SCAN_RESULT], a constant of the firmware. *)
  SCAN_RESULT : Z
}.

Definition default_config : Config :=
  mkConfig "http://venus.local/ble-gw"
           [0x0499; 0x0059; 0x0067; 0x02E1; 0x0F53] 5 50 300 2.

(** ** The [lastSent] object

    A JavaScript object used as a map from address to timestamp.  Keys are
    unique; [for (k in lastSent)] enumerates them in insertion order, an
    assignment to an existing key keeps its position. *)

Definition Store := list (string * Z).

Fixpoint store_get (k : string) (st : Store) : option Z :=
  match st with
  | [] => None
  | (k', v) :: rest => if String.eqb k k' then Some v else store_get k rest
  end.

Fixpoint store_set (k : string) (v : Z) (st : Store) : Store :=
  match st with
  | [] => [(k, v)]
  | (k', v') :: rest =>
      if String.eqb k k' then (k, v) :: rest else (k', v') :: store_set k v rest
  end.

Fixpoint store_delete (k : string) (st : Store) : Store :=
  match st with
  | [] => []
  | (k', v') :: rest =>
      if String.eqb k k' then store_delete k rest else (k', v') :: store_delete k rest
  end.

Definition store_keys (st : Store) : list string := map fst st.

(** ** Device facilities *)

Inductive TimerCallback := CbResetBusy | CbCleanupLastSent.

Record TimerEntry := mkTimer {
  t_id : nat;
  t_due : Z;          (* clock value from which it may fire *)
  t_period : Z;       (* the delay given to Timer.set, in ms *)
  t_repeat : bool;
  t_cb : TimerCallback
}.

Record HttpPostParams := mkPost {
  p_url : string;
  p_body : string;
  p_content_type : string;
  p_timeout : Z
}.

Inductive RpcCall :=
| HTTP_POST (params : HttpPostParams)
| Shelly_GetDeviceInfo.

Record HttpResponse := mkResponse { code : Z; body : option string }.

Record DeviceInfo := mkDeviceInfo { info_mac : option string }.

Record ScanResult := mkScanResult {
  addr : option string;
  advData : option string;
  rssi : Z
}.

(** ** The world: script variables, device state, history *)

Record World := mkWorld {
  (* module-level variables of the script *)
  gwMac : string;
  busy : bool;
  lastSent : Store;
  currentMac : string;
  busyTimer : option nat;
  consecutiveErrors : Z;
  backoffUntil : Z;
  (* device *)
  timers : list TimerEntry;        (* armed timers *)
  calls : list (nat * RpcCall);    (* RPC calls whose callback has not run *)
  nextId : nat;                    (* next fresh handle *)
  clock : Z;                       (* Date.now(), milliseconds *)
  scanning : bool;
  subscribed : bool;
  (* history variables *)
  sends : list (nat * nat);        (* accepted sends: (call id, watchdog id) *)
  fired : list nat                 (* timers that have fired *)
}.

Definition set_gwMac (v : string) (w : World) : World :=
  mkWorld v (busy w) (lastSent w) (currentMac w) (busyTimer w)
          (consecutiveErrors w) (backoffUntil w) (timers w) (calls w)
          (nextId w) (clock w) (scanning w) (subscribed w) (sends w) (fired w).

Definition set_busy (v : bool) (w : World) : World :=
  mkWorld (gwMac w) v (lastSent w) (currentMac w) (busyTimer w)
          (consecutiveErrors w) (backoffUntil w) (timers w) (calls w)
          (nextId w) (clock w) (scanning w) (subscribed w) (sends w) (fired w).

Definition set_lastSent (v : Store) (w : World) : World :=
  mkWorld (gwMac w) (busy w) v (currentMac w) (busyTimer w)
          (consecutiveErrors w) (backoffUntil w) (timers w) (calls w)
          (nextId w) (clock w) (scanning w) (subscribed w) (sends w) (fired w).

Definition set_currentMac (v : string) (w : World) : World :=
  mkWorld (gwMac w) (busy w) (lastSent w) v (busyTimer w)
          (consecutiveErrors w) (backoffUntil w) (timers w) (calls w)
          (nextId w) (clock w) (scanning w) (subscribed w) (sends w) (fired w).

Definition set_busyTimer (v : option nat) (w : World) : World :=
  mkWorld (gwMac w) (busy w) (lastSent w) (currentMac w) v
          (consecutiveErrors w) (backoffUntil w) (timers w) (calls w)
          (nextId w) (clock w) (scanning w) (subscribed w) (sends w) (fired w).

Definition set_consecutiveErrors (v : Z) (w : World) : World :=
  mkWorld (gwMac w) (busy w) (lastSent w) (currentMac w) (busyTimer w)
          v (backoffUntil w) (timers w) (calls w)
          (nextId w) (clock w) (scanning w) (subscribed w) (sends w) (fired w).

Definition set_backoffUntil (v : Z) (w : World) : World :=
  mkWorld (gwMac w) (busy w) (lastSent w) (currentMac w) (busyTimer w)
          (consecutiveErrors w) v (timers w) (calls w)
          (nextId w) (clock w) (scanning w) (subscribed w) (sends w) (fired w).

Definition set_timers (v : list TimerEntry) (w : World) : World :=
  mkWorld (gwMac w) (busy w) (lastSent w) (currentMac w) (busyTimer w)
          (consecutiveErrors w) (backoffUntil w) v (calls w)
          (nextId w) (clock w) (scanning w) (subscribed w) (sends w) (fired w).

Definition set_calls (v : list (nat * RpcCall)) (w : World) : World :=
  mkWorld (gwMac w) (busy w) (lastSent w) (currentMac w) (busyTimer w)
          (consecutiveErrors w) (backoffUntil w) (timers w) v
          (nextId w) (clock w) (scanning w) (subscribed w) (sends w) (fired w).

Definition set_nextId (v : nat) (w : World) : World :=
  mkWorld (gwMac w) (busy w) (lastSent w) (currentMac w) (busyTimer w)
          (consecutiveErrors w) (backoffUntil w) (timers w) (calls w)
          v (clock w) (scanning w) (subscribed w) (sends w) (fired w).

Definition set_clock (v : Z) (w : World) : World :=
  mkWorld (gwMac w) (busy w) (lastSent w) (currentMac w) (busyTimer w)
          (consecutiveErrors w) (backoffUntil w) (timers w) (calls w)
          (nextId w) v (scanning w) (subscribed w) (sends w) (fired w).

Definition set_scanning (v : bool) (w : World) : World :=
  mkWorld (gwMac w) (busy w) (lastSent w) (currentMac w) (busyTimer w)
          (consecutiveErrors w) (backoffUntil w) (timers w) (calls w)
          (nextId w) (clock w) v (subscribed w) (sends w) (fired w).

Definition set_subscribed (v : bool) (w : World) : World :=
  mkWorld (gwMac w) (busy w) (lastSent w) (currentMac w) (busyTimer w)
          (consecutiveErrors w) (backoffUntil w) (timers w) (calls w)
          (nextId w) (clock w) (scanning w) v (sends w) (fired w).

Definition set_sends (v : list (nat * nat)) (w : World) : World :=
  mkWorld (gwMac w) (busy w) (lastSent w) (currentMac w) (busyTimer w)
          (consecutiveErrors w) (backoffUntil w) (timers w) (calls w)
          (nextId w) (clock w) (scanning w) (subscribed w) v (fired w).

Definition set_fired (v : list nat) (w : World) : World :=
  mkWorld (gwMac w) (busy w) (lastSent w) (currentMac w) (busyTimer w)
          (consecutiveErrors w) (backoffUntil w) (timers w) (calls w)
          (nextId w) (clock w) (scanning w) (subscribed w) (sends w) v.

(** [Math.floor(Date.now() / 1000)] *)
Definition now_sec (w : World) : Z := clock w / 1000.

(** [Timer.set(ms, repeat, cb)]: arms a timer and returns its handle. *)
Definition Timer_set (ms : Z) (repeat : bool) (cb : TimerCallback) (w : World)
  : nat * World :=
  let id := nextId w in
  (id, set_nextId (S id)
         (set_timers (timers w ++ [mkTimer id (clock w + ms) ms repeat cb]) w)).

(** [Timer.clear(id)] *)
Definition Timer_clear (id : nat) (w : World) : World :=
  set_timers (filter (fun t => negb (Nat.eqb (t_id t) id)) (timers w)) w.

(** [Shelly.call(method, params, callback)]: the call is outstanding until
    the device runs its callback. *)
Definition Shelly_call (c : RpcCall) (w : World) : nat * World :=
  let id := nextId w in
  (id, set_nextId (S id) (set_calls (calls w ++ [(id, c)]) w)).

(** ** The handlers of the script *)

(** [applyBackoff()] *)
Definition applyBackoff (w : World) : World :=
  if consecutiveErrors w <=? 3 then w
  else
    let backoffSec := Z.min 60 (consecutiveErrors w * 5) in
    set_backoffUntil (now_sec w + backoffSec) w.

(** [consecutiveErrors++; applyBackoff();] *)
Definition count_error (w : World) : World :=
  applyBackoff (set_consecutiveErrors (consecutiveErrors w + 1) w).

(** The opening of [httpCallback]: [busy = false; if (busyTimer !== null)
    { Timer.clear(busyTimer); busyTimer = null; }]. *)
Definition release_slot (w : World) : World :=
  let w := set_busy false w in
  match busyTimer w with
  | Some t => set_busyTimer None (Timer_clear t w)
  | None => w
  end.

(** [httpCallback(r, e)]; [r] is the response object or null. *)
Definition httpCallback (r : option HttpResponse) (e : Z) (w : World) : World :=
  let w := release_slot w in
  if negb (e =? 0) then count_error w
  else match r with
       | Some resp =>
           if negb (code resp =? 200) then count_error w
           else set_backoffUntil 0 (set_consecutiveErrors 0 w)
       | None => count_error w
       end.

(** [resetBusy()], the watchdog callback. *)
Definition resetBusy (w : World) : World :=
  let w := set_busy false w in
  let w := set_busyTimer None w in
  count_error w.

(** Elements of the array [oldest]. *)
Record Aged := mkAged { mac : string; age : Z }.

(** [a.sort(cmp)]: an element goes before the first element it does not
    compare greater than (stable). *)
Fixpoint sort_insert {A : Type} (cmp : A -> A -> Z) (x : A) (l : list A) : list A :=
  match l with
  | [] => [x]
  | y :: l' => if cmp x y <=? 0 then x :: y :: l' else y :: sort_insert cmp x l'
  end.

Fixpoint sort_by {A : Type} (cmp : A -> A -> Z) (l : list A) : list A :=
  match l with
  | [] => []
  | x :: l' => sort_insert cmp x (sort_by cmp l')
  end.

(** [lastSent[k]] for a key that [for..in] has just enumerated. *)
Definition store_read (k : string) (st : Store) : Z :=
  match store_get k st with Some v => v | None => 0 end.

(** [for (i = 0; i < n; i++) delete lastSent[oldest[i].mac]]; reading
    [.mac] past the end of [oldest] raises a TypeError ([None]). *)
Fixpoint delete_oldest (n : nat) (oldest : list Aged) (st : Store) : option Store :=
  match n with
  | O => Some st
  | S n' =>
      match oldest with
      | [] => None
      | a :: rest => delete_oldest n' rest (store_delete (mac a) st)
      end
  end.

(** The body of [cleanupLastSent] as a function of the store. *)
Definition cleanup_store (maxEntries now : Z) (st : Store) : option Store :=
  let keys := store_keys st in
  if Z.of_nat (List.length keys) <=? maxEntries then Some st
  else
    let oldest := map (fun k => mkAged k (now - store_read k st)) keys in
    let oldest := sort_by (fun a b => age b - age a) oldest in
    let toRemove := Z.of_nat (List.length keys) - maxEntries in
    delete_oldest (Z.to_nat toRemove) oldest st.

(** [cleanupLastSent()]; [None] when the script aborts on an uncaught error. *)
Definition cleanupLastSent (cfg : Config) (w : World) : option World :=
  match cleanup_store (MAX_LASTSENT_ENTRIES cfg) (now_sec w) (lastSent w) with
  | Some st => Some (set_lastSent st w)
  | None => None
  end.

(** The double-quote character and a string between double quotes. *)
Definition dq : string := String (ascii_of_nat 34) EmptyString.

Definition quoted (s : string) : string := dq ++ s ++ dq.

(** The JSON text [send] builds. *)
Definition post_body (gw m : string) (rssi ts nonce : Z) (data : string) : string :=
  let body := "{" ++ quoted "data" ++ ":{" ++ quoted "coordinates" ++ ":"
              ++ quoted EmptyString ++ "," ++ quoted "timestamp" ++ ":"
              ++ JS.toStringDec ts in
  let body := body ++ "," ++ quoted "nonce" ++ ":" ++ JS.toStringDec nonce in
  let body := body ++ "," ++ quoted "gw_mac" ++ ":" ++ quoted gw in
  let body := body ++ "," ++ quoted "tags" ++ ":{" ++ quoted m ++ ":{"
              ++ quoted "rssi" ++ ":" ++ JS.toStringDec rssi in
  body ++ "," ++ quoted "timestamp" ++ ":" ++ JS.toStringDec ts ++ ","
       ++ quoted "data" ++ ":" ++ quoted data ++ "}}}}".

(** The part of [send] after its two guards; [nonce] is the value of
    [Math.floor(Math.random() * 2147483647)]. *)
Definition start_delivery (cfg : Config) (m : string) (rssi : Z) (data : string)
  (nonce : Z) (w : World) : World :=
  let ts := now_sec w in
  let body := post_body (gwMac w) m rssi ts nonce data in
  let w := set_currentMac m w in
  let w := set_busy true w in
  let (t, w) := Timer_set 10000 false CbResetBusy w in
  let w := set_busyTimer (Some t) w in
  let (c, w) := Shelly_call
                  (HTTP_POST (mkPost (URL cfg) body "application/json" 5)) w in
  (* history: this send is call [c] guarded by watchdog [t] *)
  set_sends (sends w ++ [(c, t)]) w.

(** [send(mac, rssi, data)] *)
Definition send (cfg : Config) (m : string) (rssi : Z) (data : string)
  (nonce : Z) (w : World) : World :=
  if busy w then w
  else
    let now := now_sec w in
    if backoffUntil w >? now then w
    else start_delivery cfg m rssi data nonce w.

(** The loop [for (i = 0; i < m.length; i += 2) { if (i > 0) fm += ":";
    fm += m.substr(i, 2); }]; at most [m.length] iterations. *)
Fixpoint group_pairs (fuel : nat) (m : string) (i : Z) (fm : string) : string :=
  match fuel with
  | O => fm
  | S f =>
      if i <? JS.len m then
        let fm := if i >? 0 then fm ++ ":" else fm in
        group_pairs f m (i + 2) (fm ++ JS.substr m i 2)
      else fm
  end.

Definition colon_pairs (m : string) : string :=
  group_pairs (String.length m) m 0 EmptyString.

(** The address as [onBle] keys it: upper case, colon-separated. *)
Definition normalize_addr (a : string) : string :=
  let m := JS.toUpperCase a in
  if JS.indexOf m ":" =? -1 then colon_pairs m else m.

(** Truthiness of an optional string: present and not empty. *)
Definition truthy (o : option string) : bool :=
  match o with
  | Some s => negb (JS.len s =? 0)
  | None => false
  end.

(** The string held by a field known to be truthy. *)
Definition str (o : option string) : string :=
  match o with
  | Some s => s
  | None => EmptyString
  end.

(** [onBle(ev, res)]; [res] is the scan result object or null. *)
Definition onBle (cfg : Config) (ev : Z) (res : option ScanResult) (nonce : Z)
  (w : World) : World :=
  if negb (ev =? SCAN_RESULT cfg) then w
  else match res with
  | None => w
  | Some res =>
  if negb (truthy (addr res)) then w
  else
    let d := if truthy (advData res) then hex (str (advData res))
             else EmptyString in
    if (JS.len d =? 0) || negb (hasMfg d (MFG cfg)) then w
    else
      let m := normalize_addr (str (addr res)) in
      let now := now_sec w in
      let last := match store_get m (lastSent w) with
                  | Some v => v        (* [v || 0] is [v] also when [v] is 0 *)
                  | None => 0
                  end in
      if now - last <? RATE_LIMIT_SEC cfg then w
      else
        let w := set_lastSent (store_set m now (lastSent w)) w in
        send cfg m (rssi res) d nonce w
  end.

(** The callback [init] passes to [Shelly.GetDeviceInfo]. *)
Definition deviceInfoCallback (r : option DeviceInfo) (w : World) : World :=
  match r with
  | Some info =>
      match info_mac info with
      | Some m => if truthy (info_mac info) then set_gwMac (colon_pairs m) w else w
      | None => w
      end
  | None => w
  end.

(** [init()] *)
Definition init (cfg : Config) (w : World) : World :=
  let (_, w) := Shelly_call Shelly_GetDeviceInfo w in
  let w := if negb (scanning w) then set_scanning true w else w in
  let w := set_subscribed true w in
  let (_, w) := Timer_set (CLEANUP_INTERVAL_SEC cfg * 1000) true
                          CbCleanupLastSent w in
  w.

(** The world in which the script is loaded, at clock value [t0]. *)
Definition boot (t0 : Z) : World :=
  mkWorld "00:00:00:00:00:00" false [] EmptyString None 0 0
          [] [] O t0 false false [] [].

(** The world after the script's top-level code has run. *)
Definition started (cfg : Config) (t0 : Z) : World := init cfg (boot t0).

(** ** The event loop

    The device runs one callback at a time: an advertisement for the
    subscriber, an armed timer that is due, or the callback of an
    outstanding call.  An event carries the clock value at which it is
    dispatched; the clock never runs backwards. *)

Inductive Event :=
| Advertisement (ev : Z) (res : option ScanResult) (nonce : Z)
| TimerFired (id : nat)
| HttpDone (id : nat) (r : option HttpResponse) (e : Z)
| DeviceInfoDone (id : nat) (r : option DeviceInfo).

Definition find_timer (id : nat) (w : World) : option TimerEntry :=
  find (fun t => Nat.eqb (t_id t) id) (timers w).

Definition find_call (id : nat) (w : World) : option RpcCall :=
  match find (fun c => Nat.eqb (fst c) id) (calls w) with
  | Some c => Some (snd c)
  | None => None
  end.

Definition remove_call (id : nat) (w : World) : World :=
  set_calls (filter (fun c => negb (Nat.eqb (fst c) id)) (calls w)) w.

(** A timer that fires is disarmed (one-shot) or re-armed one period
    later (repeating); the firing is entered in the history. *)
Definition fire (t : TimerEntry) (w : World) : World :=
  let w := Timer_clear (t_id t) w in
  let w := if t_repeat t
           then set_timers (timers w ++ [mkTimer (t_id t) (clock w + t_period t)
                                                 (t_period t) true (t_cb t)]) w
           else w in
  set_fired (t_id t :: fired w) w.

(** One dispatch; [None] when the event cannot occur in [w] at time [at_]
    or when the handler aborts the script. *)
Definition step (cfg : Config) (w : World) (at_ : Z) (e : Event) : option World :=
  if at_ <? clock w then None
  else
    let w := set_clock at_ w in
    match e with
    | Advertisement ev res nonce =>
        if subscribed w then Some (onBle cfg ev res nonce w) else None
    | TimerFired id =>
        match find_timer id w with
        | Some t =>
            if at_ <? t_due t then None
            else
              let w := fire t w in
              match t_cb t with
              | CbResetBusy => Some (resetBusy w)
              | CbCleanupLastSent => cleanupLastSent cfg w
              end
        | None => None
        end
    | HttpDone id r e =>
        match find_call id w with
        | Some (HTTP_POST _) => Some (httpCallback r e (remove_call id w))
        | _ => None
        end
    | DeviceInfoDone id r =>
        match find_call id w with
        | Some Shelly_GetDeviceInfo => Some (deviceInfoCallback r (remove_call id w))
        | _ => None
        end
    end.

Fixpoint run (cfg : Config) (w : World) (tr : list (Z * Event)) : option World :=
  match tr with
  | [] => Some w
  | (t, e) :: tr' =>
      match step cfg w t e with
      | Some w' => run cfg w' tr'
      | None => None
      end
  end.

(** Worlds the script can be in: those some sequence of dispatches leads to. *)
Definition reachable (cfg : Config) (t0 : Z) (w : World) : Prop :=
  exists tr, run cfg (started cfg t0) tr = Some w.

(** *** Deliveries in flight (history) *)

Definition mem_nat (n : nat) (l : list nat) : bool := existsb (Nat.eqb n) l.

Definition call_pending (id : nat) (w : World) : bool :=
  existsb (fun c => Nat.eqb (fst c) id) (calls w).

(** A send is in flight while its completion callback has not run and its
    watchdog has not fired. *)
Definition unresolved (w : World) (s : nat * nat) : bool :=
  call_pending (fst s) w && negb (mem_nat (snd s) (fired w)).

Definition in_flight (w : World) : list (nat * nat) :=
  filter (unresolved w) (sends w).

(** A completion is late when the watchdog of its send has already fired. *)
Definition late (w : World) (e : Event) : bool :=
  match e with
  | HttpDone id _ _ =>
      existsb (fun s => Nat.eqb (fst s) id && mem_nat (snd s) (fired w)) (sends w)
  | _ => false
  end.

(** A late completion overtakes a newer send when it runs while the slot
    is busy: the send it belongs to was released by its watchdog, so the
    slot is held by a send accepted since. *)
Definition overtakes (w : World) (e : Event) : bool := late w e && busy w.

(** Runs in which no late completion overtakes a newer send. *)
Fixpoint run_unovertaken (cfg : Config) (w : World) (tr : list (Z * Event))
  : option World :=
  match tr with
  | [] => Some w
  | (t, e) :: tr' =>
      if overtakes w e then None
      else match step cfg w t e with
           | Some w' => run_unovertaken cfg w' tr'
           | None => None
           end
  end.

(** ** Vocabulary of the properties *)

(** Outcomes of a completion, as the specification classifies them. *)
Definition is_failure (r : option HttpResponse) (e : Z) : Prop :=
  e <> 0 \/ match r with
            | Some resp => code resp <> 200
            | None => True
            end.

Definition is_success (r : option HttpResponse) (e : Z) : Prop :=
  e = 0 /\ exists resp, r = Some resp /\ code resp = 200.

(** What one failure signal does to the backoff variables. *)
Definition failure_effect (w w' : World) : Prop :=
  consecutiveErrors w' = consecutiveErrors w + 1 /\
  (consecutiveErrors w + 1 <= 3 -> backoffUntil w' = backoffUntil w) /\
  (consecutiveErrors w + 1 > 3 ->
   backoffUntil w' = now_sec w + Z.min 60 ((consecutiveErrors w + 1) * 5)).

(** The two sources of a failure signal. *)
Inductive FailureSignal :=
| WatchdogExpired
| HttpFailed (r : option HttpResponse) (e : Z).

Definition genuine (f : FailureSignal) : Prop :=
  match f with
  | WatchdogExpired => True
  | HttpFailed r e => is_failure r e
  end.

(** The handler of a failure signal, run at clock value [t]. *)
Definition deliver_failure (f : FailureSignal) (t : Z) (w : World) : World :=
  let w := set_clock t w in
  match f with
  | WatchdogExpired => resetBusy w
  | HttpFailed r e => httpCallback r e w
  end.

(** The element of [oldest] computed for a store entry. *)
Definition aged (now : Z) (e : string * Z) : Aged := mkAged (fst e) (now - snd e).

(** The comparison function given to [sort]. *)
Definition by_age_desc (a b : Aged) : Z := age b - age a.

(** Membership of a key in a list of keys. *)
Definition mem_str (k : string) (l : list string) : bool := existsb (String.eqb k) l.

(** Descending by age. *)
Definition older_first (a b : Aged) : Prop := age b <= age a.


(** ** Invariants *)

Definition is_watchdog (t : TimerEntry) : bool :=
  match t_cb t with
  | CbResetBusy => true
  | CbCleanupLastSent => false
  end.

(** Handles of the armed watchdog timers. *)
Definition watchdogs (w : World) : list nat :=
  map t_id (filter is_watchdog (timers w)).

(** Well-formed worlds: handles are fresh and unique, the keys of
    [lastSent] are unique, and [busy], [busyTimer] and the armed watchdog
    agree. *)
Record wf (w : World) : Prop := mk_wf {
  wf_timers_fresh : forall t, In t (timers w) -> (t_id t < nextId w)%nat;
  wf_calls_fresh : forall c, In c (calls w) -> (fst c < nextId w)%nat;
  wf_sends_fresh :
    forall s, In s (sends w) -> (fst s < nextId w)%nat /\ (snd s < nextId w)%nat;
  wf_fired_fresh : forall t, In t (fired w) -> (t < nextId w)%nat;
  wf_timers_nodup : NoDup (map t_id (timers w));
  wf_calls_nodup : NoDup (map fst (calls w));
  wf_keys_nodup : NoDup (store_keys (lastSent w));
  wf_subscribed : subscribed w = true;
  wf_oneshot : forall t, In t (timers w) -> is_watchdog t = true ->
                         t_repeat t = false;
  wf_slot : watchdogs w = match busyTimer w with
                          | Some t => [t]
                          | None => []
                          end;
  wf_busy : busy w = match busyTimer w with
                     | Some _ => true
                     | None => false
                     end
}.

(** The delivery history agrees with the slot: the send in flight, if any,
    is the one the armed watchdog guards. *)
Record single_flight (w : World) : Prop := mk_single_flight {
  sf_slot : match busyTimer w with
            | Some t => exists c, in_flight w = [(c, t)]
            | None => in_flight w = []
            end;
  sf_posts : forall c p, In (c, HTTP_POST p) (calls w) ->
                         exists t, In (c, t) (sends w);
  sf_kinds : forall c t, In (c, t) (sends w) ->
                         ~ In (c, Shelly_GetDeviceInfo) (calls w)
}.

Definition is_completion (e : Event) : bool :=
  match e with
  | HttpDone _ _ _ => true
  | _ => false
  end.

(** No completion callback runs in the trace. *)
Definition no_completion (tr : list (Z * Event)) : bool :=
  forallb (fun te => negb (is_completion (snd te))) tr.

Definition is_firing (id : nat) (e : Event) : bool :=
  match e with
  | TimerFired id' => Nat.eqb id' id
  | _ => false
  end.

(** Timer [id] does not fire in the trace. *)
Definition never_fires (id : nat) (tr : list (Z * Event)) : bool :=
  forallb (fun te => negb (is_firing id (snd te))) tr.

(** ** Concrete scenarios *)

(** The clock when the script starts: 2023-11-14 22:13:20 UTC. *)
Definition epoch : Z := 1700000000000.

(** The advertisement payload 02 01 06 03 FF E1 02, manufacturer 0x02E1. *)
Definition victron_payload : string :=
  String (JS.fromCharCode 2) (String (JS.fromCharCode 1)
  (String (JS.fromCharCode 6) (String (JS.fromCharCode 3)
  (String (JS.fromCharCode 255) (String (JS.fromCharCode 225)
  (String (JS.fromCharCode 2) EmptyString)))))).

(** A scan result for the device with address [a]. *)
Definition adv_from (a : string) : Event :=
  Advertisement (SCAN_RESULT default_config)
    (Some (mkScanResult (Some a) (Some victron_payload) (-67))) 12345.

(** The world a trace leads to from the start of the script (the start
    itself if the trace cannot happen). *)
Definition world_after (tr : list (Z * Event)) : World :=
  match run default_config (started default_config epoch) tr with
  | Some w => w
  | None => started default_config epoch
  end.

(** A transport failure reported by the completion callback. *)
Definition transport_error : option HttpResponse * Z := (None, -1).

(** A send times out, its watchdog (timer 2) releases the slot. *)
Definition watchdog_trace : list (Z * Event) :=
  [ (epoch + 1000, adv_from "aa:bb:cc:dd:ee:01");
    (epoch + 11000, TimerFired 2) ].

(** ... then a second device is accepted (call 5, watchdog 4), the
    completion of the first send (call 3) arrives late, and a third
    device is accepted (call 7, watchdog 6). *)
Definition stale_completion_trace : list (Z * Event) :=
  (watchdog_trace ++
  [ (epoch + 12000, adv_from "aa:bb:cc:dd:ee:02");
    (epoch + 12500, HttpDone 3 (Some (mkResponse 200 None)) 0);
    (epoch + 13000, adv_from "aa:bb:cc:dd:ee:03") ])%list.

(** ... then the completion of the timed-out send (call 3) arrives. *)
Definition late_completion : Z * Event :=
  (epoch + 12000, HttpDone 3 (fst transport_error) (snd transport_error)).

(** Four sends in a row fail, then an event that is not a scan result is
    dispatched a minute after the start. *)
Definition backoff_trace : list (Z * Event) :=
  [ (epoch + 1000, adv_from "aa:bb:cc:dd:ee:01");
    (epoch + 2000, HttpDone 3 (fst transport_error) (snd transport_error));
    (epoch + 3000, adv_from "aa:bb:cc:dd:ee:02");
    (epoch + 4000, HttpDone 5 (fst transport_error) (snd transport_error));
    (epoch + 5000, adv_from "aa:bb:cc:dd:ee:03");
    (epoch + 6000, HttpDone 7 (fst transport_error) (snd transport_error));
    (epoch + 7000, adv_from "aa:bb:cc:dd:ee:04");
    (epoch + 8000, HttpDone 9 (fst transport_error) (snd transport_error));
    (epoch + 60000, Advertisement 0 None 0) ].

(** A configuration that tracks at most two devices, and a world whose
    store holds three, last forwarded 50, 10 and 30 seconds ago. *)
Definition small_config : Config :=
  mkConfig (URL default_config) (MFG default_config) 5 2 300 2.

Definition three_devices : World :=
  set_lastSent [ ("AA:BB:CC:DD:EE:01", 1699999950);
                 ("AA:BB:CC:DD:EE:02", 1699999990);
                 ("AA:BB:CC:DD:EE:03", 1699999970) ]
               (started small_config epoch).

(** Device number [i] of a crowd of distinct devices. *)
Definition device (i : nat) : string :=
  "AA:BB:CC:DD:EE:" ++ two_digits (Z.of_nat i).

(** Device 0 is forwarded at second 1700000300 and its delivery completes;
    fifty other devices are recorded one second later; the cleanup timer
    (timer 1) fires at second 1700000302. *)
Definition eviction_trace : list (Z * Event) :=
  ([ (epoch + 300000, adv_from (device 0));
     (epoch + 300100, HttpDone 3 (Some (mkResponse 200 None)) 0) ]
   ++ map (fun i => (epoch + 301000 + Z.of_nat i, adv_from (device i)))
          (seq 1 50)
   ++ [ (epoch + 301900, HttpDone 5 (Some (mkResponse 200 None)) 0);
        (epoch + 302000, TimerFired 1) ])%list.

(** Device 0 advertises again at second 1700000303. *)
Definition readvertisement : Z * Event :=
  (epoch + 303000, adv_from (device 0)).

(** The send of call 3 times out, its completion arrives late while the
    slot is idle, and two more devices advertise. *)
Definition late_while_idle_trace : list (Z * Event) :=
  (watchdog_trace ++
  [ late_completion;
    (epoch + 13000, adv_from "aa:bb:cc:dd:ee:02");
    (epoch + 13500, adv_from "aa:bb:cc:dd:ee:03") ])%list.

(** The world in which the late completion of call 3 has cancelled the
    watchdog (timer 4) of the send of call 5. *)
Definition cancelled_world : World :=
  world_after (firstn 4 stale_completion_trace).

(** ** Vocabulary of the further properties *)

(** Colon-separated pairs by recursion on the string: what the loop over
    [substr(i, 2)] builds. *)
Fixpoint pairs (s : string) : string :=
  match s with
  | String a (String b (String c rest as tl)) =>
      String a (String b (String ":" (pairs tl)))
  | _ => s
  end.

Definition is_colon (c : ascii) : bool := Ascii.eqb c ":".

(** The string holds a colon. *)
Fixpoint has_colon (s : string) : bool :=
  match s with
  | EmptyString => false
  | String c s' => is_colon c || has_colon s'
  end.

(** The string without its colons. *)
Fixpoint strip_colons (s : string) : string :=
  match s with
  | EmptyString => EmptyString
  | String c s' => if is_colon c then strip_colons s' else String c (strip_colons s')
  end.

(** The characters 0-9 and A-F. *)
Definition is_upper_hex (c : ascii) : bool :=
  let k := JS.charCode c in
  ((48 <=? k) && (k <=? 57)) || ((65 <=? k) && (k <=? 70)).

Fixpoint all_chars (p : ascii -> bool) (s : string) : bool :=
  match s with
  | EmptyString => true
  | String c s' => p c && all_chars p s'
  end.

(** The value of an upper-case hexadecimal digit. *)
Definition digit_value (c : ascii) : Z :=
  let k := JS.charCode c in
  if k <=? 57 then k - 48 else k - 55.

(** Reading an upper-case hexadecimal string back into bytes. *)
Fixpoint unhex (d : string) : string :=
  match d with
  | String h (String l rest) =>
      String (JS.fromCharCode (16 * digit_value h + digit_value l)) (unhex rest)
  | _ => EmptyString
  end.

(** Every armed watchdog was armed for 10000 ms and is due within 10
    seconds of the clock. *)
Definition watchdogs_due (w : World) : Prop :=
  forall x, In x (timers w) -> is_watchdog x = true ->
            t_period x = 10000 /\ t_due x <= clock w + 10000.

(** The armed timers that are not watchdogs. *)
Definition housekeeping (w : World) : list TimerEntry :=
  filter (fun t => negb (is_watchdog t)) (timers w).

(** The cleanup timer as [init] arms it, due at [due]. *)
Definition cleanup_timer (cfg : Config) (due : Z) : TimerEntry :=
  mkTimer 1 due (CLEANUP_INTERVAL_SEC cfg * 1000) true CbCleanupLastSent.

From Stdlib Require DecimalZ DecimalPos.

(** *** Reading a request body back

    A reader for the payload format the header of the script documents,
    as [send] lays it out (no white space): it takes the body apart field
    by field. *)

Definition is_dq (c : ascii) : bool := Ascii.eqb c (ascii_of_nat 34).

(** The string holds no double quote. *)
Definition no_dq (s : string) : bool := all_chars (fun c => negb (is_dq c)) s.

(** A digit or a minus sign. *)
Definition is_number_char (c : ascii) : bool :=
  let k := JS.charCode c in
  ((48 <=? k) && (k <=? 57)) || (k =? 45).

(** Splits a string before its first character satisfying [stop]. *)
Fixpoint span_until (stop : ascii -> bool) (s : string) : string * string :=
  match s with
  | EmptyString => (EmptyString, EmptyString)
  | String c s' =>
      if stop c then (EmptyString, s)
      else let (a, b) := span_until stop s' in (String c a, b)
  end.

(** Removes the literal [lit] from the front of [s]. *)
Fixpoint expect (lit s : string) : option string :=
  match lit with
  | EmptyString => Some s
  | String c lit' =>
      match s with
      | String c' s' => if Ascii.eqb c c' then expect lit' s' else None
      | EmptyString => None
      end
  end.

(** A decimal integer at the front of [s]. *)
Definition read_number (s : string) : option (Z * string) :=
  let (v, rest) := span_until (fun c => negb (is_number_char c)) s in
  match NilZero.int_of_string v with
  | Some n => Some (Z.of_int n, rest)
  | None => None
  end.

(** A string between double quotes at the front of [s]. *)
Definition read_string (s : string) : option (string * string) :=
  match expect dq s with
  | Some s1 =>
      let (v, rest) := span_until is_dq s1 in
      match expect dq rest with
      | Some s2 => Some (v, s2)
      | None => None
      end
  | None => None
  end.

(** The fields of one request. *)
Record Telemetry := mkTelemetry {
  tl_timestamp : Z;
  tl_nonce : Z;
  tl_gw_mac : string;
  tl_tag : string;
  tl_rssi : Z;
  tl_tag_timestamp : Z;
  tl_data : string
}.

(** The fixed text between the fields. *)
Definition body_open : string :=
  "{" ++ quoted "data" ++ ":{" ++ quoted "coordinates" ++ ":"
  ++ quoted EmptyString ++ "," ++ quoted "timestamp" ++ ":".

Definition key_nonce : string := "," ++ quoted "nonce" ++ ":".

Definition key_gw_mac : string := "," ++ quoted "gw_mac" ++ ":".

Definition key_tags : string := "," ++ quoted "tags" ++ ":{".

Definition key_rssi : string := ":{" ++ quoted "rssi" ++ ":".

Definition key_tag_timestamp : string := "," ++ quoted "timestamp" ++ ":".

Definition key_data : string := "," ++ quoted "data" ++ ":".

Definition body_close : string := "}}}}".

(** The whole body, read field by field; [None] if it is not laid out as
    documented. *)
Definition read_body (s : string) : option Telemetry :=
  match expect body_open s with
  | None => None
  | Some s =>
  match read_number s with
  | None => None
  | Some (ts, s) =>
  match expect key_nonce s with
  | None => None
  | Some s =>
  match read_number s with
  | None => None
  | Some (nonce, s) =>
  match expect key_gw_mac s with
  | None => None
  | Some s =>
  match read_string s with
  | None => None
  | Some (gw, s) =>
  match expect key_tags s with
  | None => None
  | Some s =>
  match read_string s with
  | None => None
  | Some (tag, s) =>
  match expect key_rssi s with
  | None => None
  | Some s =>
  match read_number s with
  | None => None
  | Some (rssi, s) =>
  match expect key_tag_timestamp s with
  | None => None
  | Some s =>
  match read_number s with
  | None => None
  | Some (ts2, s) =>
  match expect key_data s with
  | None => None
  | Some s =>
  match read_string s with
  | None => None
  | Some (data, s) =>
  match expect body_close s with
  | Some EmptyString => Some (mkTelemetry ts nonce gw tag rssi ts2 data)
  | _ => None
  end end end end end end end end end end end end end end end.

(** * Properties *)

(** ** Strings *)

Lemma append_assoc (a b c : string) : (a ++ b) ++ c = a ++ b ++ c.
Proof. induction a as [|x a IH]; simpl; [reflexivity | now rewrite IH]. Qed.

Lemma append_nil_r (a : string) : a ++ EmptyString = a.
Proof. induction a as [|x a IH]; simpl; [reflexivity | now rewrite IH]. Qed.

Lemma toUpperCase_app (a b : string) :
  JS.toUpperCase (a ++ b) = JS.toUpperCase a ++ JS.toUpperCase b.
Proof. induction a as [|x a IH]; simpl; [reflexivity | now rewrite IH]. Qed.

Lemma prefix_app (p s : string) :
  String.prefix p s = true <-> exists post, s = p ++ post.
Proof.
  revert s; induction p as [|x p IH]; intros s; simpl.
  - split; [intros _; now exists s | intros _; destruct s; reflexivity].
  - destruct s as [|y s]; simpl.
    + split; [discriminate | intros [post H]; discriminate].
    + destruct (ascii_dec x y) as [->|ne].
      * rewrite IH. split; intros [post H]; exists post; congruence.
      * split; [discriminate | intros [post H]; congruence].
Qed.

Lemma Substring_here (pat s : string) :
  String.prefix pat s = true -> Substring pat s.
Proof.
  intros H; apply prefix_app in H as [post ->]. now exists EmptyString, post.
Qed.

Lemma Substring_cons (pat s : string) (c : ascii) :
  Substring pat (String c s) <->
  String.prefix pat (String c s) = true \/ Substring pat s.
Proof.
  split.
  - intros [pre [post H]]. destruct pre as [|x pre]; simpl in H.
    + left. apply prefix_app. now exists post.
    + right. exists pre, post. congruence.
  - intros [H | [pre [post ->]]].
    + now apply Substring_here.
    + now exists (String c pre), post.
Qed.

Lemma Substring_nil (pat : string) :
  Substring pat EmptyString <-> String.prefix pat EmptyString = true.
Proof.
  split; [|apply Substring_here].
  intros [pre [post H]]. destruct pre; [|discriminate].
  apply prefix_app. now exists post.
Qed.

Lemma indexOf_from_found (s pat : string) (i : Z) :
  0 <= i -> (JS.indexOf_from s pat i <> -1 <-> Substring pat s).
Proof.
  revert i; induction s as [|c s IH]; intros i Hi; cbn [JS.indexOf_from].
  - rewrite Substring_nil.
    destruct (String.prefix pat EmptyString); split; intros H;
      try reflexivity; try lia; try discriminate; congruence.
  - rewrite Substring_cons.
    destruct (String.prefix pat (String c s)) eqn:E.
    + split; [now left | lia].
    + rewrite (IH (i + 1)) by lia.
      split; [now right | intros [H|H]; [discriminate | assumption]].
Qed.

(** [d.indexOf(pat) !== -1] says that [pat] occurs in [d]. *)
Lemma indexOf_found (d pat : string) :
  negb (JS.indexOf d pat =? -1) = true <-> Substring pat d.
Proof.
  unfold JS.indexOf. rewrite <- (indexOf_from_found d pat 0) by lia.
  rewrite negb_true_iff, Z.eqb_neq. reflexivity.
Qed.

(** ** The filter *)


Lemma two_digits_char (c : ascii) :
  two_digits (JS.charCode c) = byte_hex_spec (JS.charCode c).
Proof. destruct c as [[] [] [] [] [] [] [] []]; reflexivity. Qed.

Lemma two_digits_byte (b : Z) :
  0 <= b < 256 -> two_digits b = byte_hex_spec b.
Proof.
  intros Hb.
  assert (E : JS.charCode (JS.fromCharCode b) = b).
  { unfold JS.charCode, JS.fromCharCode.
    rewrite N_ascii_embedding by lia. lia. }
  rewrite <- E. apply two_digits_char.
Qed.

Lemma hex_loop_acc (s r : string) :
  hex_loop s r = r ++ hex_loop s EmptyString.
Proof.
  revert r; induction s as [|c s IH]; intros r; cbn [hex_loop].
  - now rewrite append_nil_r.
  - rewrite IH. rewrite (IH (EmptyString ++ _)). cbn [append].
    now rewrite append_assoc.
Qed.

(** [hex] is the upper-case hexadecimal encoding of the payload. *)
Lemma hex_is_payload_hex (p : string) : hex p = payload_hex_spec p.
Proof.
  unfold hex. induction p as [|c p IH]; [reflexivity|].
  cbn [hex_loop payload_hex_spec]. rewrite hex_loop_acc, toUpperCase_app.
  cbn [append]. rewrite IH. f_equal. apply two_digits_char.
Qed.

Lemma toInt32_mod256 (z : Z) : JS.toInt32 z mod 256 = z mod 256.
Proof.
  unfold JS.toInt32.
  rewrite (Z.mod_eq (z + 2 ^ 31) (2 ^ 32)) by lia.
  replace (z + 2 ^ 31 - 2 ^ 32 * ((z + 2 ^ 31) / 2 ^ 32) - 2 ^ 31)
    with (z + (- (2 ^ 24 * ((z + 2 ^ 31) / 2 ^ 32))) * 256) by lia.
  apply Z.mod_add; lia.
Qed.

Lemma toInt32_div256_mod256 (z : Z) :
  (JS.toInt32 z / 256) mod 256 = (z / 256) mod 256.
Proof.
  unfold JS.toInt32.
  rewrite (Z.mod_eq (z + 2 ^ 31) (2 ^ 32)) by lia.
  replace (z + 2 ^ 31 - 2 ^ 32 * ((z + 2 ^ 31) / 2 ^ 32) - 2 ^ 31)
    with (z + (- (2 ^ 24 * ((z + 2 ^ 31) / 2 ^ 32))) * 256) by lia.
  rewrite Z.div_add by lia.
  replace (- (2 ^ 24 * ((z + 2 ^ 31) / 2 ^ 32)))
    with ((- (2 ^ 16 * ((z + 2 ^ 31) / 2 ^ 32))) * 256) by lia.
  apply Z.mod_add; lia.
Qed.

Lemma band_255 (z : Z) : JS.band z 255 = z mod 256.
Proof.
  unfold JS.band. change (JS.toInt32 255) with (Z.ones 8).
  rewrite Z.land_ones by lia. apply toInt32_mod256.
Qed.

Lemma sar_8 (z : Z) : JS.sar z 8 = JS.toInt32 z / 256.
Proof.
  unfold JS.sar. change (Z.land 8 31) with 8.
  rewrite Z.shiftr_div_pow2 by lia. reflexivity.
Qed.

(** The pattern searched for an id is ["FF"] followed by the id's two
    bytes, low byte first. *)
Lemma mfg_pattern_spec (id : Z) : mfg_pattern id = "FF" ++ le16_hex_spec id.
Proof.
  unfold mfg_pattern, le16_hex_spec.
  change (JS.toUpperCase
            (if JS.len (JS.toString16 (JS.band id 255)) =? 1
             then "0" ++ JS.toString16 (JS.band id 255)
             else JS.toString16 (JS.band id 255)))
    with (two_digits (JS.band id 255)).
  change (JS.toUpperCase
            (if JS.len (JS.toString16 (JS.band (JS.sar id 8) 255)) =? 1
             then "0" ++ JS.toString16 (JS.band (JS.sar id 8) 255)
             else JS.toString16 (JS.band (JS.sar id 8) 255)))
    with (two_digits (JS.band (JS.sar id 8) 255)).
  rewrite !band_255, sar_8, toInt32_div256_mod256.
  rewrite !two_digits_byte by (apply Z.mod_pos_bound; lia).
  reflexivity.
Qed.

Lemma hasMfg_loop_spec (d : string) (ids : list Z) :
  hasMfg_loop d ids = true <->
  exists id, In id ids /\ Substring (mfg_pattern id) d.
Proof.
  induction ids as [|id ids IH]; cbn [hasMfg_loop].
  - split; [discriminate | intros [id [[] _]]].
  - destruct (negb (JS.indexOf d (mfg_pattern id) =? -1)) eqn:E.
    + split; [intros _ | reflexivity].
      exists id. split; [now left | now apply indexOf_found].
    + rewrite IH. split.
      * intros [i [Hi Hs]]. exists i. split; [now right | assumption].
      * intros [i [[<- | Hi] Hs]].
        -- apply indexOf_found in Hs. congruence.
        -- now exists i.
Qed.


(** C7. Filter qualification: an empty allow-list admits every payload; a
    non-empty one admits a payload exactly when its upper-case hexadecimal
    encoding contains FF followed by the little-endian hexadecimal encoding
    of one of the listed ids.  For the list [0x0499], an encoding that
    contains FF9904 qualifies; the payload 02 01 06 04 FF AA 01 does not. *)
Theorem hasMfg_qualifies :
  (forall p : string, hasMfg (hex p) [] = true) /\
  (forall (p : string) (ids : list Z), ids <> [] ->
     (hasMfg (hex p) ids = true <->
      exists id, In id ids /\
                 Substring ("FF" ++ le16_hex_spec id) (payload_hex_spec p))) /\
  (forall p : string, Substring "FF9904" (payload_hex_spec p) ->
     hasMfg (hex p) [0x0499] = true) /\
  (payload_hex_spec payload_FFAA01 = "02010604FFAA01" /\
   hasMfg (hex payload_FFAA01) [0x0499] = false).
Proof.
  assert (G : forall (p : string) (ids : list Z), ids <> [] ->
     (hasMfg (hex p) ids = true <->
      exists id, In id ids /\
                 Substring ("FF" ++ le16_hex_spec id) (payload_hex_spec p))).
  { intros p ids Hne. unfold hasMfg.
    destruct ids as [|i ids]; [congruence|].
    change (Z.of_nat (List.length (i :: ids)) =? 0)
      with (Z.of_nat (S (List.length ids)) =? 0).
    destruct (Z.eqb_spec (Z.of_nat (S (List.length ids))) 0) as [E|_]; [lia|].
    rewrite hasMfg_loop_spec, hex_is_payload_hex.
    split; intros [id [Hin Hs]]; exists id; split; try assumption.
    - now rewrite <- mfg_pattern_spec.
    - now rewrite mfg_pattern_spec. }
  split; [reflexivity|]. split; [exact G|]. split.
  - intros p Hs. apply G; [discriminate|].
    exists 0x0499. split; [now left | exact Hs].
  - split; reflexivity.
Qed.

Lemma hasMfg_qualifies_witness :
  hasMfg (hex payload_FFAA01) [0x0499; 0x0059] = true <->
  exists id, In id [0x0499; 0x0059] /\
             Substring ("FF" ++ le16_hex_spec id) (payload_hex_spec payload_FFAA01).
Proof.
  apply (proj1 (proj2 hasMfg_qualifies) payload_FFAA01 [0x0499; 0x0059]).
  discriminate.
Defined.


(** C9. The match is not byte-aligned: the payload 0F F9 90 4A has no byte
    0xFF, its encoding 0FF9904A contains FF9904 from the second digit on,
    and it qualifies for the allow-list [0x0499]. *)
Theorem hasMfg_not_byte_aligned :
  exists p : string,
    (forall c, In c (list_ascii_of_string p) -> JS.charCode c <> 255) /\
    hex p = "0FF9904A" /\
    JS.indexOf (hex p) (mfg_pattern 0x0499) = 1 /\
    hasMfg (hex p) [0x0499] = true.
Proof.
  exists payload_misaligned. split; [|repeat split; reflexivity].
  intros c Hc. cbn in Hc.
  repeat (destruct Hc as [<- | Hc]; [vm_compute; discriminate|]).
  destruct Hc.
Qed.

(** ** The backoff controller *)

Lemma count_error_effect (w : World) : failure_effect w (count_error w).
Proof.
  unfold failure_effect, count_error, applyBackoff.
  destruct w; cbn.
  destruct (Z.leb_spec (consecutiveErrors0 + 1) 3); cbn; repeat split; intros; lia.
Qed.

Lemma httpCallback_prelude (r : option HttpResponse) (e : Z) (w : World) :
  exists w0,
    consecutiveErrors w0 = consecutiveErrors w /\
    backoffUntil w0 = backoffUntil w /\ now_sec w0 = now_sec w /\
    busy w0 = false /\ busyTimer w0 = None /\
    httpCallback r e w =
      if negb (e =? 0) then count_error w0
      else match r with
           | Some resp =>
               if negb (code resp =? 200) then count_error w0
               else set_backoffUntil 0 (set_consecutiveErrors 0 w0)
           | None => count_error w0
           end.
Proof.
  exists (release_slot w). unfold httpCallback, release_slot. cbv zeta.
  change (busyTimer (set_busy false w)) with (busyTimer w).
  destruct (busyTimer w) as [t|] eqn:E; repeat split; try reflexivity.
  exact E.
Qed.

Lemma failure_effect_transfer (w w0 w' : World) :
  consecutiveErrors w0 = consecutiveErrors w ->
  backoffUntil w0 = backoffUntil w -> now_sec w0 = now_sec w ->
  failure_effect w0 w' -> failure_effect w w'.
Proof. unfold failure_effect. intros -> -> ->. tauto. Qed.

Lemma httpCallback_failure (r : option HttpResponse) (e : Z) (w : World) :
  is_failure r e -> failure_effect w (httpCallback r e w).
Proof.
  intros Hf.
  destruct (httpCallback_prelude r e w) as (w0 & Hc & Hb & Hn & _ & _ & ->).
  apply (failure_effect_transfer w w0 _ Hc Hb Hn).
  destruct (Z.eqb_spec e 0) as [->|ne]; cbn [negb]; [|apply count_error_effect].
  destruct Hf as [Hf | Hf]; [congruence|].
  destruct r as [resp|]; [|apply count_error_effect].
  destruct (Z.eqb_spec (code resp) 200); [congruence|].
  apply count_error_effect.
Qed.

Lemma httpCallback_success (r : option HttpResponse) (e : Z) (w : World) :
  is_success r e ->
  consecutiveErrors (httpCallback r e w) = 0 /\
  backoffUntil (httpCallback r e w) = 0.
Proof.
  intros [-> [resp [-> Hc]]].
  destruct (httpCallback_prelude (Some resp) 0 w) as (w0 & _ & _ & _ & _ & _ & ->).
  cbn [Z.eqb negb]. rewrite Hc. cbn. split; reflexivity.
Qed.

Lemma resetBusy_failure (w : World) : failure_effect w (resetBusy w).
Proof.
  unfold resetBusy.
  apply (failure_effect_transfer w (set_busyTimer None (set_busy false w)));
    try reflexivity.
  apply count_error_effect.
Qed.

Lemma deliver_failure_effect (f : FailureSignal) (t : Z) (w : World) :
  genuine f ->
  consecutiveErrors (deliver_failure f t w) = consecutiveErrors w + 1 /\
  (consecutiveErrors w + 1 > 3 ->
   backoffUntil (deliver_failure f t w)
   = t / 1000 + Z.min 60 ((consecutiveErrors w + 1) * 5)).
Proof.
  intros Hg. unfold deliver_failure.
  assert (H : failure_effect (set_clock t w)
                (match f with
                 | WatchdogExpired => resetBusy (set_clock t w)
                 | HttpFailed r e => httpCallback r e (set_clock t w)
                 end)).
  { destruct f; [apply resetBusy_failure | now apply httpCallback_failure]. }
  destruct H as (H1 & _ & H3). split; [exact H1 | exact H3].
Qed.

(** C4. Backoff policy: a failure signal (a failed completion or the
    watchdog) adds one to consecutiveErrors; up to a count of 3 it leaves
    backoffUntil alone, above 3 it sets backoffUntil to
    now + min(60, 5 * count); a success resets both to 0; four failures in a
    row from a count of 0 leave a cooldown of 20 seconds. *)
Theorem backoff_policy :
  (forall r e w, is_failure r e -> failure_effect w (httpCallback r e w)) /\
  (forall w, failure_effect w (resetBusy w)) /\
  (forall r e w, is_success r e ->
     consecutiveErrors (httpCallback r e w) = 0 /\
     backoffUntil (httpCallback r e w) = 0) /\
  (forall w f1 f2 f3 f4 t1 t2 t3 t4,
     consecutiveErrors w = 0 ->
     genuine f1 -> genuine f2 -> genuine f3 -> genuine f4 ->
     let w4 := deliver_failure f4 t4 (deliver_failure f3 t3
                 (deliver_failure f2 t2 (deliver_failure f1 t1 w))) in
     consecutiveErrors w4 = 4 /\ backoffUntil w4 = t4 / 1000 + 20).
Proof.
  split; [exact httpCallback_failure|].
  split; [exact resetBusy_failure|].
  split; [exact httpCallback_success|].
  intros w f1 f2 f3 f4 t1 t2 t3 t4 H0 G1 G2 G3 G4 w4.
  destruct (deliver_failure_effect f1 t1 w G1) as [E1 _].
  destruct (deliver_failure_effect f2 t2 (deliver_failure f1 t1 w) G2) as [E2 _].
  destruct (deliver_failure_effect f3 t3
              (deliver_failure f2 t2 (deliver_failure f1 t1 w)) G3) as [E3 _].
  destruct (deliver_failure_effect f4 t4
              (deliver_failure f3 t3
                 (deliver_failure f2 t2 (deliver_failure f1 t1 w))) G4)
    as [E4 B4].
  subst w4. split; [lia|].
  rewrite B4 by lia. rewrite E3, E2, E1, H0. reflexivity.
Qed.

Lemma backoff_policy_witness :
  let w := started default_config 1700000000000 in
  let timeout := HttpFailed None (-1) in
  let refused := HttpFailed (Some (mkResponse 500 None)) 0 in
  failure_effect w (httpCallback None (-1) w) /\
  consecutiveErrors (httpCallback (Some (mkResponse 200 None)) 0 w) = 0 /\
  backoffUntil
    (deliver_failure WatchdogExpired 1700000040000
       (deliver_failure refused 1700000030000
          (deliver_failure timeout 1700000020000
             (deliver_failure timeout 1700000010000 w))))
  = 1700000040 + 20.
Proof.
  intros w timeout refused.
  destruct backoff_policy as (F & _ & S & Four).
  split; [apply F; left; discriminate|].
  split.
  - apply (S (Some (mkResponse 200 None)) 0 w).
    split; [reflexivity|]. exists (mkResponse 200 None). split; reflexivity.
  - apply (Four w timeout timeout refused WatchdogExpired).
    + reflexivity.
    + left; discriminate.
    + left; discriminate.
    + right; cbn; discriminate.
    + exact I.
Defined.

(** ** The advertisement handler: events that are ignored *)

(** C10. An event that is not a scan result, or has no result object, or
    whose result has no source address (absent or empty) or no payload
    (absent or empty), leaves the world as it is: no script variable
    changes, no timer is armed and no call is issued; a dispatch of it only
    advances the clock. *)
Theorem onBle_ignores :
  forall cfg ev res nonce w,
    (ev <> SCAN_RESULT cfg \/ res = None \/
     exists r, res = Some r /\
               (addr r = None \/ addr r = Some EmptyString \/
                advData r = None \/ advData r = Some EmptyString)) ->
    onBle cfg ev res nonce w = w /\
    forall t w', step cfg w t (Advertisement ev res nonce) = Some w' ->
                 w' = set_clock t w.
Proof.
  intros cfg ev res nonce w H.
  assert (G : forall w0, onBle cfg ev res nonce w0 = w0).
  { intros w0. unfold onBle.
    destruct (Z.eqb_spec ev (SCAN_RESULT cfg)) as [Hev|Hev]; cbn [negb];
      [|reflexivity].
    destruct H as [H | [-> | [r [-> H]]]]; [congruence | reflexivity |].
    destruct H as [H | [H | [H | H]]]; rewrite H; cbn; try reflexivity.
    all: destruct (truthy (addr r)); reflexivity. }
  split; [apply G|].
  intros t w' Hs. unfold step in Hs.
  destruct (t <? clock w); [discriminate|].
  destruct (subscribed (set_clock t w)); [|discriminate].
  rewrite G in Hs. congruence.
Qed.

Lemma onBle_ignores_witness :
  let w := started default_config 1700000000000 in
  let res := Some (mkScanResult (Some "aa:bb:cc:dd:ee:ff") None (-60)) in
  onBle default_config 2 res 7 w = w /\
  forall t w', step default_config w t (Advertisement 2 res 7) = Some w' ->
               w' = set_clock t w.
Proof.
  intros w res. apply onBle_ignores.
  right; right. eexists. split; [reflexivity|].
  right; right; left. reflexivity.
Defined.

(** ** The cleanup pass *)

Lemma sort_insert_perm {A : Type} (cmp : A -> A -> Z) (x : A) (l : list A) :
  Permutation (x :: l) (sort_insert cmp x l).
Proof.
  induction l as [|y l IH]; cbn [sort_insert]; [apply Permutation_refl|].
  destruct (cmp x y <=? 0); [apply Permutation_refl|].
  eapply perm_trans; [apply perm_swap|]. now apply perm_skip.
Qed.

Lemma sort_by_perm {A : Type} (cmp : A -> A -> Z) (l : list A) :
  Permutation l (sort_by cmp l).
Proof.
  induction l as [|x l IH]; cbn [sort_by]; [apply perm_nil|].
  eapply perm_trans; [apply perm_skip, IH | apply sort_insert_perm].
Qed.

Lemma sort_insert_sorted (x : Aged) (l : list Aged) :
  StronglySorted older_first l ->
  StronglySorted older_first (sort_insert by_age_desc x l).
Proof.
  induction 1 as [|y l Hs IH Hall]; cbn [sort_insert].
  - constructor; constructor.
  - unfold by_age_desc at 1.
    destruct (Z.leb_spec (age y - age x) 0) as [Hle|Hgt].
    + constructor; [now constructor|].
      constructor; [unfold older_first; lia|].
      eapply Forall_impl; [|exact Hall].
      unfold older_first; intros; lia.
    + constructor; [exact IH|].
      eapply Permutation_Forall; [apply sort_insert_perm|].
      constructor; [unfold older_first; lia | exact Hall].
Qed.

Lemma sort_by_sorted (l : list Aged) :
  StronglySorted older_first (sort_by by_age_desc l).
Proof.
  induction l as [|x l IH]; cbn [sort_by]; [constructor|].
  now apply sort_insert_sorted.
Qed.

Lemma sorted_split (l1 l2 : list Aged) :
  StronglySorted older_first (l1 ++ l2) ->
  forall a b, In a l1 -> In b l2 -> age b <= age a.
Proof.
  induction l1 as [|x l1 IH]; intros Hs a b Ha Hb; [destruct Ha|].
  cbn in Hs. inversion Hs as [|? ? Hs' Hall]; subst.
  destruct Ha as [<- | Ha].
  - rewrite Forall_forall in Hall. apply Hall, in_or_app. now right.
  - now apply (IH Hs' a b).
Qed.

Lemma store_get_in (st : Store) (k : string) (v : Z) :
  NoDup (store_keys st) -> In (k, v) st -> store_get k st = Some v.
Proof.
  induction st as [|[k' v'] st IH]; intros Hnd Hin; [destruct Hin|].
  cbn in Hnd. inversion Hnd as [|? ? Hni Hnd']; subst.
  cbn [store_get]. destruct Hin as [E | Hin].
  - inversion E; subst. now rewrite String.eqb_refl.
  - destruct (String.eqb_spec k k') as [->|ne]; [|now apply IH].
    exfalso. apply Hni. change k' with (fst (k', v)). now apply in_map.
Qed.

Lemma store_delete_filter (k : string) (st : Store) :
  store_delete k st = filter (fun e => negb (String.eqb k (fst e))) st.
Proof.
  induction st as [|[k' v'] st IH]; cbn; [reflexivity|].
  destruct (String.eqb k k'); cbn; now rewrite IH.
Qed.

Lemma oldest_is_aged (now : Z) (st : Store) :
  NoDup (store_keys st) ->
  map (fun k => mkAged k (now - store_read k st)) (store_keys st)
  = map (aged now) st.
Proof.
  intros Hnd. unfold store_keys. rewrite map_map.
  apply map_ext_in. intros [k v] Hin. unfold store_read, aged. cbn [fst snd].
  now rewrite (store_get_in st k v Hnd Hin).
Qed.

Lemma filter_delete_step (a : string) (rk : list string) (st : Store) :
  filter (fun e => negb (mem_str (fst e) rk))
         (filter (fun e => negb (String.eqb a (fst e))) st)
  = filter (fun e => negb (mem_str (fst e) (a :: rk))) st.
Proof.
  induction st as [|e st IH]; cbn [filter]; [reflexivity|].
  change (mem_str (fst e) (a :: rk))
    with (String.eqb (fst e) a || mem_str (fst e) rk).
  rewrite (String.eqb_sym (fst e) a).
  destruct (String.eqb a (fst e)); cbn [negb orb filter]; [exact IH|].
  destruct (mem_str (fst e) rk); cbn [negb]; now rewrite IH.
Qed.

Lemma delete_oldest_filter (n : nat) (l : list Aged) (st : Store) :
  (n <= List.length l)%nat ->
  delete_oldest n l st
  = Some (filter (fun e => negb (mem_str (fst e) (map mac (firstn n l)))) st).
Proof.
  revert l st; induction n as [|n IH]; intros l st Hn.
  - cbn. f_equal. induction st as [|e st IHst]; cbn; [reflexivity|].
    now rewrite <- IHst.
  - destruct l as [|a l]; [cbn in Hn; lia|].
    cbn [delete_oldest firstn map]. rewrite IH by (cbn in Hn; lia).
    f_equal. rewrite store_delete_filter. apply filter_delete_step.
Qed.

Lemma filter_split {A : Type} (f : A -> bool) (l : list A) :
  Permutation l (filter f l ++ filter (fun x => negb (f x)) l).
Proof.
  induction l as [|x l IH]; cbn; [apply perm_nil|].
  destruct (f x); cbn.
  - now apply perm_skip.
  - now apply Permutation_cons_app.
Qed.

Lemma mem_str_In (k : string) (l : list string) :
  mem_str k l = true <-> In k l.
Proof.
  unfold mem_str. rewrite existsb_exists. split.
  - intros [x [Hin E]]. apply String.eqb_eq in E. now subst.
  - intros Hin. exists k. split; [assumption | apply String.eqb_refl].
Qed.

Lemma NoDup_keys_filter (f : string * Z -> bool) (st : Store) :
  NoDup (store_keys st) -> NoDup (store_keys (filter f st)).
Proof.
  unfold store_keys. induction st as [|e st IH]; intros Hnd; cbn; [constructor|].
  cbn in Hnd. inversion Hnd as [|? ? Hni Hnd']; subst.
  destruct (f e); cbn; [|now apply IH].
  constructor; [|now apply IH].
  intros Hin. apply Hni. apply in_map_iff in Hin as [x [E Hx]].
  apply filter_In in Hx as [Hx _]. rewrite <- E. now apply in_map.
Qed.

(** The store that remains and the entries that go when the keys [rk] are
    deleted. *)
Lemma cleanup_partition (max now : Z) (st : Store) :
  NoDup (store_keys st) ->
  0 <= max < Z.of_nat (List.length st) ->
  let n := Z.to_nat (Z.of_nat (List.length st) - max) in
  let sorted := sort_by by_age_desc (map (aged now) st) in
  let rk := map mac (firstn n sorted) in
  let removed := filter (fun e => mem_str (fst e) rk) st in
  let kept := filter (fun e => negb (mem_str (fst e) rk)) st in
  cleanup_store max now st = Some kept /\
  Permutation st (removed ++ kept) /\
  List.length removed = n /\
  (forall e e', In e kept -> In e' removed -> snd e' <= snd e).
Proof.
  intros Hnd Hmax n sorted rk removed kept.
  assert (Hperm : Permutation (map (aged now) st) sorted)
    by apply sort_by_perm.
  assert (Hlen : List.length sorted = List.length st).
  { rewrite <- (Permutation_length Hperm). apply length_map. }
  assert (Hn : (n <= List.length sorted)%nat) by (subst n; lia).
  assert (Hmacs : Permutation (store_keys st) (map mac sorted)).
  { replace (store_keys st) with (map mac (map (aged now) st)).
    - now apply Permutation_map.
    - unfold store_keys. rewrite map_map. reflexivity. }
  assert (Hnd_s : NoDup (map mac sorted))
    by (eapply Permutation_NoDup; eassumption).
  split; [|split; [apply filter_split|split]].
  - unfold cleanup_store. unfold store_keys at 1. rewrite length_map.
    destruct (Z.leb_spec (Z.of_nat (List.length st)) max) as [Hle|_]; [lia|].
    rewrite (oldest_is_aged now st Hnd).
    unfold store_keys. rewrite length_map.
    exact (delete_oldest_filter n sorted st Hn).
  - assert (Hrk : NoDup rk).
    { subst rk. rewrite <- firstn_map.
      rewrite <- (firstn_skipn n (map mac sorted)) in Hnd_s.
      now apply NoDup_app_remove_r in Hnd_s. }
    assert (P : Permutation (store_keys removed) rk).
    { apply NoDup_Permutation; [now apply NoDup_keys_filter | exact Hrk |].
      intros k. unfold store_keys. rewrite in_map_iff. split.
      - intros [e [<- He]]. apply filter_In in He as [_ He].
        now apply mem_str_In.
      - intros Hk.
        assert (Hk' : In k (store_keys st)).
        { eapply Permutation_in; [apply Permutation_sym, Hmacs|].
          subst rk. rewrite <- firstn_map in Hk.
          rewrite <- (firstn_skipn n (map mac sorted)).
          apply in_or_app. now left. }
        unfold store_keys in Hk'. apply in_map_iff in Hk' as [e [<- He]].
        exists e. split; [reflexivity|].
        apply filter_In. split; [assumption | now apply mem_str_In]. }
    apply Permutation_length in P. unfold store_keys in P.
    rewrite length_map in P. rewrite P. subst rk.
    rewrite length_map, firstn_length_le; [reflexivity | exact Hn].
  - intros e e' He He'.
    apply filter_In in He as [He Hk]. apply filter_In in He' as [He' Hk'].
    apply negb_true_iff in Hk.
    assert (Hin : forall x, In x st -> In (aged now x) sorted).
    { intros x Hx. eapply Permutation_in; [exact Hperm|]. now apply in_map. }
    assert (Hkey : forall x a, In x st -> In a sorted -> mac a = fst x ->
                               a = aged now x).
    { intros x a Hx Ha E.
      eapply Permutation_in in Ha; [|apply Permutation_sym, Hperm].
      apply in_map_iff in Ha as [y [<- Hy]]. cbn in E.
      destruct x as [k v], y as [k' v']. cbn in E. subst k'.
      pose proof (store_get_in st k v Hnd Hx) as G1.
      pose proof (store_get_in st k v' Hnd Hy) as G2.
      congruence. }
    assert (A' : In (aged now e') (firstn n sorted)).
    { apply mem_str_In in Hk'. subst rk.
      apply in_map_iff in Hk' as [a [E Ha]].
      assert (Ha' : In a sorted).
      { rewrite <- (firstn_skipn n sorted). apply in_or_app. now left. }
      now rewrite <- (Hkey e' a He' Ha' E). }
    assert (A : In (aged now e) (skipn n sorted)).
    { pose proof (Hin e He) as H0.
      rewrite <- (firstn_skipn n sorted) in H0.
      apply in_app_or in H0 as [H0|H0]; [|exact H0].
      exfalso. assert (In (fst e) rk) as Hc.
      { subst rk. apply in_map_iff. exists (aged now e). now split. }
      apply mem_str_In in Hc. congruence. }
    pose proof (sort_by_sorted (map (aged now) st)) as Hs.
    fold sorted in Hs. rewrite <- (firstn_skipn n sorted) in Hs.
    pose proof (sorted_split _ _ Hs _ _ A' A) as Hage.
    unfold aged in Hage. cbn in Hage. lia.
Qed.

Lemma set_lastSent_same (w : World) : set_lastSent (lastSent w) w = w.
Proof. destruct w; reflexivity. Qed.

(** C6. The cleanup pass: with at most MAX_LASTSENT_ENTRIES entries it
    changes nothing; with more it removes exactly count - MAX entries, so
    that exactly MAX remain, the remaining and the removed entries together
    are the entries there were, and no remaining entry is older (age =
    now - lastSent) than a removed one. *)
Theorem cleanup_removes_oldest :
  forall cfg w,
    NoDup (store_keys (lastSent w)) ->
    let count := Z.of_nat (List.length (lastSent w)) in
    let maxEntries := MAX_LASTSENT_ENTRIES cfg in
    (count <= maxEntries -> cleanupLastSent cfg w = Some w) /\
    (0 <= maxEntries < count ->
     exists kept removed,
       cleanupLastSent cfg w = Some (set_lastSent kept w) /\
       Permutation (lastSent w) (removed ++ kept) /\
       Z.of_nat (List.length removed) = count - maxEntries /\
       Z.of_nat (List.length kept) = maxEntries /\
       forall e e', In e kept -> In e' removed ->
                    now_sec w - snd e <= now_sec w - snd e').
Proof.
  intros cfg w Hnd count maxEntries. split.
  - intros Hle. unfold cleanupLastSent, cleanup_store.
    unfold store_keys. rewrite length_map.
    fold count. fold maxEntries.
    destruct (Z.leb_spec count maxEntries) as [_|Hgt]; [|lia].
    now rewrite set_lastSent_same.
  - intros Hmax.
    destruct (cleanup_partition maxEntries (now_sec w) (lastSent w) Hnd Hmax)
      as (Hc & Hperm & Hlen & Hage).
    match type of Hc with _ = Some ?k => exists k end.
    match type of Hlen with List.length ?r = _ => exists r end.
    split; [|split; [exact Hperm|split; [|split]]].
    + unfold cleanupLastSent. fold maxEntries. rewrite Hc. reflexivity.
    + rewrite Hlen. subst count. lia.
    + apply Permutation_length in Hperm. rewrite length_app, Hlen in Hperm.
      subst count. lia.
    + intros e e' He He'. pose proof (Hage e e' He He'). lia.
Qed.

Lemma cleanup_removes_oldest_witness :
  exists kept removed,
    cleanupLastSent small_config three_devices
    = Some (set_lastSent kept three_devices) /\
    Permutation (lastSent three_devices) (removed ++ kept) /\
    Z.of_nat (List.length removed) = 3 - 2 /\
    Z.of_nat (List.length kept) = 2 /\
    forall e e', In e kept -> In e' removed ->
                 now_sec three_devices - snd e <= now_sec three_devices - snd e'.
Proof.
  apply (proj2 (cleanup_removes_oldest small_config three_devices
                  ltac:(repeat constructor; cbn; intuition discriminate))).
  cbn. lia.
Defined.

Example cleanup_three_devices :
  option_map lastSent (cleanupLastSent small_config three_devices)
  = Some [ ("AA:BB:CC:DD:EE:02", 1699999990);
           ("AA:BB:CC:DD:EE:03", 1699999970) ].
Proof. vm_compute. reflexivity. Qed.

(** ** What each handler does to the world *)

Lemma count_error_shape (w : World) :
  exists ce bu,
    count_error w = set_backoffUntil bu (set_consecutiveErrors ce w).
Proof.
  unfold count_error, applyBackoff.
  destruct (consecutiveErrors
              (set_consecutiveErrors (consecutiveErrors w + 1) w) <=? 3).
  - exists (consecutiveErrors w + 1), (backoffUntil w). destruct w; reflexivity.
  - eexists; eexists; destruct w; reflexivity.
Qed.

Lemma httpCallback_shape (r : option HttpResponse) (e : Z) (w : World) :
  exists ce bu,
    httpCallback r e w
    = set_backoffUntil bu (set_consecutiveErrors ce (release_slot w)).
Proof.
  unfold httpCallback. cbv zeta.
  destruct (negb (e =? 0)); [apply count_error_shape|].
  destruct r as [resp|]; [|apply count_error_shape].
  destruct (negb (code resp =? 200)); [apply count_error_shape|].
  now exists 0, 0.
Qed.

Lemma resetBusy_shape (w : World) :
  exists ce bu,
    resetBusy w
    = set_backoffUntil bu
        (set_consecutiveErrors ce (set_busyTimer None (set_busy false w))).
Proof. unfold resetBusy. cbv zeta. apply count_error_shape. Qed.

Lemma send_cases (cfg : Config) (m : string) (rssi : Z) (d : string)
  (nonce : Z) (w : World) :
  send cfg m rssi d nonce w = w \/
  (busy w = false /\ backoffUntil w <= now_sec w /\
   send cfg m rssi d nonce w = start_delivery cfg m rssi d nonce w).
Proof.
  unfold send. destruct (busy w); [now left|]. cbv zeta.
  destruct (Z.gtb_spec (backoffUntil w) (now_sec w)); [now left|].
  right. repeat split. lia.
Qed.

(** The three ways [onBle] can end: the event is dropped; the device is
    recorded and [send] declines; the device is recorded and a delivery
    starts. *)
Lemma onBle_cases (cfg : Config) (ev : Z) (res : option ScanResult)
  (nonce : Z) (w : World) :
  onBle cfg ev res nonce w = w \/
  exists r, res = Some r /\
    let m := normalize_addr (str (addr r)) in
    let w1 := set_lastSent (store_set m (now_sec w) (lastSent w)) w in
    onBle cfg ev res nonce w = w1 \/
    (busy w = false /\ backoffUntil w <= now_sec w /\
     onBle cfg ev res nonce w
     = start_delivery cfg m (rssi r) (hex (str (advData r))) nonce w1).
Proof.
  unfold onBle.
  destruct (negb (ev =? SCAN_RESULT cfg)); [now left|].
  destruct res as [r|]; [|now left].
  destruct (negb (truthy (addr r))); [now left|].
  destruct (truthy (advData r)) eqn:Ha; [|now left].
  destruct ((JS.len (hex (str (advData r))) =? 0)
            || negb (hasMfg (hex (str (advData r))) (MFG cfg))); [now left|].
  cbv zeta.
  destruct (_ <? RATE_LIMIT_SEC cfg); [now left|].
  right. exists r. split; [reflexivity|]. cbv zeta.
  match goal with
  | |- send ?c ?m ?r ?d ?n ?w1 = _ \/ _ =>
      destruct (send_cases c m r d n w1) as [E | (Hb & Hbo & E)]
  end.
  - left. exact E.
  - right. repeat split; assumption.
Qed.

Lemma start_delivery_shape (cfg : Config) (m : string) (rssi : Z) (d : string)
  (nonce : Z) (w : World) :
  exists p,
    start_delivery cfg m rssi d nonce w
    = mkWorld (gwMac w) true (lastSent w) m (Some (nextId w))
        (consecutiveErrors w) (backoffUntil w)
        (timers w ++ [mkTimer (nextId w) (clock w + 10000) 10000 false CbResetBusy])
        (calls w ++ [(S (nextId w), HTTP_POST p)])
        (S (S (nextId w))) (clock w) (scanning w) (subscribed w)
        (sends w ++ [(S (nextId w), nextId w)]) (fired w).
Proof. eexists. destruct w. reflexivity. Qed.

Lemma filter_keep_all (st : Store) :
  st = filter (fun e => negb (mem_str (fst e) [])) st.
Proof.
  induction st as [|e st IH]; [reflexivity|]. cbn [filter].
  change (mem_str (fst e) []) with false. cbn [negb]. now rewrite <- IH.
Qed.

Lemma cleanup_store_shape (max now : Z) (st st' : Store) :
  cleanup_store max now st = Some st' ->
  exists rk, st' = filter (fun e => negb (mem_str (fst e) rk)) st.
Proof.
  unfold cleanup_store.
  destruct (_ <=? max).
  - intros E; inversion E; subst. exists []. apply filter_keep_all.
  - generalize (Z.to_nat (Z.of_nat (List.length (store_keys st)) - max)).
    generalize (sort_by (fun a b : Aged => age b - age a)
                  (map (fun k => mkAged k (now - store_read k st))
                     (store_keys st))).
    intros l n. revert l st. induction n as [|n IH]; intros l st H.
    + cbn in H. inversion H; subst. exists []. apply filter_keep_all.
    + destruct l as [|a l]; [discriminate|]. cbn [delete_oldest] in H.
      apply IH in H as [rk ->]. exists (mac a :: rk).
      rewrite store_delete_filter. apply filter_delete_step.
Qed.

Lemma deviceInfoCallback_shape (r : option DeviceInfo) (w : World) :
  exists g, deviceInfoCallback r w = set_gwMac g w.
Proof.
  unfold deviceInfoCallback.
  destruct r as [info|]; [|exists (gwMac w); destruct w; reflexivity].
  destruct (info_mac info) as [m|]; [|exists (gwMac w); destruct w; reflexivity].
  destruct (truthy (Some m)); [eexists; reflexivity|].
  exists (gwMac w); destruct w; reflexivity.
Qed.

(** A dispatch that succeeds, taken apart. *)
Lemma step_inv (cfg : Config) (w : World) (t : Z) (e : Event) (w' : World) :
  step cfg w t e = Some w' ->
  clock w <= t /\
  let w0 := set_clock t w in
  match e with
  | Advertisement ev res nonce => w' = onBle cfg ev res nonce w0
  | TimerFired id =>
      exists tm, find_timer id w0 = Some tm /\ t_due tm <= t /\
                 match t_cb tm with
                 | CbResetBusy => w' = resetBusy (fire tm w0)
                 | CbCleanupLastSent => cleanupLastSent cfg (fire tm w0) = Some w'
                 end
  | HttpDone id r e =>
      exists p, find_call id w0 = Some (HTTP_POST p) /\
                w' = httpCallback r e (remove_call id w0)
  | DeviceInfoDone id r =>
      find_call id w0 = Some Shelly_GetDeviceInfo /\
      w' = deviceInfoCallback r (remove_call id w0)
  end.
Proof.
  unfold step. destruct (Z.ltb_spec t (clock w)) as [Hlt|Hge]; [discriminate|].
  intros H. split; [assumption|]. cbv zeta.
  destruct e as [ev res nonce | id | id r e | id r].
  - destruct (subscribed (set_clock t w)); [congruence | discriminate].
  - destruct (find_timer id (set_clock t w)) as [tm|]; [|discriminate].
    destruct (Z.ltb_spec t (t_due tm)); [discriminate|].
    exists tm. split; [reflexivity|]. split; [assumption|].
    destruct (t_cb tm); [congruence | assumption].
  - destruct (find_call id (set_clock t w)) as [[p|]|]; try discriminate.
    exists p. split; [reflexivity | congruence].
  - destruct (find_call id (set_clock t w)) as [[p|]|]; try discriminate.
    split; [reflexivity | congruence].
Qed.

(** ** Well-formedness is preserved *)

Lemma wf_ext (w w' : World) :
  timers w' = timers w -> calls w' = calls w -> nextId w' = nextId w ->
  sends w' = sends w -> fired w' = fired w -> lastSent w' = lastSent w ->
  subscribed w' = subscribed w -> busyTimer w' = busyTimer w ->
  busy w' = busy w ->
  wf w -> wf w'.
Proof.
  intros Et Ec En Es Ef El Eu Eb Ey [H1 H2 H3 H4 H5 H6 H7 H8 H9 H10 H11].
  constructor; unfold watchdogs;
    rewrite ?Et, ?Ec, ?En, ?Es, ?Ef, ?El, ?Eu, ?Eb, ?Ey; assumption.
Qed.

Lemma NoDup_snoc {A : Type} (l : list A) (x : A) :
  NoDup l -> ~ In x l -> NoDup (l ++ [x]).
Proof.
  intros Hnd Hni. induction Hnd as [|y l Hy Hnd IH]; cbn.
  - constructor; [intros [] | constructor].
  - constructor.
    + intros Hin. apply in_app_or in Hin as [Hin | [E | []]].
      * contradiction.
      * subst. apply Hni. now left.
    + apply IH. intros Hin. apply Hni. now right.
Qed.

Lemma NoDup_map_filter {A B : Type} (f : A -> B) (g : A -> bool) (l : list A) :
  NoDup (map f l) -> NoDup (map f (filter g l)).
Proof.
  induction l as [|x l IH]; cbn; intros Hnd; [constructor|].
  inversion Hnd as [|? ? Hni Hnd']; subst.
  destruct (g x); cbn; [|now apply IH].
  constructor; [|now apply IH].
  intros Hin. apply Hni. apply in_map_iff in Hin as [y [E Hy]].
  apply filter_In in Hy as [Hy _]. rewrite <- E. now apply in_map.
Qed.

Lemma NoDup_map_inj {A B : Type} (f : A -> B) (l : list A) (a b : A) :
  NoDup (map f l) -> In a l -> In b l -> f a = f b -> a = b.
Proof.
  induction l as [|x l IH]; cbn; intros Hnd Ha Hb E; [destruct Ha|].
  inversion Hnd as [|? ? Hni Hnd']; subst.
  destruct Ha as [-> | Ha], Hb as [-> | Hb].
  - reflexivity.
  - exfalso. apply Hni. rewrite E. now apply in_map.
  - exfalso. apply Hni. rewrite <- E. now apply in_map.
  - now apply IH.
Qed.

Lemma store_set_keys (k : string) (v : Z) (st : Store) :
  store_keys (store_set k v st)
  = if mem_str k (store_keys st) then store_keys st
    else (store_keys st ++ [k])%list.
Proof.
  unfold store_keys, mem_str.
  induction st as [|[k' v'] st IH]; cbn; [reflexivity|].
  destruct (String.eqb_spec k k') as [->|ne]; cbn; [reflexivity|].
  rewrite IH. now destruct (existsb (String.eqb k) (map fst st)).
Qed.

Lemma store_set_nodup (k : string) (v : Z) (st : Store) :
  NoDup (store_keys st) -> NoDup (store_keys (store_set k v st)).
Proof.
  intros Hnd. rewrite store_set_keys.
  destruct (mem_str k (store_keys st)) eqn:E; [assumption|].
  apply NoDup_snoc; [assumption|].
  intros Hin. apply mem_str_In in Hin. congruence.
Qed.

Lemma wf_set_lastSent (st : Store) (w : World) :
  NoDup (store_keys st) -> wf w -> wf (set_lastSent st w).
Proof.
  intros Hnd [H1 H2 H3 H4 H5 H6 H7 H8 H9 H10 H11].
  constructor; try assumption.
Qed.

Lemma watchdogs_app (w : World) (l : list TimerEntry) :
  watchdogs (set_timers (timers w ++ l) w)
  = (watchdogs w ++ map t_id (filter is_watchdog l))%list.
Proof. unfold watchdogs. cbn. now rewrite filter_app, map_app. Qed.

Lemma watchdogs_filter (ts : list TimerEntry) (id : nat) :
  map t_id (filter is_watchdog
              (filter (fun t => negb (Nat.eqb (t_id t) id)) ts))
  = filter (fun i => negb (Nat.eqb i id)) (map t_id (filter is_watchdog ts)).
Proof.
  induction ts as [|t ts IH]; cbn; [reflexivity|].
  destruct (Nat.eqb (t_id t) id) eqn:E, (is_watchdog t) eqn:W;
    cbn; rewrite ?W, ?E; cbn; now rewrite IH.
Qed.

Lemma find_timer_In (id : nat) (w : World) (tm : TimerEntry) :
  find_timer id w = Some tm -> In tm (timers w) /\ t_id tm = id.
Proof.
  unfold find_timer. intros H. apply find_some in H as [Hin E].
  split; [assumption | now apply Nat.eqb_eq].
Qed.

Lemma find_call_In (id : nat) (w : World) (c : RpcCall) :
  find_call id w = Some c -> In (id, c) (calls w).
Proof.
  unfold find_call.
  destruct (find (fun c0 => Nat.eqb (fst c0) id) (calls w)) as [[i c0]|] eqn:E;
    [|discriminate].
  intros H. inversion H; subst. apply find_some in E as [Hin E].
  cbn in E. apply Nat.eqb_eq in E. now subst.
Qed.

Lemma wf_start_delivery (cfg : Config) (m : string) (rssi : Z) (d : string)
  (nonce : Z) (w : World) :
  wf w -> busy w = false -> wf (start_delivery cfg m rssi d nonce w).
Proof.
  intros [H1 H2 H3 H4 H5 H6 H7 H8 H9 H10 H11] Hb.
  assert (Hbt : busyTimer w = None).
  { rewrite H11 in Hb. destruct (busyTimer w); [discriminate | reflexivity]. }
  rewrite Hbt in H10.
  destruct (start_delivery_shape cfg m rssi d nonce w) as [p ->].
  constructor; cbn.
  - intros t Ht. apply in_app_or in Ht as [Ht | [<- | []]].
    + specialize (H1 t Ht). lia.
    + cbn. lia.
  - intros c Hc. apply in_app_or in Hc as [Hc | [<- | []]].
    + specialize (H2 c Hc). lia.
    + cbn. lia.
  - intros s Hs. apply in_app_or in Hs as [Hs | [<- | []]].
    + specialize (H3 s Hs). lia.
    + cbn. lia.
  - intros t Ht. specialize (H4 t Ht). lia.
  - rewrite map_app. cbn. apply NoDup_snoc; [assumption|].
    intros Hin. apply in_map_iff in Hin as [t [E Ht]].
    specialize (H1 t Ht). lia.
  - rewrite map_app. cbn. apply NoDup_snoc; [assumption|].
    intros Hin. apply in_map_iff in Hin as [c [E Hc]].
    specialize (H2 c Hc). lia.
  - assumption.
  - assumption.
  - intros t Ht W. apply in_app_or in Ht as [Ht | [<- | []]].
    + now apply H9.
    + reflexivity.
  - unfold watchdogs in *. cbn. rewrite filter_app, map_app, H10.
    reflexivity.
  - reflexivity.
Qed.

Lemma wf_release_slot (w : World) : wf w -> wf (release_slot w).
Proof.
  intros [H1 H2 H3 H4 H5 H6 H7 H8 H9 H10 H11].
  unfold release_slot. cbv zeta.
  change (busyTimer (set_busy false w)) with (busyTimer w).
  destruct (busyTimer w) as [t|] eqn:E.
  - constructor; cbn; try assumption.
    + intros t' Ht'. apply filter_In in Ht' as [Ht' _]. now apply H1.
    + now apply NoDup_map_filter.
    + intros t' Ht' W. apply filter_In in Ht' as [Ht' _]. now apply H9.
    + unfold watchdogs in *. cbn. rewrite watchdogs_filter, H10. cbn.
      now rewrite Nat.eqb_refl.
    + reflexivity.
  - constructor; cbn; try assumption.
    + unfold watchdogs in *. cbn. now rewrite E.
    + now rewrite E.
Qed.

Lemma wf_backoff (ce bu : Z) (w : World) :
  wf w -> wf (set_backoffUntil bu (set_consecutiveErrors ce w)).
Proof. apply wf_ext; reflexivity. Qed.

Lemma wf_remove_call (id : nat) (w : World) : wf w -> wf (remove_call id w).
Proof.
  intros [H1 H2 H3 H4 H5 H6 H7 H8 H9 H10 H11].
  constructor; cbn; try assumption.
  - intros c Hc. apply filter_In in Hc as [Hc _]. now apply H2.
  - now apply NoDup_map_filter.
Qed.

Lemma wf_set_clock (t : Z) (w : World) : wf w -> wf (set_clock t w).
Proof. apply wf_ext; reflexivity. Qed.

Lemma wf_httpCallback (r : option HttpResponse) (e : Z) (w : World) :
  wf w -> wf (httpCallback r e w).
Proof.
  intros H. destruct (httpCallback_shape r e w) as (ce & bu & ->).
  now apply wf_backoff, wf_release_slot.
Qed.

Lemma wf_onBle (cfg : Config) (ev : Z) (res : option ScanResult) (nonce : Z)
  (w : World) :
  wf w -> wf (onBle cfg ev res nonce w).
Proof.
  intros H.
  destruct (onBle_cases cfg ev res nonce w) as [-> | (r & _ & [E | (Hb & _ & E)])];
    [assumption | |]; rewrite E.
  - apply wf_set_lastSent; [apply store_set_nodup, H | exact H].
  - apply wf_start_delivery; [|exact Hb].
    apply wf_set_lastSent; [apply store_set_nodup, H | exact H].
Qed.

Lemma fire_timers (tm : TimerEntry) (w : World) :
  timers (fire tm w)
  = (filter (fun t => negb (Nat.eqb (t_id t) (t_id tm))) (timers w)
     ++ if t_repeat tm
        then [mkTimer (t_id tm) (clock w + t_period tm) (t_period tm) true
                      (t_cb tm)]
        else [])%list.
Proof.
  unfold fire. cbv zeta. destruct (t_repeat tm); cbn; [reflexivity|].
  now rewrite app_nil_r.
Qed.

Lemma fire_frame (tm : TimerEntry) (w : World) :
  fired (fire tm w) = t_id tm :: fired w /\
  calls (fire tm w) = calls w /\ nextId (fire tm w) = nextId w /\
  sends (fire tm w) = sends w /\ lastSent (fire tm w) = lastSent w /\
  subscribed (fire tm w) = subscribed w /\ busyTimer (fire tm w) = busyTimer w /\
  busy (fire tm w) = busy w /\ clock (fire tm w) = clock w /\
  consecutiveErrors (fire tm w) = consecutiveErrors w /\
  backoffUntil (fire tm w) = backoffUntil w.
Proof. unfold fire. cbv zeta. destruct (t_repeat tm); repeat split. Qed.

Lemma wf_fire_common (tm : TimerEntry) (w : World) :
  wf w -> In tm (timers w) ->
  (forall t, In t (timers (fire tm w)) -> (t_id t < nextId (fire tm w))%nat) /\
  (forall t, In t (fired (fire tm w)) -> (t < nextId (fire tm w))%nat) /\
  NoDup (map t_id (timers (fire tm w))).
Proof.
  intros [H1 H2 H3 H4 H5 H6 H7 H8 H9 H10 H11] Hin.
  destruct (fire_frame tm w) as (Ef & _ & En & _).
  rewrite fire_timers, Ef, En. split; [|split].
  - intros t Ht. apply in_app_or in Ht as [Ht | Ht].
    + apply filter_In in Ht as [Ht _]. now apply H1.
    + destruct (t_repeat tm); [|destruct Ht].
      destruct Ht as [<- | []]. cbn. now apply H1.
  - intros t [<- | Ht]; [now apply H1 | now apply H4].
  - rewrite map_app.
    assert (Hf : NoDup (map t_id
              (filter (fun t => negb (Nat.eqb (t_id t) (t_id tm))) (timers w))))
      by now apply NoDup_map_filter.
    destruct (t_repeat tm); cbn; [|now rewrite app_nil_r].
    apply NoDup_snoc; [assumption|].
    intros Hc. apply in_map_iff in Hc as [t [E Ht]].
    apply filter_In in Ht as [_ Ht]. rewrite E, Nat.eqb_refl in Ht.
    discriminate.
Qed.

Lemma wf_fire_resetBusy (tm : TimerEntry) (w : World) :
  wf w -> In tm (timers w) -> t_cb tm = CbResetBusy ->
  wf (resetBusy (fire tm w)) /\ busyTimer w = Some (t_id tm).
Proof.
  intros Hwf Hin Hcb.
  destruct (wf_fire_common tm w Hwf Hin) as (F1 & F4 & F5).
  destruct (fire_frame tm w) as (Ef & Ec & En & Es & El & Eu & Eb & Ey & _).
  pose proof Hwf as [H1 H2 H3 H4 H5 H6 H7 H8 H9 H10 H11].
  assert (W : is_watchdog tm = true) by (unfold is_watchdog; now rewrite Hcb).
  assert (Hr : t_repeat tm = false) by now apply H9.
  assert (Hw : In (t_id tm) (watchdogs w)).
  { unfold watchdogs. apply in_map. apply filter_In. now split. }
  assert (Hbt : busyTimer w = Some (t_id tm)).
  { rewrite H10 in Hw. destruct (busyTimer w) as [t0|]; [|destruct Hw].
    destruct Hw as [-> | []]. reflexivity. }
  split; [|exact Hbt].
  destruct (resetBusy_shape (fire tm w)) as (ce & bu & ->).
  apply wf_backoff.
  constructor; unfold watchdogs;
    cbn [set_busyTimer set_busy timers calls nextId sends fired lastSent
         subscribed busyTimer busy];
    rewrite ?Ec, ?En, ?Es, ?El, ?Eu; try assumption.
  - rewrite <- En. exact F1.
  - rewrite <- En. exact F4.
  - intros t Ht. rewrite fire_timers, Hr, app_nil_r in Ht.
    apply filter_In in Ht as [Ht _]. now apply H9.
  - rewrite fire_timers, Hr, app_nil_r.
    unfold watchdogs in H10.
    rewrite watchdogs_filter, H10, Hbt. cbn. now rewrite Nat.eqb_refl.
  - reflexivity.
Qed.

Lemma watchdogs_filter_other (ts : list TimerEntry) (id : nat) :
  (forall t, In t ts -> is_watchdog t = true -> t_id t <> id) ->
  filter is_watchdog (filter (fun t => negb (Nat.eqb (t_id t) id)) ts)
  = filter is_watchdog ts.
Proof.
  induction ts as [|a ts IH]; intros H; cbn; [reflexivity|].
  assert (H' : forall t, In t ts -> is_watchdog t = true -> t_id t <> id)
    by (intros t Ht; apply H; now right).
  destruct (Nat.eqb_spec (t_id a) id) as [E|ne]; cbn.
  - destruct (is_watchdog a) eqn:Wa; [|now apply IH].
    exfalso. apply (H a); [now left | assumption | assumption].
  - destruct (is_watchdog a); now rewrite IH.
Qed.

Lemma wf_fire_cleanup (tm : TimerEntry) (w : World) :
  wf w -> In tm (timers w) -> t_cb tm = CbCleanupLastSent ->
  wf (fire tm w) /\ watchdogs (fire tm w) = watchdogs w.
Proof.
  intros Hwf Hin Hcb.
  destruct (wf_fire_common tm w Hwf Hin) as (F1 & F4 & F5).
  destruct (fire_frame tm w) as (Ef & Ec & En & Es & El & Eu & Eb & Ey & _).
  pose proof Hwf as [H1 H2 H3 H4 H5 H6 H7 H8 H9 H10 H11].
  assert (W : is_watchdog tm = false) by (unfold is_watchdog; now rewrite Hcb).
  assert (Hw : watchdogs (fire tm w) = watchdogs w).
  { unfold watchdogs. rewrite fire_timers, filter_app, map_app.
    assert (E2 : filter is_watchdog
                   (if t_repeat tm
                    then [mkTimer (t_id tm) (clock w + t_period tm)
                                  (t_period tm) true (t_cb tm)]
                    else []) = []).
    { destruct (t_repeat tm); [|reflexivity]. cbn.
      unfold is_watchdog. cbn. now rewrite Hcb. }
    rewrite E2. cbn. rewrite app_nil_r.
    f_equal. apply watchdogs_filter_other.
    intros t Ht Wt E.
    pose proof (NoDup_map_inj t_id (timers w) t tm H5 Ht Hin E). subst.
    congruence. }
  split; [|exact Hw].
  constructor; try assumption;
    try (rewrite ?Ec, ?En, ?Es, ?El, ?Eu, ?Hw, ?Eb, ?Ey; assumption).
  intros t Ht Wt. rewrite fire_timers in Ht.
  apply in_app_or in Ht as [Ht | Ht].
  - apply filter_In in Ht as [Ht _]. now apply H9.
  - destruct (t_repeat tm); [|destruct Ht].
    destruct Ht as [<- | []]. unfold is_watchdog in Wt. cbn in Wt.
    rewrite Hcb in Wt. discriminate.
Qed.

Lemma wf_cleanupLastSent (cfg : Config) (w w' : World) :
  wf w -> cleanupLastSent cfg w = Some w' -> wf w'.
Proof.
  intros Hwf. unfold cleanupLastSent.
  destruct (cleanup_store (MAX_LASTSENT_ENTRIES cfg) (now_sec w) (lastSent w))
    as [st|] eqn:E; [|discriminate].
  intros H; inversion H; subst.
  apply cleanup_store_shape in E as [rk ->].
  apply wf_set_lastSent; [|exact Hwf].
  apply NoDup_keys_filter, Hwf.
Qed.

Lemma wf_deviceInfoCallback (r : option DeviceInfo) (w : World) :
  wf w -> wf (deviceInfoCallback r w).
Proof.
  destruct (deviceInfoCallback_shape r w) as [g ->].
  apply wf_ext; reflexivity.
Qed.

(** Every dispatch keeps the world well-formed. *)
Lemma wf_step (cfg : Config) (w : World) (t : Z) (e : Event) (w' : World) :
  wf w -> step cfg w t e = Some w' -> wf w'.
Proof.
  intros Hwf Hs. apply step_inv in Hs as [_ Hs]. cbv zeta in Hs.
  pose proof (wf_set_clock t w Hwf) as H0.
  destruct e as [ev res nonce | id | id r e | id r].
  - subst. now apply wf_onBle.
  - destruct Hs as (tm & Hf & _ & Hs).
    apply find_timer_In in Hf as [Hin _].
    destruct (t_cb tm) eqn:Hcb.
    + subst. now apply wf_fire_resetBusy.
    + eapply wf_cleanupLastSent; [|exact Hs]. now apply wf_fire_cleanup.
  - destruct Hs as (p & _ & ->). now apply wf_httpCallback, wf_remove_call.
  - destruct Hs as (_ & ->). now apply wf_deviceInfoCallback, wf_remove_call.
Qed.

Lemma wf_started (cfg : Config) (t0 : Z) : wf (started cfg t0).
Proof.
  constructor; cbn.
  - intros t [<- | []]. cbn. lia.
  - intros c [<- | []]. cbn. lia.
  - intros s [].
  - intros t [].
  - repeat constructor. intros [].
  - repeat constructor. intros [].
  - constructor.
  - reflexivity.
  - intros t [<- | []]. discriminate.
  - reflexivity.
  - reflexivity.
Qed.

Lemma wf_run (cfg : Config) (tr : list (Z * Event)) (w w' : World) :
  wf w -> run cfg w tr = Some w' -> wf w'.
Proof.
  revert w; induction tr as [|[t e] tr IH]; intros w Hwf H; cbn in H.
  - now inversion H; subst.
  - destruct (step cfg w t e) as [w1|] eqn:Hs; [|discriminate].
    apply (IH w1); [|exact H]. eapply wf_step; eassumption.
Qed.

(** Reachable worlds are well-formed; in particular the keys of
    [lastSent] are unique and at most one watchdog is armed. *)
Lemma reachable_wf (cfg : Config) (t0 : Z) (w : World) :
  reachable cfg t0 w -> wf w.
Proof. intros [tr H]. eapply wf_run; [apply wf_started | exact H]. Qed.

(** ** Deliveries in flight *)

Lemma filter_andb {A : Type} (f g : A -> bool) (l : list A) :
  filter (fun x => f x && g x) l = filter g (filter f l).
Proof.
  induction l as [|x l IH]; cbn; [reflexivity|].
  destruct (f x); cbn; [destruct (g x)|]; now rewrite IH.
Qed.

Lemma in_flight_change (w w' : World) (g : nat * nat -> bool) :
  sends w' = sends w ->
  (forall s, In s (sends w) -> unresolved w' s = unresolved w s && g s) ->
  in_flight w' = filter g (in_flight w).
Proof.
  intros Es H. unfold in_flight. rewrite Es, <- filter_andb.
  now apply filter_ext_in.
Qed.

Lemma in_flight_same (w w' : World) :
  sends w' = sends w -> calls w' = calls w -> fired w' = fired w ->
  in_flight w' = in_flight w.
Proof.
  intros Es Ec Ef. unfold in_flight, unresolved, call_pending.
  now rewrite Es, Ec, Ef.
Qed.

Lemma single_flight_ext (w w' : World) :
  sends w' = sends w -> calls w' = calls w -> fired w' = fired w ->
  busyTimer w' = busyTimer w ->
  single_flight w -> single_flight w'.
Proof.
  intros Es Ec Ef Eb [S1 S2 S3].
  constructor; rewrite ?Eb, ?Ec, ?Es, ?(in_flight_same w w' Es Ec Ef);
    assumption.
Qed.

Lemma call_pending_remove (x id : nat) (w : World) :
  call_pending x (remove_call id w)
  = call_pending x w && negb (Nat.eqb x id).
Proof.
  unfold call_pending, remove_call. cbn [calls set_calls].
  induction (calls w) as [|c cs IH]; [reflexivity|]. cbn [filter existsb].
  destruct (Nat.eqb_spec (fst c) id) as [E|ne]; cbn [negb existsb].
  - rewrite IH. destruct (Nat.eqb_spec (fst c) x) as [E'|ne'].
    + destruct (Nat.eqb_spec x id); [|congruence].
      cbn. now rewrite andb_false_r.
    + reflexivity.
  - rewrite IH. destruct (Nat.eqb_spec (fst c) x) as [E'|ne'].
    + cbn. destruct (Nat.eqb_spec x id); [congruence | reflexivity].
    + reflexivity.
Qed.

Lemma in_flight_sub (w : World) (s : nat * nat) :
  In s (in_flight w) -> In s (sends w) /\ unresolved w s = true.
Proof. unfold in_flight. apply filter_In. Qed.

Lemma call_pending_In (id : nat) (c : RpcCall) (w : World) :
  In (id, c) (calls w) -> call_pending id w = true.
Proof.
  intros H. unfold call_pending. apply existsb_exists.
  exists (id, c). split; [assumption | apply Nat.eqb_refl].
Qed.

Lemma mem_nat_In (n : nat) (l : list nat) : mem_nat n l = true <-> In n l.
Proof.
  unfold mem_nat. rewrite existsb_exists. split.
  - intros [x [Hx E]]. apply Nat.eqb_eq in E. now subst.
  - intros H. exists n. split; [assumption | apply Nat.eqb_refl].
Qed.

Lemma single_flight_start (cfg : Config) (m : string) (rssi : Z) (d : string)
  (nonce : Z) (w : World) :
  wf w -> single_flight w -> busy w = false ->
  single_flight (start_delivery cfg m rssi d nonce w).
Proof.
  intros Hwf [S1 S2 S3] Hb.
  pose proof Hwf as [H1 H2 H3 H4 H5 H6 H7 H8 H9 H10 H11].
  assert (Hbt : busyTimer w = None).
  { rewrite H11 in Hb. destruct (busyTimer w); [discriminate | reflexivity]. }
  rewrite Hbt in S1.
  destruct (start_delivery_shape cfg m rssi d nonce w) as [p ->].
  constructor; cbn.
  - exists (S (nextId w)). unfold in_flight. cbn [sends]. rewrite filter_app.
    rewrite (filter_ext_in _ (unresolved w)).
    + fold (in_flight w). rewrite S1. cbn [app filter].
      unfold unresolved, call_pending. cbn [calls fired fst snd].
      rewrite existsb_app. cbn [existsb fst].
      rewrite Nat.eqb_refl, orb_true_r. cbn [orb andb].
      assert (E : mem_nat (nextId w) (fired w) = false).
      { destruct (mem_nat (nextId w) (fired w)) eqn:E; [|reflexivity].
        apply mem_nat_In in E. specialize (H4 _ E). lia. }
      now rewrite E.
    + intros s Hs. unfold unresolved, call_pending. cbn [calls fired fst snd].
      rewrite existsb_app. cbn [existsb fst]. rewrite orb_false_r.
      destruct (Nat.eqb_spec (S (nextId w)) (fst s)) as [E|ne].
      * specialize (H3 s Hs). lia.
      * now rewrite orb_false_r.
  - intros c q Hc. apply in_app_or in Hc as [Hc | [E | []]].
    + destruct (S2 c q Hc) as [t Ht]. exists t. apply in_or_app. now left.
    + inversion E; subst. exists (nextId w). apply in_or_app. right. now left.
  - intros c t Hs Hc.
    apply in_app_or in Hc as [Hc | [E | []]]; [|discriminate].
    apply in_app_or in Hs as [Hs | [E | []]].
    + exact (S3 c t Hs Hc).
    + inversion E; subst. specialize (H2 _ Hc). cbn in H2. lia.
Qed.

Lemma single_flight_onBle (cfg : Config) (ev : Z) (res : option ScanResult)
  (nonce : Z) (w : World) :
  wf w -> single_flight w -> single_flight (onBle cfg ev res nonce w).
Proof.
  intros Hwf Hsf.
  destruct (onBle_cases cfg ev res nonce w) as [-> | (r & _ & [E | (Hb & _ & E)])];
    [assumption | |]; rewrite E.
  - revert Hsf. apply single_flight_ext; reflexivity.
  - apply single_flight_start; [| |exact Hb].
    + apply wf_set_lastSent; [apply store_set_nodup, Hwf | exact Hwf].
    + revert Hsf. apply single_flight_ext; reflexivity.
Qed.

Lemma resetBusy_frame (w : World) :
  sends (resetBusy w) = sends w /\ calls (resetBusy w) = calls w /\
  fired (resetBusy w) = fired w /\ timers (resetBusy w) = timers w /\
  lastSent (resetBusy w) = lastSent w /\ nextId (resetBusy w) = nextId w /\
  clock (resetBusy w) = clock w /\
  busyTimer (resetBusy w) = None /\ busy (resetBusy w) = false.
Proof.
  destruct (resetBusy_shape w) as (ce & bu & ->). repeat split.
Qed.

Lemma release_slot_frame (w : World) :
  sends (release_slot w) = sends w /\ calls (release_slot w) = calls w /\
  fired (release_slot w) = fired w /\
  lastSent (release_slot w) = lastSent w /\
  nextId (release_slot w) = nextId w /\ clock (release_slot w) = clock w /\
  busyTimer (release_slot w) = None /\ busy (release_slot w) = false.
Proof.
  unfold release_slot. cbv zeta.
  change (busyTimer (set_busy false w)) with (busyTimer w).
  destruct (busyTimer w) eqn:E; repeat split. exact E.
Qed.

Lemma httpCallback_frame (r : option HttpResponse) (e : Z) (w : World) :
  sends (httpCallback r e w) = sends w /\
  calls (httpCallback r e w) = calls w /\
  fired (httpCallback r e w) = fired w /\
  lastSent (httpCallback r e w) = lastSent w /\
  nextId (httpCallback r e w) = nextId w /\
  clock (httpCallback r e w) = clock w /\
  busyTimer (httpCallback r e w) = None /\ busy (httpCallback r e w) = false.
Proof.
  destruct (httpCallback_shape r e w) as (ce & bu & ->).
  cbn [sends calls fired lastSent nextId clock busyTimer busy
       set_backoffUntil set_consecutiveErrors].
  apply release_slot_frame.
Qed.

Lemma in_flight_fired (w w' : World) (id : nat) :
  sends w' = sends w -> calls w' = calls w -> fired w' = id :: fired w ->
  in_flight w' = filter (fun s => negb (Nat.eqb (snd s) id)) (in_flight w).
Proof.
  intros Es Ec Ef. apply in_flight_change; [exact Es|].
  intros s _. unfold unresolved, call_pending. rewrite Ec, Ef.
  unfold mem_nat. cbn [existsb]. rewrite negb_orb.
  now rewrite (andb_comm (negb (Nat.eqb (snd s) id))), andb_assoc.
Qed.

Lemma in_flight_removed (w w' : World) (id : nat) :
  sends w' = sends w -> calls w' = calls (remove_call id w) ->
  fired w' = fired w ->
  in_flight w' = filter (fun s => negb (Nat.eqb (fst s) id)) (in_flight w).
Proof.
  intros Es Ec Ef. apply in_flight_change; [exact Es|].
  intros s _. unfold unresolved. rewrite Ef.
  replace (call_pending (fst s) w') with (call_pending (fst s) (remove_call id w))
    by (unfold call_pending; now rewrite Ec).
  rewrite call_pending_remove.
  rewrite <- !andb_assoc. f_equal. apply andb_comm.
Qed.

Lemma single_flight_watchdog (tm : TimerEntry) (w : World) :
  wf w -> single_flight w -> In tm (timers w) -> t_cb tm = CbResetBusy ->
  single_flight (resetBusy (fire tm w)).
Proof.
  intros Hwf [S1 S2 S3] Hin Hcb.
  destruct (wf_fire_resetBusy tm w Hwf Hin Hcb) as [_ Hbt].
  destruct (resetBusy_frame (fire tm w)) as (Es & Ec & Ef & _ & _ & _ & _ & Eb & _).
  destruct (fire_frame tm w) as (Ff & Fc & _ & Fs & _).
  rewrite Fs in Es. rewrite Fc in Ec. rewrite Ff in Ef.
  constructor; rewrite ?Eb, ?Es, ?Ec; try assumption.
  rewrite (in_flight_fired w _ (t_id tm) Es Ec Ef).
  rewrite Hbt in S1. destruct S1 as [c ->]. cbn. now rewrite Nat.eqb_refl.
Qed.

Lemma single_flight_cleanup (cfg : Config) (tm : TimerEntry) (w w' : World) :
  wf w -> single_flight w -> In tm (timers w) -> t_cb tm = CbCleanupLastSent ->
  cleanupLastSent cfg (fire tm w) = Some w' ->
  single_flight w'.
Proof.
  intros Hwf [S1 S2 S3] Hin Hcb Hc.
  unfold cleanupLastSent in Hc.
  destruct (cleanup_store _ _ _) as [st|]; [|discriminate].
  inversion Hc; subst; clear Hc.
  destruct (fire_frame tm w) as (Ff & Fc & _ & Fs & _ & _ & Fb & _).
  pose proof Hwf as [H1 H2 H3 H4 H5 H6 H7 H8 H9 H10 H11].
  constructor;
    cbn [sends calls fired busyTimer set_lastSent]; rewrite ?Fb, ?Fs, ?Fc;
    try assumption.
  rewrite (in_flight_fired w (set_lastSent st (fire tm w)) (t_id tm) Fs Fc Ff).
  destruct (busyTimer w) as [t|] eqn:Hbt.
  - destruct S1 as [c E]. exists c. rewrite E. cbn.
    destruct (Nat.eqb_spec t (t_id tm)) as [Et|ne]; [|reflexivity].
    exfalso.
    assert (Hw : In t (watchdogs w)) by (rewrite H10; now left).
    unfold watchdogs in Hw. apply in_map_iff in Hw as [tw [Eid Htw]].
    apply filter_In in Htw as [Htw W].
    assert (tw = tm).
    { apply (NoDup_map_inj t_id (timers w)); try assumption. congruence. }
    subst tw. unfold is_watchdog in W. rewrite Hcb in W. discriminate.
  - rewrite S1. reflexivity.
Qed.

Lemma single_flight_completion (id : nat) (r : option HttpResponse) (e : Z)
  (p : HttpPostParams) (w : World) :
  wf w -> single_flight w ->
  late w (HttpDone id r e) = false ->
  find_call id w = Some (HTTP_POST p) ->
  single_flight (httpCallback r e (remove_call id w)).
Proof.
  intros Hwf [S1 S2 S3] Hlate Hf.
  apply find_call_In in Hf.
  destruct (httpCallback_frame r e (remove_call id w))
    as (Es & Ec & Ef & _ & _ & _ & Eb & _).
  change (sends (remove_call id w)) with (sends w) in Es.
  change (fired (remove_call id w)) with (fired w) in Ef.
  constructor; rewrite ?Eb, ?Es, ?Ec.
  - rewrite (in_flight_removed w _ id Es Ec Ef).
    destruct (S2 id p Hf) as [t Ht].
    assert (Hu : In (id, t) (in_flight w)).
    { unfold in_flight. apply filter_In. split; [assumption|].
      unfold unresolved. cbn [fst snd].
      rewrite (call_pending_In id _ w Hf). cbn [andb].
      destruct (mem_nat t (fired w)) eqn:Hm; [|reflexivity].
      exfalso. cbn in Hlate.
      assert (existsb (fun s => Nat.eqb (fst s) id && mem_nat (snd s) (fired w))
                      (sends w) = true) as Hx.
      { apply existsb_exists. exists (id, t). split; [assumption|].
        cbn. now rewrite Nat.eqb_refl. }
      congruence. }
    destruct (busyTimer w) as [t0|].
    + destruct S1 as [c E]. rewrite E in *. destruct Hu as [Hu | []].
      inversion Hu; subst. cbn. now rewrite Nat.eqb_refl.
    + rewrite S1 in Hu. destruct Hu.
  - intros c q Hc. cbn in Hc. apply filter_In in Hc as [Hc _].
    exact (S2 c q Hc).
  - intros c t Hs Hc. cbn in Hc. apply filter_In in Hc as [Hc _].
    exact (S3 c t Hs Hc).
Qed.

Lemma single_flight_deviceInfo (id : nat) (r : option DeviceInfo) (w : World) :
  wf w -> single_flight w ->
  find_call id w = Some Shelly_GetDeviceInfo ->
  single_flight (deviceInfoCallback r (remove_call id w)).
Proof.
  intros Hwf [S1 S2 S3] Hf.
  apply find_call_In in Hf.
  destruct (deviceInfoCallback_shape r (remove_call id w)) as [g ->].
  constructor; cbn [sends calls fired busyTimer set_gwMac remove_call set_calls].
  - rewrite (in_flight_removed w _ id); try reflexivity.
    destruct (busyTimer w) as [t0|]; [|now rewrite S1].
    destruct S1 as [c E]. exists c. rewrite E. cbn.
    destruct (Nat.eqb_spec c id) as [Ec|ne]; [|reflexivity].
    exfalso. subst c.
    assert (Hs : In (id, t0) (in_flight w)) by (rewrite E; now left).
    apply in_flight_sub in Hs as [Hs _].
    exact (S3 id t0 Hs Hf).
  - intros c q Hc. apply filter_In in Hc as [Hc _]. exact (S2 c q Hc).
  - intros c t Hs Hc. apply filter_In in Hc as [Hc _]. exact (S3 c t Hs Hc).
Qed.

Lemma single_flight_completion_idle (id : nat) (r : option HttpResponse)
  (e : Z) (w : World) :
  wf w -> single_flight w -> busy w = false ->
  single_flight (httpCallback r e (remove_call id w)).
Proof.
  intros Hwf [S1 S2 S3] Hb.
  assert (Hbt : busyTimer w = None).
  { rewrite (wf_busy w Hwf) in Hb.
    destruct (busyTimer w); [discriminate | reflexivity]. }
  rewrite Hbt in S1.
  destruct (httpCallback_frame r e (remove_call id w))
    as (Es & Ec & Ef & _ & _ & _ & Eb & _).
  change (sends (remove_call id w)) with (sends w) in Es.
  change (fired (remove_call id w)) with (fired w) in Ef.
  constructor; rewrite ?Eb, ?Es, ?Ec.
  - rewrite (in_flight_removed w _ id Es Ec Ef), S1. reflexivity.
  - intros c q Hc. cbn in Hc. apply filter_In in Hc as [Hc _].
    exact (S2 c q Hc).
  - intros c t Hs Hc. cbn in Hc. apply filter_In in Hc as [Hc _].
    exact (S3 c t Hs Hc).
Qed.

(** A dispatch that is not a late completion overtaking a newer send
    keeps the history and the slot in agreement. *)
Lemma single_flight_step (cfg : Config) (w : World) (t : Z) (e : Event)
  (w' : World) :
  wf w -> single_flight w -> overtakes w e = false ->
  step cfg w t e = Some w' -> single_flight w'.
Proof.
  intros Hwf Hsf Hov Hs. apply step_inv in Hs as [_ Hs]. cbv zeta in Hs.
  pose proof (wf_set_clock t w Hwf) as H0.
  assert (Hsf0 : single_flight (set_clock t w))
    by (revert Hsf; apply single_flight_ext; reflexivity).
  destruct e as [ev res nonce | id | id r e | id r].
  - subst. now apply single_flight_onBle.
  - destruct Hs as (tm & Hf & _ & Hs).
    apply find_timer_In in Hf as [Hin _].
    destruct (t_cb tm) eqn:Hcb.
    + subst. now apply single_flight_watchdog.
    + now apply (single_flight_cleanup cfg tm (set_clock t w)).
  - destruct Hs as (p & Hf & ->).
    unfold overtakes in Hov. apply andb_false_iff in Hov as [Hl | Hb].
    + now apply (single_flight_completion id r e p).
    + now apply single_flight_completion_idle.
  - destruct Hs as (Hf & ->). now apply single_flight_deviceInfo.
Qed.

Lemma single_flight_started (cfg : Config) (t0 : Z) :
  single_flight (started cfg t0).
Proof.
  constructor; cbn.
  - reflexivity.
  - intros c p [E | []]. discriminate.
  - intros c t [].
Qed.

Lemma run_unovertaken_run (cfg : Config) (tr : list (Z * Event))
  (w w' : World) :
  run_unovertaken cfg w tr = Some w' -> run cfg w tr = Some w'.
Proof.
  revert w; induction tr as [|[t e] tr IH]; intros w H; cbn in *; [assumption|].
  destruct (overtakes w e); [discriminate|].
  destruct (step cfg w t e) as [w1|]; [now apply IH | discriminate].
Qed.

Lemma single_flight_run (cfg : Config) (tr : list (Z * Event)) (w w' : World) :
  wf w -> single_flight w -> run_unovertaken cfg w tr = Some w' ->
  wf w' /\ single_flight w'.
Proof.
  revert w; induction tr as [|[t e] tr IH]; intros w Hwf Hsf H; cbn in H.
  - inversion H; subst. now split.
  - destruct (overtakes w e) eqn:Hl; [discriminate|].
    destruct (step cfg w t e) as [w1|] eqn:Hs; [|discriminate].
    apply (IH w1); [| |exact H].
    + eapply wf_step; eassumption.
    + eapply single_flight_step; eassumption.
Qed.

Lemma sends_step (cfg : Config) (w : World) (t : Z) (e : Event) (w' : World) :
  step cfg w t e = Some w' ->
  sends w' = sends w \/
  (busy w = false /\ backoffUntil w <= t / 1000 /\
   sends w' = (sends w ++ [(S (nextId w), nextId w)])%list).
Proof.
  intros Hs. apply step_inv in Hs as [_ Hs]. cbv zeta in Hs.
  destruct e as [ev res nonce | id | id r e | id r].
  - subst.
    destruct (onBle_cases cfg ev res nonce (set_clock t w))
      as [-> | (r & _ & [E | (Hb & Hbo & E)])]; try rewrite E.
    + now left.
    + now left.
    + right. split; [exact Hb|]. split; [exact Hbo|].
      match goal with
      | |- sends (start_delivery ?c ?m ?r ?d ?n ?w1) = _ =>
          destruct (start_delivery_shape c m r d n w1) as [p ->]
      end.
      reflexivity.
  - left. destruct Hs as (tm & _ & _ & Hs).
    destruct (fire_frame tm (set_clock t w)) as (_ & _ & _ & Fs & _).
    destruct (t_cb tm).
    + subst. destruct (resetBusy_frame (fire tm (set_clock t w))) as (Es & _).
      now rewrite Es, Fs.
    + unfold cleanupLastSent in Hs.
      destruct (cleanup_store _ _ _); [|discriminate].
      inversion Hs; subst. exact Fs.
  - left. destruct Hs as (p & _ & ->).
    now destruct (httpCallback_frame r e (remove_call id (set_clock t w)))
      as (Es & _).
  - left. destruct Hs as (_ & ->).
    now destruct (deviceInfoCallback_shape r (remove_call id (set_clock t w)))
      as [g ->].
Qed.

Lemma sends_nodup_run (cfg : Config) (tr : list (Z * Event)) (w w' : World) :
  wf w -> NoDup (map fst (sends w)) -> run cfg w tr = Some w' ->
  NoDup (map fst (sends w')).
Proof.
  revert w; induction tr as [|[t e] tr IH]; intros w Hwf Hnd H; cbn in H.
  - now inversion H; subst.
  - destruct (step cfg w t e) as [w1|] eqn:Hs; [|discriminate].
    apply (IH w1); [eapply wf_step; eassumption | | exact H].
    destruct (sends_step cfg w t e w1 Hs) as [-> | (_ & _ & ->)];
      [assumption|].
    rewrite map_app. cbn. apply NoDup_snoc; [assumption|].
    intros Hin. apply in_map_iff in Hin as [x [E Hx]].
    destruct (wf_sends_fresh w Hwf x Hx) as [Hlt _]. lia.
Qed.

(** What a late completion does when it overtakes a newer send: it frees
    the slot and leaves that send in flight. *)
Lemma overtaking_breaks (cfg : Config) (w : World) (t : Z) (id : nat)
  (r : option HttpResponse) (e : Z) (w' : World) :
  wf w -> single_flight w -> NoDup (map fst (sends w)) ->
  overtakes w (HttpDone id r e) = true ->
  step cfg w t (HttpDone id r e) = Some w' ->
  busy w' = false /\ in_flight w' = in_flight w /\ in_flight w <> [].
Proof.
  intros Hwf [S1 _ _] Hnd Hov Hs.
  unfold overtakes in Hov. apply andb_true_iff in Hov as [Hl Hb].
  apply step_inv in Hs as [_ (p & _ & ->)].
  destruct (httpCallback_frame r e (remove_call id (set_clock t w)))
    as (Es & Ec & Ef & _ & _ & _ & _ & Ey).
  split; [exact Ey|].
  change (sends (remove_call id (set_clock t w))) with (sends w) in Es.
  change (calls (remove_call id (set_clock t w)))
    with (calls (remove_call id w)) in Ec.
  change (fired (remove_call id (set_clock t w))) with (fired w) in Ef.
  rewrite (in_flight_removed w _ id Es Ec Ef).
  rewrite (wf_busy w Hwf) in Hb.
  destruct (busyTimer w) as [t0|]; [|discriminate].
  destruct S1 as [c E]. rewrite E.
  split; [|discriminate].
  cbn [filter fst].
  destruct (Nat.eqb_spec c id) as [Eq|ne]; [|reflexivity].
  exfalso. subst c.
  assert (Hin : In (id, t0) (in_flight w)) by (rewrite E; now left).
  apply in_flight_sub in Hin as [Hin Hu].
  unfold unresolved in Hu. cbn [fst snd] in Hu.
  apply andb_true_iff in Hu as [_ Hu]. apply negb_true_iff in Hu.
  cbn in Hl. apply existsb_exists in Hl as [s [Hs Hl]].
  apply andb_true_iff in Hl as [Hid Hf]. apply Nat.eqb_eq in Hid.
  assert (s = (id, t0)).
  { apply (NoDup_map_inj fst (sends w)); assumption. }
  subst s. cbn [snd] in Hf. congruence.
Qed.

(** C1, as amended.  In every run in which no late completion (one whose
    send was already released by its watchdog) runs while busy is true, that
    is, while a newer send holds the slot, at most one delivery is in
    flight: busy is true exactly while one send is unresolved, and a
    further send is accepted only from a world in which busy is false and
    no earlier send is in flight.  A late completion that arrives while the
    slot is idle is harmless.  One that does run while busy is true frees
    the slot and leaves the newer send in flight. *)
Theorem single_delivery_in_flight :
  forall cfg t0 tr w,
    run_unovertaken cfg (started cfg t0) tr = Some w ->
    ((busy w = true /\ exists s, in_flight w = [s]) \/
     (busy w = false /\ in_flight w = [])) /\
    (forall t e w',
       step cfg w t e = Some w' -> sends w' <> sends w ->
       busy w = false /\ in_flight w = []) /\
    (forall t id r e w',
       overtakes w (HttpDone id r e) = true ->
       step cfg w t (HttpDone id r e) = Some w' ->
       busy w' = false /\ in_flight w' = in_flight w /\ in_flight w <> []).
Proof.
  intros cfg t0 tr w Hrun.
  destruct (single_flight_run cfg tr (started cfg t0) w
              (wf_started cfg t0) (single_flight_started cfg t0) Hrun)
    as [Hwf Hsf].
  pose proof Hsf as [S1 _ _].
  assert (Hb := wf_busy w Hwf).
  assert (G : (busy w = true /\ exists s, in_flight w = [s]) \/
              (busy w = false /\ in_flight w = [])).
  { destruct (busyTimer w) as [tw|].
    - left. split; [exact Hb|]. destruct S1 as [c E]. now exists (c, tw).
    - right. now split. }
  split; [exact G|]. split.
  - intros t e w' Hs Hne.
    destruct (sends_step cfg w t e w' Hs) as [E | (Hbusy & _ & _)];
      [contradiction|].
    split; [exact Hbusy|].
    destruct G as [[Ht _] | [_ E]]; [congruence | exact E].
  - intros t id r e w' Hov Hs.
    apply (overtaking_breaks cfg w t id r e w' Hwf Hsf); try assumption.
    apply (sends_nodup_run cfg tr (started cfg t0) w (wf_started cfg t0)).
    + constructor.
    + now apply run_unovertaken_run.
Qed.

Lemma single_delivery_in_flight_witness :
  let w := world_after late_while_idle_trace in
  ((busy w = true /\ exists s, in_flight w = [s]) \/
   (busy w = false /\ in_flight w = [])) /\
  (forall t e w',
     step default_config w t e = Some w' -> sends w' <> sends w ->
     busy w = false /\ in_flight w = []) /\
  (forall t id r e w',
     overtakes w (HttpDone id r e) = true ->
     step default_config w t (HttpDone id r e) = Some w' ->
     busy w' = false /\ in_flight w' = in_flight w /\ in_flight w <> []).
Proof.
  intros w.
  apply (single_delivery_in_flight default_config epoch
           late_while_idle_trace w).
  vm_compute. reflexivity.
Defined.

Example late_while_idle_is_a_late_completion :
  late (world_after watchdog_trace) (snd late_completion) = true /\
  overtakes (world_after watchdog_trace) (snd late_completion) = false /\
  option_map (fun w => (in_flight w, busy w))
    (run_unovertaken default_config (started default_config epoch)
       late_while_idle_trace)
  = Some ([(5%nat, 4%nat)], true).
Proof. vm_compute. repeat split; reflexivity. Qed.

(** C1, as stated, fails: after a watchdog expiry, the late completion of
    the expired send releases the slot while the next send is still
    unresolved, and a third send is accepted beside it. *)
Lemma two_deliveries_in_flight :
  option_map (fun w => (in_flight w, busy w))
    (run default_config (started default_config epoch) stale_completion_trace)
  = Some ([(5%nat, 4%nat); (7%nat, 6%nat)], true).
Proof. vm_compute. reflexivity. Qed.

(** ** A completion that arrives after the watchdog *)

Lemma find_filter_none (id : nat) (ts : list TimerEntry) :
  find (fun t => Nat.eqb (t_id t) id)
       (filter (fun t => negb (Nat.eqb (t_id t) id)) ts) = None.
Proof.
  induction ts as [|a ts IH]; cbn; [reflexivity|].
  destruct (Nat.eqb (t_id a) id) eqn:E; cbn; [assumption|].
  now rewrite E.
Qed.

Lemma release_slot_clears (w : World) (tw : nat) :
  busyTimer w = Some tw -> find_timer tw (release_slot w) = None.
Proof.
  intros E. unfold release_slot. cbv zeta.
  change (busyTimer (set_busy false w)) with (busyTimer w). rewrite E.
  unfold find_timer. cbn. apply find_filter_none.
Qed.

(** C2, as amended.  A completion that arrives after the watchdog of its
    send has fired is handled like any other completion: busy becomes
    false, busyTimer becomes null and the timer it named (the watchdog of a
    newer send, if one was accepted meanwhile) is cancelled, and the outcome
    is reported to the backoff controller: a failure counts as one more
    consecutive error, a success resets consecutiveErrors and backoffUntil
    to 0. *)
Theorem late_completion_is_processed :
  forall cfg w t id r e w',
    late w (HttpDone id r e) = true ->
    step cfg w t (HttpDone id r e) = Some w' ->
    busy w' = false /\ busyTimer w' = None /\
    (forall tw, busyTimer w = Some tw -> find_timer tw w' = None) /\
    (is_failure r e -> failure_effect (set_clock t w) w') /\
    (is_success r e -> consecutiveErrors w' = 0 /\ backoffUntil w' = 0).
Proof.
  intros cfg w t id r e w' _ Hs.
  apply step_inv in Hs as [_ (p & _ & ->)].
  destruct (httpCallback_frame r e (remove_call id (set_clock t w)))
    as (_ & _ & _ & _ & _ & _ & Eb & Ey).
  split; [exact Ey|]. split; [exact Eb|]. split; [|split].
  - intros tw Htw.
    destruct (httpCallback_shape r e (remove_call id (set_clock t w)))
      as (ce & bu & ->).
    change (find_timer tw (release_slot (remove_call id (set_clock t w))) = None).
    now apply release_slot_clears.
  - intros Hf.
    apply (failure_effect_transfer (set_clock t w)
             (remove_call id (set_clock t w))); try reflexivity.
    now apply httpCallback_failure.
  - intros Hok. now apply httpCallback_success.
Qed.

Lemma late_completion_is_processed_witness :
  let w := world_after watchdog_trace in
  let w' := world_after (watchdog_trace ++ [late_completion]) in
  busy w' = false /\ busyTimer w' = None /\
  (forall tw, busyTimer w = Some tw -> find_timer tw w' = None) /\
  (is_failure None (-1) -> failure_effect (set_clock (epoch + 12000) w) w') /\
  (is_success None (-1) -> consecutiveErrors w' = 0 /\ backoffUntil w' = 0).
Proof.
  intros w w'.
  apply (late_completion_is_processed default_config w (epoch + 12000) 3
           None (-1) w').
  - vm_compute. reflexivity.
  - vm_compute. reflexivity.
Defined.

(** C2, as stated, fails: the watchdog of the send of call 3 fires, and the
    completion of call 3 that runs afterwards is late and still raises
    consecutiveErrors from 1 to 2. *)
Lemma late_completion_changes_state :
  late (world_after watchdog_trace) (snd late_completion) = true /\
  option_map consecutiveErrors
    (run default_config (started default_config epoch) watchdog_trace)
  = Some 1 /\
  option_map consecutiveErrors
    (run default_config (started default_config epoch)
       (watchdog_trace ++ [late_completion]))
  = Some 2.
Proof. vm_compute. repeat split; reflexivity. Qed.

(** ** The cooldown variable *)

Lemma count_error_backoff (w : World) :
  backoffUntil (count_error w) = backoffUntil w \/
  now_sec w + 20 <= backoffUntil (count_error w) <= now_sec w + 60.
Proof.
  destruct (count_error_effect w) as (Hc & Hlow & Hhigh).
  destruct (Z_le_gt_dec (consecutiveErrors w + 1) 3) as [Hle|Hgt].
  - left. now apply Hlow.
  - right. rewrite (Hhigh Hgt). lia.
Qed.

Lemma httpCallback_backoff (r : option HttpResponse) (e : Z) (w : World) :
  backoffUntil (httpCallback r e w) = backoffUntil w \/
  backoffUntil (httpCallback r e w) = 0 \/
  now_sec w + 20 <= backoffUntil (httpCallback r e w) <= now_sec w + 60.
Proof.
  destruct (httpCallback_prelude r e w) as (w0 & _ & Hb & Hn & _ & _ & ->).
  assert (G : backoffUntil (count_error w0) = backoffUntil w \/
              backoffUntil (count_error w0) = 0 \/
              now_sec w + 20 <= backoffUntil (count_error w0) <= now_sec w + 60).
  { rewrite <- Hb, <- Hn. destruct (count_error_backoff w0); tauto. }
  destruct (negb (e =? 0)); [exact G|].
  destruct r as [resp|]; [|exact G].
  destruct (negb (code resp =? 200)); [exact G|].
  right; left. reflexivity.
Qed.

Lemma onBle_backoff_frame (cfg : Config) (ev : Z) (res : option ScanResult)
  (nonce : Z) (w : World) :
  backoffUntil (onBle cfg ev res nonce w) = backoffUntil w /\
  consecutiveErrors (onBle cfg ev res nonce w) = consecutiveErrors w.
Proof.
  destruct (onBle_cases cfg ev res nonce w) as [-> | (r & _ & [E | (_ & _ & E)])];
    [now split | |]; rewrite E; [now split|].
  match goal with
  | |- context [start_delivery ?c ?m ?r ?d ?n ?w1] =>
      destruct (start_delivery_shape c m r d n w1) as [p ->]
  end.
  now split.
Qed.

(** C8, as amended.  What a dispatch at clock reading now does to
    backoffUntil: a successful completion sets it to 0; a failure signal
    (a failed completion or the watchdog) that brings consecutiveErrors
    above 3 sets it to now + min(60, 5 * consecutiveErrors), a value
    between now + 20 and now + 60; a failure signal up to the third, an
    advertisement, the device-info callback and the cleanup pass leave it
    unchanged.  So the value is 0 or not in the past at the moment it is
    written, and nothing but a success clears it: it is not reset when the
    cooldown has elapsed. *)
Theorem backoffUntil_when_written :
  forall cfg w t e w',
    step cfg w t e = Some w' ->
    match e with
    | Advertisement _ _ _ => backoffUntil w' = backoffUntil w
    | DeviceInfoDone _ _ => backoffUntil w' = backoffUntil w
    | TimerFired id =>
        forall tm, find_timer id w = Some tm ->
                   match t_cb tm with
                   | CbResetBusy => failure_effect (set_clock t w) w'
                   | CbCleanupLastSent => backoffUntil w' = backoffUntil w
                   end
    | HttpDone _ r e =>
        (is_success r e -> backoffUntil w' = 0) /\
        (is_failure r e -> failure_effect (set_clock t w) w')
    end /\
    (backoffUntil w' = backoffUntil w \/
     backoffUntil w' = 0 \/
     t / 1000 + 20 <= backoffUntil w' <= t / 1000 + 60).
Proof.
  intros cfg w t e w' Hs. apply step_inv in Hs as [_ Hs]. cbv zeta in Hs.
  assert (R : failure_effect (set_clock t w) w' ->
              backoffUntil w' = backoffUntil w \/
              backoffUntil w' = 0 \/
              t / 1000 + 20 <= backoffUntil w' <= t / 1000 + 60).
  { intros (Hc & Hlow & Hhigh).
    change (consecutiveErrors (set_clock t w)) with (consecutiveErrors w) in *.
    change (backoffUntil (set_clock t w)) with (backoffUntil w) in *.
    change (now_sec (set_clock t w)) with (t / 1000) in *.
    destruct (Z_le_gt_dec (consecutiveErrors w + 1) 3) as [Hle|Hgt].
    - left. now apply Hlow.
    - right; right. rewrite (Hhigh Hgt). lia. }
  destruct e as [ev res nonce | id | id r e | id r].
  - subst.
    pose proof (proj1 (onBle_backoff_frame cfg ev res nonce (set_clock t w)))
      as E.
    split; [exact E | left; exact E].
  - destruct Hs as (tm & Hf & _ & Hs).
    change (find_timer id (set_clock t w)) with (find_timer id w) in Hf.
    destruct (fire_frame tm (set_clock t w))
      as (_ & _ & _ & _ & _ & _ & _ & _ & Fk & Fc & Fb).
    destruct (t_cb tm) eqn:Hcb.
    + subst.
      assert (F : failure_effect (set_clock t w)
                    (resetBusy (fire tm (set_clock t w)))).
      { apply (failure_effect_transfer (set_clock t w)
                 (fire tm (set_clock t w))); try assumption.
        - unfold now_sec. now rewrite Fk.
        - apply resetBusy_failure. }
      split; [|now apply R].
      intros tm' Hf'. rewrite Hf in Hf'. inversion Hf'; subst tm'.
      rewrite Hcb. exact F.
    + unfold cleanupLastSent in Hs.
      destruct (cleanup_store _ _ _); [|discriminate].
      inversion Hs; subst.
      split; [|left; exact Fb].
      intros tm' Hf'. rewrite Hf in Hf'. inversion Hf'; subst tm'.
      rewrite Hcb. exact Fb.
  - destruct Hs as (p & _ & ->).
    assert (F : is_failure r e ->
                failure_effect (set_clock t w)
                  (httpCallback r e (remove_call id (set_clock t w)))).
    { intros Hfail.
      apply (failure_effect_transfer (set_clock t w)
               (remove_call id (set_clock t w))); try reflexivity.
      now apply httpCallback_failure. }
    split.
    + split; [|exact F].
      intros Hok. now apply httpCallback_success.
    + apply (httpCallback_backoff r e (remove_call id (set_clock t w))).
  - destruct Hs as (_ & ->).
    destruct (deviceInfoCallback_shape r (remove_call id (set_clock t w)))
      as [g ->].
    split; [reflexivity | now left].
Qed.

Lemma backoffUntil_when_written_witness :
  let w := world_after (firstn 7 backoff_trace) in
  let w' := world_after (firstn 8 backoff_trace) in
  ((is_success None (-1) -> backoffUntil w' = 0) /\
   (is_failure None (-1) -> failure_effect (set_clock (epoch + 8000) w) w')) /\
  (backoffUntil w' = backoffUntil w \/
   backoffUntil w' = 0 \/
   (epoch + 8000) / 1000 + 20 <= backoffUntil w' <= (epoch + 8000) / 1000 + 60).
Proof.
  intros w w'.
  apply (backoffUntil_when_written default_config w (epoch + 8000)
           (HttpDone 9 None (-1)) w').
  vm_compute. reflexivity.
Defined.

(** C8, as stated, fails: the fourth failure in a row, at second
    1700000008, sets backoffUntil to 1700000028; at second 1700000060 the
    variable still holds that value. *)
Lemma backoffUntil_in_the_past :
  option_map (fun w => (backoffUntil w, now_sec w, consecutiveErrors w))
    (run default_config (started default_config epoch) backoff_trace)
  = Some (1700000028, 1700000060, 4).
Proof. vm_compute. reflexivity. Qed.

(** ** Per-device rate limiting *)

Lemma store_get_set (k m : string) (v : Z) (st : Store) :
  store_get k (store_set m v st)
  = if String.eqb k m then Some v else store_get k st.
Proof.
  induction st as [|[k' v'] st IH]; cbn.
  - reflexivity.
  - destruct (String.eqb_spec m k') as [->|ne]; cbn.
    + now destruct (String.eqb k k').
    + rewrite IH. destruct (String.eqb_spec k k') as [->|ne'].
      * destruct (String.eqb_spec k' m); [congruence | reflexivity].
      * reflexivity.
Qed.

Lemma store_get_filter (k : string) (rk : list string) (st : Store) :
  store_get k (filter (fun e => negb (mem_str (fst e) rk)) st)
  = if mem_str k rk then None else store_get k st.
Proof.
  induction st as [|[k' v'] st IH]; cbn [filter store_get fst].
  - now destruct (mem_str k rk).
  - destruct (mem_str k' rk) eqn:M; cbn [negb store_get].
    + rewrite IH. destruct (String.eqb_spec k k') as [->|ne]; [|reflexivity].
      now rewrite M.
    + rewrite IH. destruct (String.eqb_spec k k') as [->|ne]; [|reflexivity].
      now rewrite M.
Qed.

(** What a dispatch can do to [lastSent]: nothing, record one device at
    the current second, or delete a set of keys. *)
Lemma lastSent_step (cfg : Config) (w : World) (t : Z) (e : Event) (w' : World) :
  step cfg w t e = Some w' ->
  lastSent w' = lastSent w \/
  (exists m, lastSent w' = store_set m (t / 1000) (lastSent w)) \/
  (exists rk, lastSent w' = filter (fun e => negb (mem_str (fst e) rk))
                                   (lastSent w)).
Proof.
  intros Hs. apply step_inv in Hs as [_ Hs]. cbv zeta in Hs.
  destruct e as [ev res nonce | id | id r e | id r].
  - subst.
    destruct (onBle_cases cfg ev res nonce (set_clock t w))
      as [-> | (r & _ & [E | (_ & _ & E)])]; try rewrite E.
    + now left.
    + right; left. eexists. reflexivity.
    + right; left.
      match goal with
      | |- context [start_delivery ?c ?m ?r ?d ?n ?w1] =>
          destruct (start_delivery_shape c m r d n w1) as [p ->]
      end.
      eexists. reflexivity.
  - destruct Hs as (tm & _ & _ & Hs).
    destruct (fire_frame tm (set_clock t w)) as (_ & _ & _ & _ & Fl & _).
    destruct (t_cb tm).
    + left. subst.
      destruct (resetBusy_frame (fire tm (set_clock t w)))
        as (_ & _ & _ & _ & El & _).
      now rewrite El, Fl.
    + right; right. unfold cleanupLastSent in Hs.
      destruct (cleanup_store _ _ _) as [st|] eqn:E; [|discriminate].
      inversion Hs; subst. apply cleanup_store_shape in E as [rk ->].
      exists rk. cbn [lastSent set_lastSent]. now rewrite Fl.
  - left. destruct Hs as (p & _ & ->).
    now destruct (httpCallback_frame r e (remove_call id (set_clock t w)))
      as (_ & _ & _ & El & _).
  - left. destruct Hs as (_ & ->).
    now destruct (deviceInfoCallback_shape r (remove_call id (set_clock t w)))
      as [g ->].
Qed.

Lemma clock_step (cfg : Config) (w : World) (t : Z) (e : Event) (w' : World) :
  step cfg w t e = Some w' -> clock w <= t /\ clock w' = t.
Proof.
  intros Hs. apply step_inv in Hs as [Hle Hs]. cbv zeta in Hs.
  split; [exact Hle|].
  destruct e as [ev res nonce | id | id r e | id r].
  - subst.
    destruct (onBle_cases cfg ev res nonce (set_clock t w))
      as [-> | (r & _ & [E | (_ & _ & E)])]; try rewrite E; reflexivity.
  - destruct Hs as (tm & _ & _ & Hs).
    destruct (fire_frame tm (set_clock t w))
      as (_ & _ & _ & _ & _ & _ & _ & _ & Fk & _).
    destruct (t_cb tm).
    + subst.
      destruct (resetBusy_frame (fire tm (set_clock t w)))
        as (_ & _ & _ & _ & _ & _ & Ek & _).
      now rewrite Ek, Fk.
    + unfold cleanupLastSent in Hs.
      destruct (cleanup_store _ _ _) as [st|]; [|discriminate].
      inversion Hs; subst. exact Fk.
  - destruct Hs as (p & _ & ->).
    now destruct (httpCallback_frame r e (remove_call id (set_clock t w)))
      as (_ & _ & _ & _ & _ & Ek & _).
  - destruct Hs as (_ & ->).
    now destruct (deviceInfoCallback_shape r (remove_call id (set_clock t w)))
      as [g ->].
Qed.

(** Once a device is recorded at second [T], later records of it (if it
    is still in the store) are not earlier. *)
Lemma record_kept_run (cfg : Config) (D : string) (t1 : Z)
  (tr : list (Z * Event)) (w w' : World) :
  t1 <= clock w ->
  (forall v, store_get D (lastSent w) = Some v -> t1 / 1000 <= v) ->
  run cfg w tr = Some w' ->
  t1 <= clock w' /\
  (forall v, store_get D (lastSent w') = Some v -> t1 / 1000 <= v).
Proof.
  revert w; induction tr as [|[t e] tr IH]; intros w Hc Hv H; cbn in H.
  - inversion H; subst. now split.
  - destruct (step cfg w t e) as [w1|] eqn:Hs; [|discriminate].
    destruct (clock_step cfg w t e w1 Hs) as [Hle Hck].
    apply (IH w1); [lia | | exact H].
    intros v Hg.
    destruct (lastSent_step cfg w t e w1 Hs) as [E | [[m E] | [rk E]]];
      rewrite E in Hg.
    + now apply Hv.
    + rewrite store_get_set in Hg. destruct (String.eqb D m).
      * inversion Hg; subst. apply Z.div_le_mono; lia.
      * now apply Hv.
    + rewrite store_get_filter in Hg.
      destruct (mem_str D rk); [discriminate | now apply Hv].
Qed.

Lemma onBle_rate_limited (cfg : Config) (ev : Z) (r : ScanResult) (nonce : Z)
  (w : World) (v : Z) :
  store_get (normalize_addr (str (addr r))) (lastSent w) = Some v ->
  now_sec w - v < RATE_LIMIT_SEC cfg ->
  onBle cfg ev (Some r) nonce w = w.
Proof.
  intros Hg Hlt. unfold onBle.
  destruct (negb (ev =? SCAN_RESULT cfg)); [reflexivity|].
  destruct (negb (truthy (addr r))); [reflexivity|].
  destruct (_ || _); [reflexivity|].
  cbv zeta. rewrite Hg.
  destruct (Z.ltb_spec (now_sec w - v) (RATE_LIMIT_SEC cfg)); [reflexivity | lia].
Qed.

Lemma hex_nonempty (s : string) :
  truthy (Some s) = true -> (JS.len (hex s) =? 0) = false.
Proof.
  destruct s as [|c s]; [discriminate|]. intros _.
  rewrite hex_is_payload_hex. cbn [payload_hex_spec].
  unfold byte_hex_spec, JS.len. cbn [append String.length].
  apply Z.eqb_neq. lia.
Qed.

Lemma send_lastSent (cfg : Config) (m : string) (rssi : Z) (d : string)
  (nonce : Z) (w : World) :
  lastSent (send cfg m rssi d nonce w) = lastSent w.
Proof.
  destruct (send_cases cfg m rssi d nonce w) as [-> | (_ & _ & ->)];
    [reflexivity|].
  now destruct (start_delivery_shape cfg m rssi d nonce w) as [p ->].
Qed.

(** C5, as amended.  If a packet from device D is recorded at second T,
    then an advertisement from D that arrives before T + RATE_LIMIT_SEC is
    dropped, provided D still has an entry in lastSent when it arrives (a
    cleanup pass may have evicted it).  A device without an entry is
    treated as last sent at 0: its qualifying advertisement is dropped while
    now < RATE_LIMIT_SEC and recorded from then on. *)
Theorem rate_limit_per_device :
  (forall cfg w0 t1 ev1 r1 n1 w1 tr w2 t2 ev2 r2 n2 w3,
     let D := normalize_addr (str (addr r1)) in
     let T := t1 / 1000 in
     step cfg w0 t1 (Advertisement ev1 (Some r1) n1) = Some w1 ->
     store_get D (lastSent w1) = Some T ->
     run cfg w1 tr = Some w2 ->
     store_get D (lastSent w2) <> None ->
     normalize_addr (str (addr r2)) = D ->
     t2 / 1000 < T + RATE_LIMIT_SEC cfg ->
     step cfg w2 t2 (Advertisement ev2 (Some r2) n2) = Some w3 ->
     w3 = set_clock t2 w2) /\
  (forall cfg w ev r nonce,
     let m := normalize_addr (str (addr r)) in
     store_get m (lastSent w) = None ->
     ev = SCAN_RESULT cfg -> truthy (addr r) = true ->
     truthy (advData r) = true ->
     hasMfg (hex (str (advData r))) (MFG cfg) = true ->
     (now_sec w - 0 < RATE_LIMIT_SEC cfg ->
      onBle cfg ev (Some r) nonce w = w) /\
     (RATE_LIMIT_SEC cfg <= now_sec w - 0 ->
      lastSent (onBle cfg ev (Some r) nonce w)
      = store_set m (now_sec w) (lastSent w))).
Proof.
  split.
  - intros cfg w0 t1 ev1 r1 n1 w1 tr w2 t2 ev2 r2 n2 w3 D T
           Hs1 Hg1 Hrun Hstill HD Hlt Hs2.
    destruct (clock_step _ _ _ _ _ Hs1) as [_ Hck].
    destruct (record_kept_run cfg D t1 tr w1 w2) as [_ Hv]; [lia | | exact Hrun |].
    { intros v Hg. rewrite Hg1 in Hg. inversion Hg; subst. subst T. lia. }
    destruct (store_get D (lastSent w2)) as [v|] eqn:Hg2; [|congruence].
    specialize (Hv v eq_refl).
    apply step_inv in Hs2 as [_ ->]. cbv zeta.
    apply (onBle_rate_limited cfg ev2 r2 n2 (set_clock t2 w2) v).
    + rewrite HD. exact Hg2.
    + change (now_sec (set_clock t2 w2)) with (t2 / 1000). subst T. lia.
  - intros cfg w ev r nonce m Hg Hev Ha Hd Hm.
    assert (Hne : (JS.len (hex (str (advData r))) =? 0) = false).
    { apply hex_nonempty. destruct (advData r); [exact Hd | discriminate]. }
    unfold onBle. rewrite Hev, Z.eqb_refl, Ha, Hd, Hne, Hm. cbn [negb orb].
    cbv zeta. fold m. rewrite Hg. split; intros H.
    + destruct (Z.ltb_spec (now_sec w - 0) (RATE_LIMIT_SEC cfg));
        [reflexivity | lia].
    + destruct (Z.ltb_spec (now_sec w - 0) (RATE_LIMIT_SEC cfg)); [lia|].
      apply send_lastSent.
Qed.

Lemma rate_limit_per_device_witness :
  let first := (epoch + 1000, adv_from "aa:bb:cc:dd:ee:01") in
  let other := (epoch + 2000, adv_from "aa:bb:cc:dd:ee:02") in
  let early := (epoch + 3000, adv_from "aa:bb:cc:dd:ee:01") in
  let r := mkScanResult (Some "aa:bb:cc:dd:ee:01") (Some victron_payload) (-67) in
  let w := started default_config epoch in
  world_after [first; other; early]
  = set_clock (epoch + 3000) (world_after [first; other]) /\
  lastSent (onBle default_config 2 (Some r) 12345 w)
  = store_set "AA:BB:CC:DD:EE:01" (now_sec w) (lastSent w).
Proof.
  intros first other early r w. split.
  - apply (proj1 rate_limit_per_device default_config w (epoch + 1000)
             (SCAN_RESULT default_config) r 12345
             (world_after [first]) [other] (world_after [first; other])
             (epoch + 3000) (SCAN_RESULT default_config) r 12345).
    + vm_compute. reflexivity.
    + vm_compute. reflexivity.
    + vm_compute. reflexivity.
    + vm_compute. discriminate.
    + vm_compute. reflexivity.
    + vm_compute. reflexivity.
    + vm_compute. reflexivity.
  - apply (proj2 (proj2 rate_limit_per_device default_config w 2 r 12345
                    ltac:(reflexivity) ltac:(reflexivity) ltac:(reflexivity)
                    ltac:(reflexivity) ltac:(vm_compute; reflexivity))).
    vm_compute. discriminate.
Defined.

(** C5, as stated, fails.  Device 0 is recorded at second 1700000300;
    fifty more devices are recorded a second later and the cleanup pass at
    second 1700000302 evicts device 0, the oldest of the 51; its next
    advertisement, at second 1700000303, is before 1700000300 + 5 and is
    recorded and sent (a third call is issued).  And on a clock that reads
    second 3, a device with no entry is not eligible. *)
Lemma evicted_device_is_forwarded_early :
  option_map (fun w => store_get (device 0) (lastSent w))
    (run default_config (started default_config epoch) (firstn 1 eviction_trace))
  = Some (Some 1700000300) /\
  option_map (fun w => (store_get (device 0) (lastSent w),
                        List.length (lastSent w), List.length (sends w)))
    (run default_config (started default_config epoch) eviction_trace)
  = Some (None, 50%nat, 2%nat) /\
  option_map (fun w => (store_get (device 0) (lastSent w),
                        List.length (sends w)))
    (run default_config (started default_config epoch)
       (eviction_trace ++ [readvertisement]))
  = Some (Some 1700000303, 3%nat) /\
  option_map lastSent
    (step default_config (started default_config 0) 3000 (adv_from (device 0)))
  = Some [].
Proof. vm_compute. repeat split; reflexivity. Qed.

(** ** The watchdog *)

Lemma find_app_l {A : Type} (f : A -> bool) (l1 l2 : list A) :
  find f (l1 ++ l2)
  = match find f l1 with
    | Some x => Some x
    | None => find f l2
    end.
Proof.
  induction l1 as [|x l1 IH]; cbn; [reflexivity|].
  now destruct (f x).
Qed.

Lemma find_none_fresh (id : nat) (ts : list TimerEntry) :
  ~ In id (map t_id ts) -> find (fun t => Nat.eqb (t_id t) id) ts = None.
Proof.
  intros Hni. destruct (find _ ts) as [x|] eqn:E; [|reflexivity].
  apply find_some in E as [Hin E]. apply Nat.eqb_eq in E.
  exfalso. apply Hni. rewrite <- E. now apply in_map.
Qed.

Lemma find_filter_other (id id' : nat) (ts : list TimerEntry) :
  id' <> id ->
  find (fun t => Nat.eqb (t_id t) id)
       (filter (fun t => negb (Nat.eqb (t_id t) id')) ts)
  = find (fun t => Nat.eqb (t_id t) id) ts.
Proof.
  intros ne. induction ts as [|a ts IH]; cbn; [reflexivity|].
  destruct (Nat.eqb_spec (t_id a) id') as [E|n1]; cbn.
  - destruct (Nat.eqb_spec (t_id a) id); [congruence | exact IH].
  - now rewrite IH.
Qed.

Lemma find_timer_fire_other (tm : TimerEntry) (id : nat) (w : World) :
  t_id tm <> id -> find_timer id (fire tm w) = find_timer id w.
Proof.
  intros ne. unfold find_timer. rewrite fire_timers, find_app_l.
  rewrite find_filter_other by exact ne.
  destruct (find _ (timers w)); [reflexivity|].
  destruct (t_repeat tm); [|reflexivity]. cbn.
  destruct (Nat.eqb_spec (t_id tm) id); [contradiction | reflexivity].
Qed.

(** While the slot is busy and neither a completion nor the watchdog
    runs, the slot, the armed watchdog and the error count stay as they
    are. *)
Lemma waiting_step (cfg : Config) (w : World) (t : Z) (e : Event) (w' : World)
  (tw : nat) (entry : TimerEntry) :
  wf w -> busy w = true -> busyTimer w = Some tw ->
  find_timer tw w = Some entry ->
  is_completion e = false -> is_firing tw e = false ->
  step cfg w t e = Some w' ->
  busy w' = true /\ busyTimer w' = Some tw /\
  find_timer tw w' = Some entry /\
  consecutiveErrors w' = consecutiveErrors w.
Proof.
  intros Hwf Hb Hbt Hf Hc Hfi Hs.
  apply step_inv in Hs as [_ Hs]. cbv zeta in Hs.
  pose proof (wf_set_clock t w Hwf) as H0.
  destruct e as [ev res nonce | id | id r e | id r]; [| | discriminate |].
  - subst.
    destruct (onBle_cases cfg ev res nonce (set_clock t w))
      as [-> | (r & _ & [E | (Hb' & _ & _)])]; try rewrite E.
    + repeat split; assumption.
    + repeat split; assumption.
    + cbn in Hb'. congruence.
  - destruct Hs as (tm & Hft & _ & Hs).
    apply find_timer_In in Hft as [Hin Hid].
    cbn in Hfi.
    assert (ne : t_id tm <> tw).
    { rewrite Hid. intros ->. rewrite Nat.eqb_refl in Hfi. discriminate. }
    destruct (fire_frame tm (set_clock t w))
      as (_ & _ & _ & _ & _ & _ & Fb & Fy & _ & Fc & _).
    destruct (t_cb tm) eqn:Hcb.
    + destruct (wf_fire_resetBusy tm (set_clock t w) H0 Hin Hcb) as [_ Hx].
      cbn in Hx. congruence.
    + unfold cleanupLastSent in Hs.
      destruct (cleanup_store _ _ _) as [st|]; [|discriminate].
      inversion Hs; subst.
      cbn [busy busyTimer consecutiveErrors set_lastSent].
      rewrite Fb, Fy, Fc. repeat split; try assumption.
      change (find_timer tw (fire tm (set_clock t w)) = Some entry).
      now rewrite find_timer_fire_other.
  - destruct Hs as (_ & ->).
    destruct (deviceInfoCallback_shape r (remove_call id (set_clock t w)))
      as [g ->].
    repeat split; assumption.
Qed.

Lemma waiting_run (cfg : Config) (tr : list (Z * Event)) (w w' : World)
  (tw : nat) (entry : TimerEntry) :
  wf w -> busy w = true -> busyTimer w = Some tw ->
  find_timer tw w = Some entry ->
  no_completion tr = true -> never_fires tw tr = true ->
  run cfg w tr = Some w' ->
  wf w' /\ busy w' = true /\ busyTimer w' = Some tw /\
  find_timer tw w' = Some entry /\
  consecutiveErrors w' = consecutiveErrors w.
Proof.
  revert w; induction tr as [|[t e] tr IH];
    intros w Hwf Hb Hbt Hf Hnc Hnf H; cbn in H.
  - inversion H; subst.
    split; [assumption|]. split; [assumption|]. split; [assumption|].
    split; [assumption | reflexivity].
  - destruct (step cfg w t e) as [w1|] eqn:Hs; [|discriminate].
    cbn in Hnc, Hnf.
    apply andb_true_iff in Hnc as [Hc Hnc]. apply negb_true_iff in Hc.
    apply andb_true_iff in Hnf as [Hfi Hnf]. apply negb_true_iff in Hfi.
    destruct (waiting_step cfg w t e w1 tw entry Hwf Hb Hbt Hf Hc Hfi Hs)
      as (B1 & B2 & B3 & B4).
    destruct (IH w1 (wf_step cfg w t e w1 Hwf Hs) B1 B2 B3 Hnc Hnf H)
      as (W & C1 & C2 & C3 & C4).
    split; [assumption|]. split; [assumption|]. split; [assumption|].
    split; [assumption | congruence].
Qed.

Lemma release_slot_timers (w : World) (t : TimerEntry) :
  In t (timers (release_slot w)) -> In t (timers w).
Proof.
  unfold release_slot. cbv zeta.
  change (busyTimer (set_busy false w)) with (busyTimer w).
  destruct (busyTimer w); cbn; [|trivial].
  intros H. now apply filter_In in H as [H _].
Qed.

(** Handles are never reused: a dispatch arms only timers that were armed
    or whose handle is new. *)
Lemma timers_step (cfg : Config) (w : World) (t : Z) (e : Event) (w' : World) :
  step cfg w t e = Some w' ->
  (nextId w <= nextId w')%nat /\
  forall id, In id (map t_id (timers w')) ->
             In id (map t_id (timers w)) \/ (nextId w <= id)%nat.
Proof.
  intros Hs. apply step_inv in Hs as [_ Hs]. cbv zeta in Hs.
  destruct e as [ev res nonce | id | id r e | id r].
  - subst.
    destruct (onBle_cases cfg ev res nonce (set_clock t w))
      as [-> | (r & _ & [E | (_ & _ & E)])]; try rewrite E.
    + split; [apply Nat.le_refl | now left].
    + split; [apply Nat.le_refl | now left].
    + match goal with
      | |- context [start_delivery ?c ?m ?r ?d ?n ?w1] =>
          destruct (start_delivery_shape c m r d n w1) as [p ->]
      end.
      cbn. split; [lia|]. intros id Hid. rewrite map_app in Hid.
      apply in_app_or in Hid as [Hid | [<- | []]]; [now left | now right].
  - destruct Hs as (tm & Hf & _ & Hs).
    apply find_timer_In in Hf as [Hin Hid].
    destruct (fire_frame tm (set_clock t w)) as (_ & _ & Fn & _).
    assert (G : forall i, In i (map t_id (timers (fire tm (set_clock t w)))) ->
                          In i (map t_id (timers w))).
    { intros i Hi. rewrite fire_timers, map_app in Hi.
      apply in_app_or in Hi as [Hi | Hi].
      - apply in_map_iff in Hi as [x [<- Hx]].
        apply filter_In in Hx as [Hx _]. now apply in_map.
      - destruct (t_repeat tm); [|destruct Hi].
        destruct Hi as [<- | []]. cbn. now apply in_map. }
    destruct (t_cb tm).
    + subst.
      destruct (resetBusy_frame (fire tm (set_clock t w)))
        as (_ & _ & _ & Et & _ & En & _).
      rewrite En, Fn, Et. split; [apply Nat.le_refl|].
      intros i Hi. left. now apply G.
    + unfold cleanupLastSent in Hs.
      destruct (cleanup_store _ _ _) as [st|]; [|discriminate].
      inversion Hs; subst. cbn [nextId timers set_lastSent]. rewrite Fn.
      split; [apply Nat.le_refl|]. intros i Hi. left. now apply G.
  - destruct Hs as (p & _ & ->).
    destruct (httpCallback_frame r e (remove_call id (set_clock t w)))
      as (_ & _ & _ & _ & En & _).
    rewrite En. split; [apply Nat.le_refl|].
    destruct (httpCallback_shape r e (remove_call id (set_clock t w)))
      as (ce & bu & ->).
    intros i Hi. left.
    apply in_map_iff in Hi as [x [<- Hx]].
    apply release_slot_timers in Hx. now apply in_map.
  - destruct Hs as (_ & ->).
    destruct (deviceInfoCallback_shape r (remove_call id (set_clock t w)))
      as [g ->].
    split; [apply Nat.le_refl | now left].
Qed.

(** A handle that has been issued and is not armed never fires again. *)
Lemma disarmed_never_fires (cfg : Config) (tw : nat) (tr : list (Z * Event))
  (w w' : World) :
  (tw < nextId w)%nat -> ~ In tw (map t_id (timers w)) ->
  run cfg w tr = Some w' -> never_fires tw tr = true.
Proof.
  revert w; induction tr as [|[t e] tr IH]; intros w Hlt Hni H; cbn in H;
    [reflexivity|].
  destruct (step cfg w t e) as [w1|] eqn:Hs; [|discriminate].
  cbn. apply andb_true_iff. split.
  - apply negb_true_iff. destruct e as [| id | |]; try reflexivity. cbn.
    destruct (Nat.eqb_spec id tw) as [->|ne]; [|reflexivity].
    exfalso. apply step_inv in Hs as [_ (tm & Hf & _)].
    apply find_timer_In in Hf as [Hin Hid]. apply Hni.
    rewrite <- Hid. now apply in_map.
  - destruct (timers_step cfg w t e w1 Hs) as [Hn Ht].
    apply (IH w1); [lia | | exact H].
    intros Hin. destruct (Ht tw Hin) as [Hc | Hc]; [contradiction | lia].
Qed.

Lemma accept_inv (cfg : Config) (w : World) (ta : Z) (ev : Z)
  (res : option ScanResult) (nonce : Z) (w1 : World) :
  step cfg w ta (Advertisement ev res nonce) = Some w1 ->
  sends w1 <> sends w ->
  busy w = false /\ busy w1 = true /\ busyTimer w1 = Some (nextId w) /\
  timers w1
  = (timers w ++ [mkTimer (nextId w) (ta + 10000) 10000 false CbResetBusy])%list /\
  consecutiveErrors w1 = consecutiveErrors w.
Proof.
  intros Hs Hne. apply step_inv in Hs as [_ ->]. cbv zeta in Hne |- *.
  destruct (onBle_cases cfg ev res nonce (set_clock ta w))
    as [E | (r & _ & [E | (Hb & _ & E)])]; rewrite E in Hne |- *;
    try (exfalso; apply Hne; reflexivity).
  match goal with
  | |- context [start_delivery ?c ?m ?r ?d ?n ?w1] =>
      destruct (start_delivery_shape c m r d n w1) as [p ->]
  end.
  repeat split. exact Hb.
Qed.

Lemma watchdog_fire (cfg : Config) (w : World) (t : Z) (tw : nat)
  (entry : TimerEntry) :
  find_timer tw w = Some entry -> t_cb entry = CbResetBusy ->
  (step cfg w t (TimerFired tw) <> None <-> clock w <= t /\ t_due entry <= t) /\
  forall w3, step cfg w t (TimerFired tw) = Some w3 ->
             w3 = resetBusy (fire entry (set_clock t w)).
Proof.
  intros Hf Hcb. unfold step.
  change (find_timer tw (set_clock t w)) with (find_timer tw w). rewrite Hf, Hcb.
  destruct (Z.ltb_spec t (clock w)) as [H1|H1].
  - split; [|discriminate]. split; [congruence | lia].
  - destruct (Z.ltb_spec t (t_due entry)) as [H2|H2].
    + split; [|discriminate]. split; [congruence | lia].
    + split; [|congruence]. split; [intros _; lia | discriminate].
Qed.

(** C3, as amended.  When a send is accepted, a one-shot watchdog is armed
    for 10000 ms after the acceptance.  As long as no completion callback
    runs, the slot stays busy with that watchdog armed and the error count
    unchanged; the watchdog can fire from the timeout on and not before;
    when it fires, busy becomes false, busyTimer becomes null, no watchdog
    remains armed, exactly one failure is counted, and that watchdog never
    fires again. *)
Theorem watchdog_recovery :
  forall cfg t0 w ta ev res nonce w1,
    reachable cfg t0 w ->
    step cfg w ta (Advertisement ev res nonce) = Some w1 ->
    sends w1 <> sends w ->
    let tw := nextId w in
    let entry := mkTimer tw (ta + 10000) 10000 false CbResetBusy in
    busy w1 = true /\ busyTimer w1 = Some tw /\
    find_timer tw w1 = Some entry /\
    forall tr w2,
      run cfg w1 tr = Some w2 ->
      no_completion tr = true -> never_fires tw tr = true ->
      (busy w2 = true /\ busyTimer w2 = Some tw /\
       find_timer tw w2 = Some entry /\
       consecutiveErrors w2 = consecutiveErrors w1) /\
      forall t,
        (step cfg w2 t (TimerFired tw) <> None <->
         clock w2 <= t /\ ta + 10000 <= t) /\
        forall w3,
          step cfg w2 t (TimerFired tw) = Some w3 ->
          busy w3 = false /\ busyTimer w3 = None /\ watchdogs w3 = [] /\
          consecutiveErrors w3 = consecutiveErrors w1 + 1 /\
          forall tr' w4, run cfg w3 tr' = Some w4 -> never_fires tw tr' = true.
Proof.
  intros cfg t0 w ta ev res nonce w1 Hreach Hs Hne tw entry.
  pose proof (reachable_wf cfg t0 w Hreach) as Hwf.
  pose proof (wf_step cfg w ta _ w1 Hwf Hs) as Hwf1.
  destruct (accept_inv cfg w ta ev res nonce w1 Hs Hne)
    as (Hb & Hb1 & Hbt1 & Ht1 & Hc1).
  assert (Hf1 : find_timer tw w1 = Some entry).
  { unfold find_timer. rewrite Ht1, find_app_l.
    rewrite find_none_fresh.
    - cbn. now rewrite Nat.eqb_refl.
    - intros Hin. apply in_map_iff in Hin as [x [E Hx]].
      pose proof (wf_timers_fresh w Hwf x Hx). subst tw. lia. }
  split; [exact Hb1|]. split; [exact Hbt1|]. split; [exact Hf1|].
  intros tr w2 Hrun Hnc Hnf.
  destruct (waiting_run cfg tr w1 w2 tw entry Hwf1 Hb1 Hbt1 Hf1 Hnc Hnf Hrun)
    as (Hwf2 & Hb2 & Hbt2 & Hf2 & Hc2).
  split; [repeat split; assumption|].
  intros t.
  destruct (watchdog_fire cfg w2 t tw entry Hf2 eq_refl) as [Hen Hres].
  split; [exact Hen|].
  intros w3 Hs3.
  pose proof (wf_step cfg w2 t _ w3 Hwf2 Hs3) as Hwf3.
  specialize (Hres w3 Hs3).
  destruct (resetBusy_frame (fire entry (set_clock t w2)))
    as (_ & _ & _ & Et & _ & En & _ & Eb & Ey).
  destruct (fire_frame entry (set_clock t w2))
    as (_ & _ & Fn & _ & _ & _ & _ & _ & _ & Fc & _).
  rewrite <- Hres in Et, En, Eb, Ey.
  split; [exact Ey|]. split; [exact Eb|]. split; [|split].
  - rewrite (wf_slot w3 Hwf3), Eb. reflexivity.
  - destruct (resetBusy_failure (fire entry (set_clock t w2))) as (Hce & _).
    rewrite <- Hres in Hce. rewrite Hce, Fc.
    change (consecutiveErrors (set_clock t w2)) with (consecutiveErrors w2).
    lia.
  - intros tr' w4 Hrun'.
    apply (disarmed_never_fires cfg tw tr' w3 w4); [| |exact Hrun'].
    + rewrite En, Fn. change (nextId (set_clock t w2)) with (nextId w2).
      apply find_timer_In in Hf2 as [Hin _].
      exact (wf_timers_fresh w2 Hwf2 entry Hin).
    + rewrite Et, fire_timers. cbn [t_repeat entry]. rewrite app_nil_r.
      intros Hin. apply in_map_iff in Hin as [x [E Hx]].
      apply filter_In in Hx as [_ Hx]. cbn [t_id entry] in Hx.
      rewrite E, Nat.eqb_refl in Hx. discriminate.
Qed.

Lemma watchdog_recovery_witness :
  let w := started default_config epoch in
  let w1 := world_after [(epoch + 1000, adv_from "aa:bb:cc:dd:ee:01")] in
  let entry := mkTimer 2 (epoch + 1000 + 10000) 10000 false CbResetBusy in
  busy w1 = true /\ busyTimer w1 = Some 2%nat /\
  find_timer 2 w1 = Some entry /\
  forall tr w2,
    run default_config w1 tr = Some w2 ->
    no_completion tr = true -> never_fires 2 tr = true ->
    (busy w2 = true /\ busyTimer w2 = Some 2%nat /\
     find_timer 2 w2 = Some entry /\
     consecutiveErrors w2 = consecutiveErrors w1) /\
    forall t,
      (step default_config w2 t (TimerFired 2) <> None <->
       clock w2 <= t /\ epoch + 1000 + 10000 <= t) /\
      forall w3,
        step default_config w2 t (TimerFired 2) = Some w3 ->
        busy w3 = false /\ busyTimer w3 = None /\ watchdogs w3 = [] /\
        consecutiveErrors w3 = consecutiveErrors w1 + 1 /\
        forall tr' w4, run default_config w3 tr' = Some w4 ->
                       never_fires 2 tr' = true.
Proof.
  intros w w1 entry.
  apply (watchdog_recovery default_config epoch w (epoch + 1000)
           (SCAN_RESULT default_config)
           (Some (mkScanResult (Some "aa:bb:cc:dd:ee:01")
                               (Some victron_payload) (-67)))
           12345 w1).
  - exists []. reflexivity.
  - vm_compute. reflexivity.
  - vm_compute. discriminate.
Defined.

(** C3, as stated, fails: the send of call 5 is accepted with watchdog 4;
    the late completion of call 3 cancels that watchdog; the completion of
    call 5 has not run, and watchdog 4 is not armed, has not fired and
    never fires. *)
Lemma watchdog_cancelled_by_late_completion :
  option_map (fun w => (sends w, call_pending 5 w, mem_nat 4 (fired w),
                        find_timer 4 w, busy w))
    (run default_config (started default_config epoch)
       (firstn 4 stale_completion_trace))
  = Some ([(3%nat, 2%nat); (5%nat, 4%nat)], true, false, None, false) /\
  step default_config cancelled_world (epoch + 100000) (TimerFired 4) = None /\
  forall tr w', run default_config cancelled_world tr = Some w' ->
                never_fires 4 tr = true.
Proof.
  split; [vm_compute; reflexivity|]. split; [vm_compute; reflexivity|].
  intros tr w'. apply disarmed_never_fires.
  - vm_compute. lia.
  - vm_compute. intros [H | []]. discriminate.
Qed.

(** * Further properties of the script *)

(** ** The encoding [hex] *)

Lemma byte_hex_shape (c : ascii) :
  exists h l, byte_hex_spec (JS.charCode c) = String h (String l EmptyString) /\
              is_upper_hex h = true /\ is_upper_hex l = true /\
              JS.fromCharCode (16 * digit_value h + digit_value l) = c.
Proof.
  destruct c as [[] [] [] [] [] [] [] []];
    eexists; eexists; (split; [reflexivity|]); repeat split; reflexivity.
Qed.

Lemma hex_cons (c : ascii) (p : string) :
  hex (String c p) = byte_hex_spec (JS.charCode c) ++ hex p.
Proof. now rewrite !hex_is_payload_hex. Qed.

Lemma hex_decode (p : string) :
  JS.len (hex p) = 2 * JS.len p /\
  all_chars is_upper_hex (hex p) = true /\
  unhex (hex p) = p.
Proof.
  induction p as [|c p (IH1 & IH2 & IH3)]; [repeat split|].
  rewrite hex_cons.
  destruct (byte_hex_shape c) as (h & l & -> & Hh & Hl & Hv).
  cbn [append]. split; [|split].
  - unfold JS.len in *. cbn [String.length]. lia.
  - cbn [all_chars]. now rewrite Hh, Hl, IH2.
  - cbn [unhex]. now rewrite Hv, IH3.
Qed.

(** X1. The encoding of a payload has two characters per byte, each one
    of 0-9 or A-F, and reading the digits back gives the payload; so two
    payloads with the same encoding are the same payload. *)
Theorem hex_faithful :
  forall p : string,
    JS.len (hex p) = 2 * JS.len p /\
    all_chars is_upper_hex (hex p) = true /\
    unhex (hex p) = p /\
    forall q, hex q = hex p -> q = p.
Proof.
  intros p. destruct (hex_decode p) as (H1 & H2 & H3).
  split; [exact H1|]. split; [exact H2|]. split; [exact H3|].
  intros q E. destruct (hex_decode q) as (_ & _ & Hq). congruence.
Qed.

Lemma hex_faithful_witness :
  unhex (hex victron_payload) = victron_payload /\
  payload_FFAA01 = payload_FFAA01.
Proof.
  destruct (hex_faithful payload_FFAA01) as (_ & _ & _ & Hinj).
  destruct (hex_faithful victron_payload) as (_ & _ & Hback & _).
  split; [exact Hback | apply Hinj; reflexivity].
Defined.

(** ** The filter [hasMfg] *)

Lemma le16_hex_low16 (id : Z) :
  le16_hex_spec (id mod 65536) = le16_hex_spec id.
Proof.
  unfold le16_hex_spec.
  assert (E1 : (id mod 65536) mod 256 = id mod 256).
  { rewrite (Z.mod_eq id 65536) by lia.
    replace (id - 65536 * (id / 65536))
      with (id + (- (256 * (id / 65536))) * 256) by lia.
    apply Z.mod_add; lia. }
  assert (E2 : ((id mod 65536) / 256) mod 256 = (id / 256) mod 256).
  { rewrite (Z.mod_eq id 65536) by lia.
    replace (id - 65536 * (id / 65536))
      with (id + (- (256 * (id / 65536))) * 256) by lia.
    rewrite Z.div_add by lia.
    replace (- (256 * (id / 65536))) with ((- (id / 65536)) * 256) by lia.
    apply Z.mod_add; lia. }
  now rewrite E1, E2.
Qed.

Lemma hasMfg_loop_ext (d : string) (f : Z -> Z) (ids : list Z) :
  (forall id, mfg_pattern (f id) = mfg_pattern id) ->
  hasMfg_loop d (map f ids) = hasMfg_loop d ids.
Proof.
  intros H. induction ids as [|id ids IH]; cbn [map hasMfg_loop]; [reflexivity|].
  now rewrite H, IH.
Qed.

(** X2. Only the low 16 bits of an id count: an allow-list and the list
    of its ids reduced modulo 65536 let the same encodings through (0x10499 acts
    as 0x0499, -1 as 0xFFFF). *)
Theorem hasMfg_ids_modulo_65536 :
  forall (d : string) (ids : list Z),
    hasMfg d (map (fun id => id mod 65536) ids) = hasMfg d ids.
Proof.
  intros d ids. unfold hasMfg. rewrite length_map.
  destruct (Z.of_nat (List.length ids) =? 0); [reflexivity|].
  apply hasMfg_loop_ext. intros id.
  now rewrite !mfg_pattern_spec, le16_hex_low16.
Qed.

Lemma append_length (a b : string) :
  String.length (a ++ b) = (String.length a + String.length b)%nat.
Proof. induction a as [|x a IH]; cbn; [reflexivity | now rewrite IH]. Qed.

Lemma mfg_pattern_length (id : Z) : String.length (mfg_pattern id) = 6%nat.
Proof. rewrite mfg_pattern_spec. reflexivity. Qed.

(** X3. With a non-empty allow-list a payload of fewer than three bytes
    never qualifies: the pattern searched for is six digits long. *)
Theorem hasMfg_short_payload :
  forall (p : string) (ids : list Z),
    ids <> [] -> JS.len p < 3 -> hasMfg (hex p) ids = false.
Proof.
  intros p ids Hne Hlen. unfold hasMfg.
  destruct ids as [|i ids]; [congruence|].
  destruct (Z.eqb_spec (Z.of_nat (List.length (i :: ids))) 0) as [E|_];
    [cbn in E; lia|].
  destruct (hasMfg_loop (hex p) (i :: ids)) eqn:H; [|reflexivity].
  exfalso. apply hasMfg_loop_spec in H as (id & _ & pre & post & E).
  apply (f_equal String.length) in E.
  rewrite !append_length, mfg_pattern_length in E.
  destruct (hex_decode p) as (Hl & _). unfold JS.len in *. lia.
Qed.

Lemma hasMfg_short_payload_witness :
  hasMfg (hex "AB") [0x0499; 0x4241] = false.
Proof.
  apply hasMfg_short_payload; [discriminate | vm_compute; reflexivity].
Defined.

(** ** Address formatting *)

Lemma substring_skip (pre rest : string) (n : nat) :
  String.substring (String.length pre) n (pre ++ rest) = String.substring 0 n rest.
Proof. induction pre as [|c pre IH]; cbn; [reflexivity | exact IH]. Qed.

Lemma group_pairs_done (fuel : nat) (m : string) (i : Z) (fm : string) :
  JS.len m <= i -> group_pairs fuel m i fm = fm.
Proof.
  intros H. destruct fuel; cbn [group_pairs]; [reflexivity|].
  destruct (Z.ltb_spec i (JS.len m)); [lia | reflexivity].
Qed.

Lemma group_pairs_pairs (fuel : nat) (m pre rest fm : string) :
  m = pre ++ rest -> (String.length rest <= fuel)%nat ->
  group_pairs fuel m (JS.len pre) fm
  = fm ++ match rest with
          | EmptyString => EmptyString
          | String _ _ => (if JS.len pre >? 0 then ":" else EmptyString)
                          ++ pairs rest
          end.
Proof.
  revert pre rest fm. induction fuel as [|fuel IH]; intros pre rest fm Hm Hf.
  - destruct rest; [|cbn in Hf; lia]. cbn. now rewrite append_nil_r.
  - cbn [group_pairs].
    assert (Hlen : JS.len m = JS.len pre + JS.len rest).
    { subst m. unfold JS.len. rewrite append_length. lia. }
    destruct rest as [|a r1].
    + destruct (Z.ltb_spec (JS.len pre) (JS.len m)) as [H|H];
        [unfold JS.len in *; cbn in *; lia|].
      now rewrite append_nil_r.
    + destruct (Z.ltb_spec (JS.len pre) (JS.len m)) as [H|H];
        [|unfold JS.len in *; cbn in *; lia].
      unfold JS.substr.
      replace (Z.to_nat (JS.len pre)) with (String.length pre)
        by (unfold JS.len; lia).
      rewrite Hm at 2. rewrite substring_skip.
      change (Z.to_nat 2) with 2%nat.
      destruct r1 as [|b r2].
      * cbn [String.substring].
        rewrite group_pairs_done
          by (rewrite Hlen; unfold JS.len; cbn [String.length]; lia).
        cbn [pairs]. destruct (JS.len pre >? 0); cbn [append];
          now rewrite ?append_assoc.
      * cbn [String.substring].
        replace (JS.len pre + 2)
          with (JS.len (pre ++ String a (String b EmptyString)))
          by (unfold JS.len; rewrite append_length; cbn [String.length]; lia).
        rewrite (IH (pre ++ String a (String b EmptyString)) r2).
        -- replace (JS.len (pre ++ String a (String b EmptyString)) >? 0)
             with true.
           ++ destruct (JS.len pre >? 0); destruct r2 as [|c r3];
                cbn [pairs append]; rewrite ?append_assoc; cbn [append];
                rewrite ?append_nil_r; reflexivity.
           ++ symmetry. apply Z.gtb_lt. unfold JS.len.
              rewrite append_length. cbn [String.length]. lia.
        -- subst m. rewrite append_assoc. reflexivity.
        -- cbn [String.length] in Hf. lia.
Qed.

(** The loop builds the colon-separated pairs of its input. *)
Lemma colon_pairs_pairs (m : string) : colon_pairs m = pairs m.
Proof.
  unfold colon_pairs.
  change 0 with (JS.len EmptyString).
  rewrite (group_pairs_pairs (String.length m) m EmptyString m EmptyString);
    [|reflexivity | apply Nat.le_refl].
  destruct m; reflexivity.
Qed.

(** Induction two characters at a time. *)
Lemma pairs_ind (P : string -> Prop) :
  P EmptyString -> (forall a, P (String a EmptyString)) ->
  (forall a b, P (String a (String b EmptyString))) ->
  (forall a b c r, P (String c r) -> P (String a (String b (String c r)))) ->
  forall s, P s.
Proof.
  intros H0 H1 H2 H3.
  assert (G : forall s, P s /\ forall a, P (String a s)).
  { induction s as [|c s [IH1 IH2]].
    - split; [exact H0 | exact H1].
    - split; [apply IH2|]. intros a. destruct s as [|d s].
      + apply H2.
      + apply H3. exact IH1. }
  intros s. apply G.
Qed.

Lemma upperChar_colon (c : ascii) : is_colon (JS.upperChar c) = is_colon c.
Proof. destruct c as [[] [] [] [] [] [] [] []]; reflexivity. Qed.

Lemma upperChar_idem (c : ascii) : JS.upperChar (JS.upperChar c) = JS.upperChar c.
Proof. destruct c as [[] [] [] [] [] [] [] []]; reflexivity. Qed.

Lemma toUpperCase_idem (s : string) :
  JS.toUpperCase (JS.toUpperCase s) = JS.toUpperCase s.
Proof.
  induction s as [|c s IH]; cbn; [reflexivity|].
  now rewrite upperChar_idem, IH.
Qed.

Lemma has_colon_upper (s : string) : has_colon (JS.toUpperCase s) = has_colon s.
Proof.
  induction s as [|c s IH]; cbn; [reflexivity|].
  now rewrite upperChar_colon, IH.
Qed.

Lemma pairs_upper (s : string) :
  JS.toUpperCase (pairs s) = pairs (JS.toUpperCase s).
Proof.
  induction s as [| a | a b | a b c r IH] using pairs_ind; try reflexivity.
  cbn [pairs JS.toUpperCase] in *. now rewrite IH.
Qed.

Lemma pairs_short (s : string) :
  (String.length s <= 2)%nat -> pairs s = s.
Proof.
  destruct s as [|a [|b [|c r]]]; try reflexivity. cbn. lia.
Qed.

Lemma has_colon_pairs (s : string) :
  has_colon (pairs s) = has_colon s || (3 <=? String.length s)%nat.
Proof.
  induction s as [| a | a b | a b c r IH] using pairs_ind;
    cbn [pairs has_colon String.length Nat.leb];
    rewrite ?orb_false_r; try reflexivity.
  change (is_colon ":") with true. cbn [orb]. now rewrite !orb_true_r.
Qed.

Lemma strip_pairs (s : string) :
  has_colon s = false -> strip_colons (pairs s) = s.
Proof.
  induction s as [| a | a b | a b c r IH] using pairs_ind; intros H.
  - reflexivity.
  - cbn in H |- *. rewrite orb_false_r in H. now rewrite H.
  - cbn in H |- *. apply orb_false_iff in H as [Ha H].
    rewrite orb_false_r in H. now rewrite Ha, H.
  - change (pairs (String a (String b (String c r))))
      with (String a (String b (String ":" (pairs (String c r))))).
    change (has_colon (String a (String b (String c r))))
      with (is_colon a || (is_colon b || has_colon (String c r))) in H.
    apply orb_false_iff in H as [Ha H]. apply orb_false_iff in H as [Hb H].
    cbn [strip_colons]. rewrite Ha, Hb. change (is_colon ":") with true.
    cbn iota. now rewrite (IH H).
Qed.

Lemma pairs_length (s : string) :
  s <> EmptyString ->
  JS.len (pairs s) = JS.len s + (JS.len s - 1) / 2.
Proof.
  induction s as [| a | a b | a b c r IH] using pairs_ind; intros Hne.
  - congruence.
  - reflexivity.
  - reflexivity.
  - change (pairs (String a (String b (String c r))))
      with (String a (String b (String ":" (pairs (String c r))))).
    assert (H : String c r <> EmptyString) by discriminate.
    specialize (IH H). unfold JS.len in *.
    change (String.length (String a (String b (String c r))))
      with (S (S (String.length (String c r)))).
    cbn [String.length] in IH |- *.
    replace (Z.of_nat (S (S (S (String.length r)))) - 1)
      with (Z.of_nat (S (String.length r)) - 1 + 1 * 2) by lia.
    rewrite Z.div_add by lia. lia.
Qed.

Lemma indexOf_colon_from (s : string) (i : Z) :
  0 <= i -> (JS.indexOf_from s ":" i =? -1) = negb (has_colon s).
Proof.
  revert i. induction s as [|c s IH]; intros i Hi; cbn [JS.indexOf_from has_colon].
  - reflexivity.
  - cbn [String.prefix]. unfold is_colon.
    destruct (ascii_dec ":" c) as [<-|ne].
    + cbn. destruct s; cbn; apply Z.eqb_neq; lia.
    + replace (Ascii.eqb c ":") with false
        by (symmetry; apply Ascii.eqb_neq; congruence).
      cbn [orb]. apply IH. lia.
Qed.

Lemma normalize_addr_eq (a : string) :
  normalize_addr a
  = if has_colon a then JS.toUpperCase a else pairs (JS.toUpperCase a).
Proof.
  unfold normalize_addr, JS.indexOf. cbv zeta.
  rewrite indexOf_colon_from by lia.
  rewrite has_colon_upper, colon_pairs_pairs.
  now destruct (has_colon a).
Qed.

(** X4. The key [onBle] uses for a device does not depend on how the
    address is spelled: normalizing is idempotent and ignores case, and an
    address without separators gets the same key as its colon-separated
    spelling; removing the colons from the key gives back the upper-cased
    address. *)
Theorem normalize_addr_canonical :
  forall a : string,
    normalize_addr (normalize_addr a) = normalize_addr a /\
    normalize_addr (JS.toUpperCase a) = normalize_addr a /\
    (has_colon a = false ->
     normalize_addr (colon_pairs a) = normalize_addr a /\
     strip_colons (normalize_addr a) = JS.toUpperCase a).
Proof.
  intros a. split; [|split].
  - rewrite (normalize_addr_eq a). destruct (has_colon a) eqn:Hc.
    + rewrite normalize_addr_eq, has_colon_upper, Hc. apply toUpperCase_idem.
    + rewrite normalize_addr_eq, pairs_upper, toUpperCase_idem.
      rewrite has_colon_pairs, has_colon_upper, Hc. cbn [orb].
      destruct (Nat.leb_spec 3 (String.length (JS.toUpperCase a))) as [H|H];
        [reflexivity|].
      rewrite (pairs_short (JS.toUpperCase a)) by lia.
      apply pairs_short. lia.
  - rewrite !normalize_addr_eq, has_colon_upper, toUpperCase_idem. reflexivity.
  - intros Hc. rewrite !normalize_addr_eq, Hc, colon_pairs_pairs. split.
    + rewrite has_colon_pairs, Hc. cbn [orb].
      destruct (Nat.leb_spec 3 (String.length a)) as [H|H].
      * apply pairs_upper.
      * now rewrite (pairs_short a) by lia.
    + apply strip_pairs. now rewrite has_colon_upper.
Qed.

Lemma normalize_addr_canonical_witness :
  normalize_addr (colon_pairs "aabbccddeeff") = normalize_addr "aabbccddeeff" /\
  strip_colons (normalize_addr "aabbccddeeff") = JS.toUpperCase "aabbccddeeff".
Proof.
  apply (proj2 (proj2 (normalize_addr_canonical "aabbccddeeff"))).
  reflexivity.
Defined.

(** X5. The device-info callback stores a non-empty reported MAC as
    colon-separated pairs, in the case it was reported in: a colon is put
    after every two characters but the last group, whatever the characters
    are, so a MAC of n characters is stored in n + (n - 1) / 2 characters,
    and nothing else in the world changes.  For a MAC reported without
    colons, removing the colons from the stored string gives back the
    reported MAC.  A null result or an absent or empty MAC leaves the
    world as it is, so gwMac keeps its value. *)
Theorem deviceInfoCallback_gwMac :
  forall (r : option DeviceInfo) (w : World),
    (forall m, r = Some (mkDeviceInfo (Some m)) -> m <> EmptyString ->
       deviceInfoCallback r w = set_gwMac (pairs m) w /\
       JS.len (gwMac (deviceInfoCallback r w))
       = JS.len m + (JS.len m - 1) / 2 /\
       (has_colon m = false ->
        strip_colons (gwMac (deviceInfoCallback r w)) = m)) /\
    (r = None \/ r = Some (mkDeviceInfo None) \/
     r = Some (mkDeviceInfo (Some EmptyString)) ->
     deviceInfoCallback r w = w).
Proof.
  intros r w. split.
  - intros m -> Hne.
    assert (E : deviceInfoCallback (Some (mkDeviceInfo (Some m))) w
                = set_gwMac (pairs m) w).
    { unfold deviceInfoCallback. cbn [info_mac].
      destruct m as [|c m]; [congruence|].
      cbn [truthy]. unfold JS.len. cbn [String.length].
      destruct (Z.eqb_spec (Z.of_nat (S (String.length m))) 0); [lia|].
      cbn [negb]. now rewrite colon_pairs_pairs. }
    rewrite E. cbn [gwMac set_gwMac].
    split; [reflexivity|]. split; [now apply pairs_length | apply strip_pairs].
  - intros [-> | [-> | ->]]; reflexivity.
Qed.

Lemma deviceInfoCallback_gwMac_witness :
  let w := started default_config epoch in
  let r := Some (mkDeviceInfo (Some "A8032ABCDEF0")) in
  deviceInfoCallback r w = set_gwMac (pairs "A8032ABCDEF0") w /\
  JS.len (gwMac (deviceInfoCallback r w)) = 12 + (12 - 1) / 2 /\
  (has_colon "A8032ABCDEF0" = false ->
   strip_colons (gwMac (deviceInfoCallback r w)) = "A8032ABCDEF0").
Proof.
  intros w r.
  apply (proj1 (deviceInfoCallback_gwMac r w) "A8032ABCDEF0");
    [reflexivity | discriminate].
Defined.

(** A MAC reported with separators gets colons on top of its own. *)
Example reported_with_colons :
  gwMac (deviceInfoCallback (Some (mkDeviceInfo (Some "AA:BB:CC")))
           (started default_config epoch))
  = "AA::B:B::CC".
Proof. reflexivity. Qed.

(** ** Recording and sending *)

Lemma onBle_eligible (cfg : Config) (ev : Z) (r : ScanResult) (nonce : Z)
  (w : World) :
  ev = SCAN_RESULT cfg -> truthy (addr r) = true ->
  truthy (advData r) = true ->
  hasMfg (hex (str (advData r))) (MFG cfg) = true ->
  RATE_LIMIT_SEC cfg
  <= now_sec w - match store_get (normalize_addr (str (addr r))) (lastSent w) with
                 | Some v => v
                 | None => 0
                 end ->
  onBle cfg ev (Some r) nonce w
  = send cfg (normalize_addr (str (addr r))) (rssi r) (hex (str (advData r)))
         nonce
         (set_lastSent (store_set (normalize_addr (str (addr r))) (now_sec w)
                                  (lastSent w)) w).
Proof.
  intros Hev Ha Hd Hm Hrate.
  assert (Hne : (JS.len (hex (str (advData r))) =? 0) = false).
  { apply hex_nonempty. destruct (advData r); [exact Hd | discriminate]. }
  unfold onBle. rewrite Hev, Z.eqb_refl, Ha, Hd, Hne, Hm. cbn [negb orb].
  cbv zeta.
  match goal with
  | |- (if ?a <? ?b then _ else _) = _ => destruct (Z.ltb_spec a b) as [H|H]
  end; [lia | reflexivity].
Qed.

(** *** Reading a request body back *)

Lemma expect_app (lit s : string) : expect lit (lit ++ s) = Some s.
Proof.
  induction lit as [|c lit IH]; [reflexivity|].
  cbn [expect append]. now rewrite Ascii.eqb_refl.
Qed.

Lemma expect_self (lit : string) : expect lit lit = Some EmptyString.
Proof.
  induction lit as [|c lit IH]; [reflexivity|].
  cbn [expect]. now rewrite Ascii.eqb_refl.
Qed.

Lemma span_until_next (stop : ascii -> bool) (a rest : string) (c : ascii)
  (r : string) :
  rest = String c r -> stop c = true ->
  all_chars (fun x => negb (stop x)) a = true ->
  span_until stop (a ++ rest) = (a, rest).
Proof.
  intros -> Hc. induction a as [|x a IH]; cbn [all_chars append span_until].
  - now rewrite Hc.
  - intros H. apply andb_true_iff in H as [Hx Ha].
    apply negb_true_iff in Hx. now rewrite Hx, (IH Ha).
Qed.

Lemma all_chars_impl (p q : ascii -> bool) (s : string) :
  (forall c, p c = true -> q c = true) ->
  all_chars p s = true -> all_chars q s = true.
Proof.
  intros Hpq. induction s as [|c s IH]; [reflexivity|].
  cbn [all_chars]. intros H. apply andb_true_iff in H as [Hc Hs].
  now rewrite (Hpq c Hc), (IH Hs).
Qed.

Lemma upper_hex_no_dq (c : ascii) : is_upper_hex c = true -> negb (is_dq c) = true.
Proof.
  destruct c as [[] [] [] [] [] [] [] []]; vm_compute; congruence.
Qed.

(** The encoded payload never holds a double quote. *)
Lemma hex_no_dq (p : string) : no_dq (hex p) = true.
Proof.
  unfold no_dq. apply (all_chars_impl is_upper_hex); [exact upper_hex_no_dq|].
  apply hex_decode.
Qed.

Lemma uint_digits (d : Decimal.uint) :
  all_chars is_number_char (NilEmpty.string_of_uint d) = true.
Proof. induction d; cbn [NilEmpty.string_of_uint all_chars]; try exact IHd; reflexivity. Qed.

Lemma toStringDec_digits (z : Z) :
  all_chars is_number_char (JS.toStringDec z) = true.
Proof.
  unfold JS.toStringDec, NilZero.string_of_int.
  destruct (Z.to_int z) as [d|d].
  - unfold NilZero.string_of_uint. destruct d; try reflexivity;
      apply (uint_digits (_ d)).
  - cbn [all_chars]. unfold NilZero.string_of_uint. destruct d; try reflexivity;
      apply (uint_digits (_ d)).
Qed.

Lemma toStringDec_parse (z : Z) :
  option_map Z.of_int (NilZero.int_of_string (JS.toStringDec z)) = Some z.
Proof.
  unfold JS.toStringDec. rewrite NilZero.isi.
  - cbn [option_map]. now rewrite DecimalZ.of_to.
  - destruct z; cbn; try discriminate;
      intros E; injection E as E; now apply DecimalPos.Unsigned.to_uint_nonnil in E.
  - destruct z; cbn; try discriminate;
      intros E; injection E as E; now apply DecimalPos.Unsigned.to_uint_nonnil in E.
Qed.

Lemma read_number_next (z : Z) (rest : string) (c : ascii) (r : string) :
  rest = String c r -> is_number_char c = false ->
  read_number (JS.toStringDec z ++ rest) = Some (z, rest).
Proof.
  intros Hr Hc. unfold read_number.
  rewrite (span_until_next _ (JS.toStringDec z) rest c r Hr).
  - pose proof (toStringDec_parse z) as P.
    destruct (NilZero.int_of_string (JS.toStringDec z)); [|discriminate].
    cbn [option_map] in P. now injection P as ->.
  - now rewrite Hc.
  - apply (all_chars_impl is_number_char); [|apply toStringDec_digits].
    intros x Hx. now rewrite Hx.
Qed.

Lemma read_string_next (v rest : string) :
  no_dq v = true -> read_string (quoted v ++ rest) = Some (v, rest).
Proof.
  intros Hv. unfold read_string, quoted.
  rewrite !append_assoc, expect_app.
  rewrite (span_until_next is_dq v (dq ++ rest) (ascii_of_nat 34) rest
             eq_refl eq_refl Hv).
  now rewrite expect_app.
Qed.

Lemma post_body_layout (gw m : string) (rssi ts nonce : Z) (data : string) :
  post_body gw m rssi ts nonce data
  = body_open ++ JS.toStringDec ts
    ++ key_nonce ++ JS.toStringDec nonce
    ++ key_gw_mac ++ quoted gw
    ++ key_tags ++ quoted m
    ++ key_rssi ++ JS.toStringDec rssi
    ++ key_tag_timestamp ++ JS.toStringDec ts
    ++ key_data ++ quoted data ++ body_close.
Proof.
  unfold post_body, body_open, key_nonce, key_gw_mac, key_tags, key_rssi,
    key_tag_timestamp, key_data, body_close.
  cbv zeta. rewrite !append_assoc. reflexivity.
Qed.

(** Reading back the body [send] builds gives the fields it was built
    from, as long as neither MAC holds a double quote. *)
Lemma read_post_body (gw m : string) (rssi ts nonce : Z) (p : string) :
  no_dq gw = true -> no_dq m = true ->
  read_body (post_body gw m rssi ts nonce (hex p))
  = Some (mkTelemetry ts nonce gw m rssi ts (hex p)).
Proof.
  intros Hgw Hm. rewrite post_body_layout. unfold read_body.
  rewrite expect_app.
  erewrite (read_number_next ts); [|reflexivity|reflexivity].
  rewrite expect_app.
  erewrite (read_number_next nonce); [|reflexivity|reflexivity].
  rewrite expect_app.
  rewrite (read_string_next gw _ Hgw), expect_app.
  rewrite (read_string_next m _ Hm), expect_app.
  erewrite (read_number_next rssi); [|reflexivity|reflexivity].
  rewrite expect_app.
  erewrite (read_number_next ts); [|reflexivity|reflexivity].
  rewrite expect_app.
  rewrite (read_string_next (hex p) _ (hex_no_dq p)).
  now rewrite expect_self.
Qed.

(** X6. A qualifying advertisement of an eligible device is recorded in
    lastSent before [send] decides.  While the slot is busy or the cooldown
    is active the record is all that happens: no call is issued and no
    timer armed, the packet is lost and the device is rate-limited all the
    same.  Otherwise one HTTP.POST is issued, to the configured URL with a
    5 second timeout and content type application/json.  Its body is the
    text [send] concatenates, and read back field by field in the
    documented layout it yields the second of the dispatch as both
    timestamps, the nonce, the gateway MAC, the device key as the one tag,
    the RSSI and the encoded payload, provided neither MAC holds a double
    quote (the encoded payload never does).  The model takes the clock
    reading of the dispatch for the Date.now() of [onBle] and that of
    [send], so the second recorded in lastSent and the second in the body
    are the same number here. *)
Theorem onBle_records_then_sends :
  forall cfg ev r nonce w,
    ev = SCAN_RESULT cfg -> truthy (addr r) = true ->
    truthy (advData r) = true ->
    hasMfg (hex (str (advData r))) (MFG cfg) = true ->
    let m := normalize_addr (str (addr r)) in
    let d := hex (str (advData r)) in
    RATE_LIMIT_SEC cfg
    <= now_sec w - match store_get m (lastSent w) with
                   | Some v => v
                   | None => 0
                   end ->
    let w' := onBle cfg ev (Some r) nonce w in
    lastSent w' = store_set m (now_sec w) (lastSent w) /\
    store_get m (lastSent w') = Some (now_sec w) /\
    (busy w = true \/ backoffUntil w > now_sec w ->
     w' = set_lastSent (store_set m (now_sec w) (lastSent w)) w) /\
    (busy w = false -> backoffUntil w <= now_sec w ->
     busy w' = true /\ currentMac w' = m /\
     calls w'
     = (calls w ++
        [(S (nextId w),
          HTTP_POST (mkPost (URL cfg)
                       (post_body (gwMac w) m (rssi r) (now_sec w) nonce d)
                       "application/json" 5))])%list /\
     (no_dq (gwMac w) = true -> no_dq m = true ->
      read_body (post_body (gwMac w) m (rssi r) (now_sec w) nonce d)
      = Some (mkTelemetry (now_sec w) nonce (gwMac w) m (rssi r)
                          (now_sec w) d))).
Proof.
  intros cfg ev r nonce w Hev Ha Hd Hm m d Hrate w'.
  assert (E : w' = send cfg m (rssi r) d nonce
                     (set_lastSent (store_set m (now_sec w) (lastSent w)) w))
    by now apply onBle_eligible.
  assert (L : lastSent w' = store_set m (now_sec w) (lastSent w))
    by (rewrite E; apply send_lastSent).
  split; [exact L|]. split; [|split].
  - rewrite L, store_get_set, String.eqb_refl. reflexivity.
  - intros Hblock. rewrite E. unfold send.
    change (busy (set_lastSent (store_set m (now_sec w) (lastSent w)) w))
      with (busy w).
    destruct (busy w) eqn:Hb; [reflexivity|]. cbv zeta.
    destruct Hblock as [Hx | Hx]; [discriminate|].
    change (backoffUntil (set_lastSent (store_set m (now_sec w) (lastSent w)) w))
      with (backoffUntil w).
    change (now_sec (set_lastSent (store_set m (now_sec w) (lastSent w)) w))
      with (now_sec w).
    destruct (Z.gtb_spec (backoffUntil w) (now_sec w)); [reflexivity | lia].
  - intros Hb Hbo. rewrite E. unfold send.
    change (busy (set_lastSent (store_set m (now_sec w) (lastSent w)) w))
      with (busy w).
    rewrite Hb. cbv zeta.
    change (backoffUntil (set_lastSent (store_set m (now_sec w) (lastSent w)) w))
      with (backoffUntil w).
    change (now_sec (set_lastSent (store_set m (now_sec w) (lastSent w)) w))
      with (now_sec w).
    destruct (Z.gtb_spec (backoffUntil w) (now_sec w)); [lia|].
    split; [|split; [|split]]; [destruct w; reflexivity ..|].
    intros Hg Hm'. now apply read_post_body.
Qed.

Lemma onBle_records_then_sends_witness :
  let w := world_after [(epoch + 1000, adv_from "aa:bb:cc:dd:ee:01")] in
  let r := mkScanResult (Some "aa:bb:cc:dd:ee:02") (Some victron_payload) (-70) in
  let w' := onBle default_config 2 (Some r) 99 w in
  store_get "AA:BB:CC:DD:EE:02" (lastSent w') = Some (now_sec w) /\
  (busy w = true \/ backoffUntil w > now_sec w ->
   w' = set_lastSent (store_set "AA:BB:CC:DD:EE:02" (now_sec w) (lastSent w)) w).
Proof.
  intros w r w'.
  destruct (onBle_records_then_sends default_config 2 r 99 w)
    as (_ & H2 & H3 & _); try reflexivity.
  - vm_compute. discriminate.
  - split; [exact H2 | exact H3].
Defined.

(** The body of the first request of the delivery scenario, read back. *)
Example first_body_read_back :
  let w := world_after [(epoch + 1000, adv_from "aa:bb:cc:dd:ee:01")] in
  match rev (calls w) with
  | (_, HTTP_POST p) :: _ => read_body (p_body p)
  | _ => None
  end
  = Some (mkTelemetry 1700000001 12345 (gwMac w) "AA:BB:CC:DD:EE:01"
                      (-67) 1700000001 (hex victron_payload)).
Proof. vm_compute. reflexivity. Qed.

Lemma store_set_In (k m : string) (v x : Z) (st : Store) :
  In (k, v) (store_set m x st) -> (k, v) = (m, x) \/ In (k, v) st.
Proof.
  induction st as [|[k' v'] st IH]; cbn.
  - intros [E | []]. left. now symmetry.
  - destruct (String.eqb m k'); cbn.
    + intros [E | H]; [left; now symmetry | right; now right].
    + intros [E | H]; [right; now left|].
      destruct (IH H) as [E | H']; [now left | right; now right].
Qed.

Lemma store_set_length (m : string) (x : Z) (st : Store) :
  (List.length st <= List.length (store_set m x st) <= S (List.length st))%nat.
Proof.
  induction st as [|[k' v'] st IH]; cbn; [lia|].
  destruct (String.eqb m k'); cbn; lia.
Qed.

Lemma filter_length_le {A : Type} (f : A -> bool) (l : list A) :
  (List.length (filter f l) <= List.length l)%nat.
Proof.
  induction l as [|x l IH]; cbn; [lia|]. destruct (f x); cbn; lia.
Qed.

(** X7. Who writes lastSent.  A completion, the device-info callback and
    the watchdog timer leave it untouched, so a failed send does not take
    back the record of its device.  An advertisement changes at most the
    entry of the advertising device, setting it to the current second, and
    adds at most one entry.  The cleanup timer only removes entries: what
    remains is a selection of the old entries by key, in their order and
    with the timestamps they had. *)
Theorem lastSent_writers :
  forall cfg w t e w',
    step cfg w t e = Some w' ->
    match e with
    | Advertisement ev res nonce =>
        (List.length (lastSent w') <= S (List.length (lastSent w)))%nat /\
        forall k, store_get k (lastSent w') = store_get k (lastSent w) \/
                  (exists r, res = Some r /\
                             k = normalize_addr (str (addr r))) /\
                  store_get k (lastSent w') = Some (t / 1000)
    | TimerFired id =>
        forall tm, find_timer id w = Some tm ->
          match t_cb tm with
          | CbResetBusy => lastSent w' = lastSent w
          | CbCleanupLastSent =>
              (exists keep : string -> bool,
                 lastSent w' = filter (fun e => keep (fst e)) (lastSent w)) /\
              (List.length (lastSent w') <= List.length (lastSent w))%nat /\
              forall k v, store_get k (lastSent w') = Some v ->
                          store_get k (lastSent w) = Some v
          end
    | HttpDone _ _ _ => lastSent w' = lastSent w
    | DeviceInfoDone _ _ => lastSent w' = lastSent w
    end.
Proof.
  intros cfg w t e w' Hs. apply step_inv in Hs as [_ Hs]. cbv zeta in Hs.
  destruct e as [ev res nonce | id | id r e | id r].
  - subst.
    destruct (onBle_cases cfg ev res nonce (set_clock t w))
      as [-> | (r & Hr & [E | (_ & _ & E)])].
    + split; [cbn; lia | now left].
    + rewrite E. cbn [lastSent set_lastSent set_clock]. split.
      * apply store_set_length.
      * intros k. rewrite store_get_set.
        destruct (String.eqb_spec k (normalize_addr (str (addr r))));
          [|now left].
        right. split; [now exists r | reflexivity].
    + rewrite E.
      match goal with
      | |- context [start_delivery ?c ?m ?r ?d ?n ?w1] =>
          destruct (start_delivery_shape c m r d n w1) as [p ->]
      end.
      cbn [lastSent set_lastSent set_clock]. split.
      * apply store_set_length.
      * intros k. rewrite store_get_set.
        destruct (String.eqb_spec k (normalize_addr (str (addr r))));
          [|now left].
        right. split; [now exists r | reflexivity].
  - destruct Hs as (tm & Hf & _ & Hs).
    change (find_timer id (set_clock t w)) with (find_timer id w) in Hf.
    intros tm' Hf'. rewrite Hf in Hf'. inversion Hf'; subst tm'.
    destruct (fire_frame tm (set_clock t w)) as (_ & _ & _ & _ & Fl & _).
    change (lastSent (set_clock t w)) with (lastSent w) in Fl.
    destruct (t_cb tm).
    + subst.
      destruct (resetBusy_frame (fire tm (set_clock t w)))
        as (_ & _ & _ & _ & El & _).
      now rewrite El, Fl.
    + unfold cleanupLastSent in Hs.
      destruct (cleanup_store _ _ _) as [st|] eqn:E; [|discriminate].
      inversion Hs; subst. apply cleanup_store_shape in E as [rk ->].
      cbn [lastSent set_lastSent]. rewrite Fl. split; [|split].
      * now exists (fun k => negb (mem_str k rk)).
      * apply filter_length_le.
      * intros k v. rewrite store_get_filter.
        destruct (mem_str k rk); [discriminate | trivial].
  - destruct Hs as (p & _ & ->).
    now destruct (httpCallback_frame r e (remove_call id (set_clock t w)))
      as (_ & _ & _ & El & _).
  - destruct Hs as (_ & ->).
    now destruct (deviceInfoCallback_shape r (remove_call id (set_clock t w)))
      as [g ->].
Qed.

Lemma lastSent_writers_witness :
  let w := world_after [(epoch + 1000, adv_from "aa:bb:cc:dd:ee:01")] in
  let w' := world_after [(epoch + 1000, adv_from "aa:bb:cc:dd:ee:01");
                         (epoch + 11000, TimerFired 2)] in
  lastSent w' = lastSent w.
Proof.
  intros w w'.
  apply (lastSent_writers default_config w (epoch + 11000)
           (TimerFired 2) w'
           ltac:(vm_compute; reflexivity)
           (mkTimer 2 (epoch + 11000) 10000 false CbResetBusy)).
  vm_compute. reflexivity.
Defined.

(** ** Cooldown *)

Lemma deliver_failure_busy (f : FailureSignal) (t : Z) (w : World) :
  busy (deliver_failure f t w) = false.
Proof.
  unfold deliver_failure. cbv zeta. destruct f as [|r e].
  - now destruct (resetBusy_frame (set_clock t w)) as (_ & _ & _ & _ & _ & _ & _ & _ & E).
  - now destruct (httpCallback_frame r e (set_clock t w))
      as (_ & _ & _ & _ & _ & _ & _ & E).
Qed.

(** X8. The cooldown window.  After a failure that brings the count of
    consecutive errors to k > 3 at second n, the slot is free and [send]
    declines exactly until second n + min(60, 5k): called before that it
    leaves the world untouched, called at or after it a delivery starts.
    The window is between 20 and 60 seconds long. *)
Theorem cooldown_window :
  forall cfg f t w m rssi d nonce t',
    genuine f -> consecutiveErrors w + 1 > 3 ->
    let w1 := deliver_failure f t w in
    let window := Z.min 60 ((consecutiveErrors w + 1) * 5) in
    20 <= window <= 60 /\
    (t' / 1000 < t / 1000 + window ->
     send cfg m rssi d nonce (set_clock t' w1) = set_clock t' w1) /\
    (t / 1000 + window <= t' / 1000 ->
     send cfg m rssi d nonce (set_clock t' w1)
     = start_delivery cfg m rssi d nonce (set_clock t' w1)).
Proof.
  intros cfg f t w m rssi d nonce t' Hg Hk w1 window.
  destruct (deliver_failure_effect f t w Hg) as [_ Hb]. specialize (Hb Hk).
  fold w1 in Hb. fold window in Hb.
  pose proof (deliver_failure_busy f t w) as Hy. fold w1 in Hy.
  split; [subst window; lia|].
  unfold send.
  change (busy (set_clock t' w1)) with (busy w1). rewrite Hy. cbv zeta.
  change (backoffUntil (set_clock t' w1)) with (backoffUntil w1).
  change (now_sec (set_clock t' w1)) with (t' / 1000). rewrite Hb.
  split; intros H;
    destruct (Z.gtb_spec (t / 1000 + window) (t' / 1000)); try reflexivity; lia.
Qed.

Lemma cooldown_window_witness :
  let w := world_after (firstn 7 backoff_trace) in
  let w1 := deliver_failure WatchdogExpired (epoch + 17000) w in
  20 <= Z.min 60 ((3 + 1) * 5) <= 60 /\
  send default_config "AA:BB:CC:DD:EE:05" (-60) "0201" 1
       (set_clock (epoch + 36000) w1)
  = set_clock (epoch + 36000) w1.
Proof.
  intros w w1.
  destruct (cooldown_window default_config WatchdogExpired (epoch + 17000) w
              "AA:BB:CC:DD:EE:05" (-60) "0201" 1 (epoch + 36000))
    as (H1 & H2 & _).
  - exact I.
  - vm_compute. reflexivity.
  - split; [exact H1|]. apply H2. vm_compute. reflexivity.
Defined.

Lemma outcome_cases (r : option HttpResponse) (e : Z) :
  is_failure r e \/ is_success r e.
Proof.
  unfold is_failure, is_success.
  destruct (Z.eq_dec e 0) as [->|ne]; [|left; now left].
  destruct r as [resp|]; [|left; now right].
  destruct (Z.eq_dec (code resp) 200) as [E|ne].
  - right. split; [reflexivity|]. now exists resp.
  - left. now right.
Qed.

(** What a dispatch does to the two backoff variables. *)
Lemma backoff_step (cfg : Config) (w : World) (t : Z) (e : Event) (w' : World) :
  step cfg w t e = Some w' ->
  (consecutiveErrors w' = consecutiveErrors w /\
   backoffUntil w' = backoffUntil w) \/
  (consecutiveErrors w' = 0 /\ backoffUntil w' = 0) \/
  (consecutiveErrors w' = consecutiveErrors w + 1 /\
   ((consecutiveErrors w + 1 <= 3 /\ backoffUntil w' = backoffUntil w) \/
    (consecutiveErrors w + 1 > 3 /\
     backoffUntil w'
     = t / 1000 + Z.min 60 ((consecutiveErrors w + 1) * 5)))).
Proof.
  intros Hs. apply step_inv in Hs as [_ Hs]. cbv zeta in Hs.
  assert (F : forall w0 w1,
             consecutiveErrors w0 = consecutiveErrors w ->
             backoffUntil w0 = backoffUntil w -> now_sec w0 = t / 1000 ->
             failure_effect w0 w1 ->
             consecutiveErrors w1 = consecutiveErrors w + 1 /\
             ((consecutiveErrors w + 1 <= 3 /\ backoffUntil w1 = backoffUntil w) \/
              (consecutiveErrors w + 1 > 3 /\
               backoffUntil w1
               = t / 1000 + Z.min 60 ((consecutiveErrors w + 1) * 5)))).
  { intros w0 w1 Ec Eb En (H1 & H2 & H3). rewrite Ec, Eb, En in *.
    split; [exact H1|].
    destruct (Z_le_gt_dec (consecutiveErrors w + 1) 3) as [Hle|Hgt].
    - left. split; [exact Hle | now apply H2].
    - right. split; [exact Hgt | now apply H3]. }
  destruct e as [ev res nonce | id | id r e | id r].
  - subst. left.
    destruct (onBle_backoff_frame cfg ev res nonce (set_clock t w)) as [E1 E2].
    split; [exact E2 | exact E1].
  - destruct Hs as (tm & _ & _ & Hs).
    destruct (fire_frame tm (set_clock t w))
      as (_ & _ & _ & _ & _ & _ & _ & _ & Fk & Fc & Fb).
    destruct (t_cb tm).
    + right; right. subst.
      apply (F (fire tm (set_clock t w))); try assumption.
      * unfold now_sec. now rewrite Fk.
      * apply resetBusy_failure.
    + left. unfold cleanupLastSent in Hs.
      destruct (cleanup_store _ _ _); [|discriminate].
      inversion Hs; subst. split; [exact Fc | exact Fb].
  - destruct Hs as (p & _ & ->).
    destruct (outcome_cases r e) as [Hf | Hok].
    + right; right.
      apply (F (remove_call id (set_clock t w))); try reflexivity.
      now apply httpCallback_failure.
    + right; left. now apply httpCallback_success.
  - destruct Hs as (_ & ->). left.
    now destruct (deviceInfoCallback_shape r (remove_call id (set_clock t w)))
      as [g ->].
Qed.

Lemma backoff_invariant_run (cfg : Config) (tr : list (Z * Event)) (w w' : World) :
  0 <= clock w -> 0 <= consecutiveErrors w ->
  (backoffUntil w = 0 \/ 4 <= consecutiveErrors w) ->
  0 <= backoffUntil w <= now_sec w + 60 ->
  run cfg w tr = Some w' ->
  0 <= clock w' /\ 0 <= consecutiveErrors w' /\
  (backoffUntil w' = 0 \/ 4 <= consecutiveErrors w') /\
  0 <= backoffUntil w' <= now_sec w' + 60.
Proof.
  revert w; induction tr as [|[t e] tr IH]; intros w Hc He Hb Hr H; cbn in H.
  - inversion H; subst. repeat split; try assumption; lia.
  - destruct (step cfg w t e) as [w1|] eqn:Hs; [|discriminate].
    destruct (clock_step cfg w t e w1 Hs) as [Hle Hck].
    assert (Hn : now_sec w <= t / 1000)
      by (unfold now_sec; apply Z.div_le_mono; lia).
    assert (Hn0 : 0 <= t / 1000) by (apply Z.div_pos; lia).
    assert (Hn1 : now_sec w1 = t / 1000) by (unfold now_sec; now rewrite Hck).
    apply (IH w1); [lia | | | | exact H];
      destruct (backoff_step cfg w t e w1 Hs)
        as [[E1 E2] | [[E1 E2] | [E1 [[Hk E2] | [Hk E2]]]]];
      rewrite ?E1, ?E2, ?Hn1; try lia.
Qed.

(** X9. The backoff variables in every world the script can reach (from
    a start at a clock reading of 0 or later): consecutiveErrors is never
    negative; a non-zero backoffUntil means at least four consecutive
    errors are counted; and backoffUntil is never negative and never more
    than 60 seconds ahead of the clock. *)
Theorem backoff_invariants :
  forall cfg t0 w,
    0 <= t0 -> reachable cfg t0 w ->
    0 <= consecutiveErrors w /\
    (backoffUntil w <> 0 -> 4 <= consecutiveErrors w) /\
    0 <= backoffUntil w <= now_sec w + 60.
Proof.
  intros cfg t0 w Ht0 [tr Hrun].
  assert (Hn : 0 <= now_sec (started cfg t0))
    by (unfold now_sec; cbn; apply Z.div_pos; lia).
  destruct (backoff_invariant_run cfg tr (started cfg t0) w)
    as (_ & H1 & H2 & H3).
  - cbn. exact Ht0.
  - cbn. lia.
  - left. reflexivity.
  - change (backoffUntil (started cfg t0)) with 0. lia.
  - exact Hrun.
  - split; [exact H1|]. split; [|exact H3].
    intros Hne. destruct H2; [contradiction | assumption].
Qed.

Lemma backoff_invariants_witness :
  let w := world_after backoff_trace in
  0 <= consecutiveErrors w /\
  (backoffUntil w <> 0 -> 4 <= consecutiveErrors w) /\
  0 <= backoffUntil w <= now_sec w + 60.
Proof.
  intros w. apply (backoff_invariants default_config epoch w).
  - vm_compute. discriminate.
  - exists backoff_trace. vm_compute. reflexivity.
Defined.

(** ** The watchdog and the slot *)

Lemma watchdog_entries_step (cfg : Config) (w : World) (t : Z) (e : Event)
  (w' : World) :
  wf w -> step cfg w t e = Some w' ->
  forall x, In x (timers w') -> is_watchdog x = true ->
            In x (timers w) \/ (t_period x = 10000 /\ t_due x = t + 10000).
Proof.
  intros Hwf Hs. apply step_inv in Hs as [_ Hs]. cbv zeta in Hs.
  destruct e as [ev res nonce | id | id r e | id r].
  - subst.
    destruct (onBle_cases cfg ev res nonce (set_clock t w))
      as [-> | (r & _ & [E | (_ & _ & E)])]; try rewrite E.
    + intros x Hx _. now left.
    + intros x Hx _. now left.
    + match goal with
      | |- context [start_delivery ?c ?m ?r ?d ?n ?w1] =>
          destruct (start_delivery_shape c m r d n w1) as [p ->]
      end.
      cbn [timers set_lastSent set_clock clock]. intros x Hx _.
      apply in_app_or in Hx as [Hx | [<- | []]]; [now left | right].
      split; reflexivity.
  - destruct Hs as (tm & Hf & _ & Hs).
    apply find_timer_In in Hf as [Hin _].
    change (timers (set_clock t w)) with (timers w) in Hin.
    assert (G : forall x, In x (timers (fire tm (set_clock t w))) ->
                          is_watchdog x = true -> In x (timers w)).
    { intros x Hx Wx. rewrite fire_timers in Hx.
      apply in_app_or in Hx as [Hx | Hx].
      - now apply filter_In in Hx as [Hx _].
      - destruct (t_repeat tm) eqn:Hr; [|destruct Hx].
        destruct Hx as [<- | []]. exfalso.
        assert (W : is_watchdog tm = true) by exact Wx.
        pose proof (wf_oneshot w Hwf tm Hin W). congruence. }
    destruct (t_cb tm).
    + subst.
      destruct (resetBusy_frame (fire tm (set_clock t w)))
        as (_ & _ & _ & Et & _).
      rewrite Et. intros x Hx Wx. left. now apply G.
    + unfold cleanupLastSent in Hs.
      destruct (cleanup_store _ _ _); [|discriminate].
      inversion Hs; subst. intros x Hx Wx. left. now apply G.
  - destruct Hs as (p & _ & ->).
    destruct (httpCallback_shape r e (remove_call id (set_clock t w)))
      as (ce & bu & ->).
    intros x Hx _. left. now apply release_slot_timers in Hx.
  - destruct Hs as (_ & ->).
    destruct (deviceInfoCallback_shape r (remove_call id (set_clock t w)))
      as [g ->].
    intros x Hx _. now left.
Qed.

Lemma watchdogs_due_run (cfg : Config) (tr : list (Z * Event)) (w w' : World) :
  wf w -> watchdogs_due w -> run cfg w tr = Some w' -> watchdogs_due w'.
Proof.
  revert w; induction tr as [|[t e] tr IH]; intros w Hwf Hd H; cbn in H.
  - now inversion H; subst.
  - destruct (step cfg w t e) as [w1|] eqn:Hs; [|discriminate].
    apply (IH w1); [eapply wf_step; eassumption | | exact H].
    destruct (clock_step cfg w t e w1 Hs) as [Hle Hck].
    intros x Hx Wx.
    destruct (watchdog_entries_step cfg w t e w1 Hwf Hs x Hx Wx)
      as [Hold | [Hp Hdue]].
    + destruct (Hd x Hold Wx) as [Hp Hdue]. split; [exact Hp | lia].
    + split; [exact Hp | lia].
Qed.

Lemma watchdogs_due_started (cfg : Config) (t0 : Z) :
  watchdogs_due (started cfg t0).
Proof. intros x [<- | []] W. discriminate. Qed.

(** X10. In every world the script can reach, late completions
    included, at most one watchdog is armed: busy is true exactly when
    busyTimer is set, and then the timer it names is the only watchdog
    armed; every armed watchdog is one-shot, was armed for 10000 ms and
    is due within 10 seconds of the clock. *)
Theorem one_watchdog_armed :
  forall cfg t0 w,
    reachable cfg t0 w ->
    (busy w = true <-> busyTimer w <> None) /\
    watchdogs w = match busyTimer w with
                  | Some t => [t]
                  | None => []
                  end /\
    (List.length (watchdogs w) <= 1)%nat /\
    forall x, In x (timers w) -> is_watchdog x = true ->
              t_repeat x = false /\ t_period x = 10000 /\
              t_due x <= clock w + 10000.
Proof.
  intros cfg t0 w Hreach.
  pose proof (reachable_wf cfg t0 w Hreach) as Hwf.
  destruct Hreach as [tr Hrun].
  pose proof (watchdogs_due_run cfg tr (started cfg t0) w
                (wf_started cfg t0) (watchdogs_due_started cfg t0) Hrun) as Hd.
  split; [|split; [|split]].
  - rewrite (wf_busy w Hwf). destruct (busyTimer w); split;
      congruence.
  - apply (wf_slot w Hwf).
  - rewrite (wf_slot w Hwf). destruct (busyTimer w); cbn; lia.
  - intros x Hx Wx. destruct (Hd x Hx Wx) as [Hp Hdue].
    split; [now apply (wf_oneshot w Hwf) | now split].
Qed.

Lemma one_watchdog_armed_witness :
  let w := world_after stale_completion_trace in
  (busy w = true <-> busyTimer w <> None) /\
  watchdogs w = match busyTimer w with
                | Some t => [t]
                | None => []
                end /\
  (List.length (watchdogs w) <= 1)%nat /\
  forall x, In x (timers w) -> is_watchdog x = true ->
            t_repeat x = false /\ t_period x = 10000 /\
            t_due x <= clock w + 10000.
Proof.
  intros w. apply (one_watchdog_armed default_config epoch w).
  exists stale_completion_trace. vm_compute. reflexivity.
Defined.

Lemma find_timer_unique (w : World) (x : TimerEntry) :
  NoDup (map t_id (timers w)) -> In x (timers w) ->
  find_timer (t_id x) w = Some x.
Proof.
  intros Hnd Hin. unfold find_timer.
  destruct (find (fun t => Nat.eqb (t_id t) (t_id x)) (timers w)) as [y|] eqn:E.
  - apply find_some in E as [Hy E]. apply Nat.eqb_eq in E.
    f_equal. now apply (NoDup_map_inj t_id (timers w)).
  - exfalso. pose proof (find_none _ _ E x Hin) as H.
    cbn in H. rewrite Nat.eqb_refl in H. discriminate.
Qed.

(** X11. The slot is never wedged.  In every reachable world in which
    busy is true, the watchdog busyTimer names is armed and due within 10
    seconds of the clock; from its due time on it can fire, whatever else
    has happened, and its firing sets busy to false, clears busyTimer and
    counts one more consecutive error. *)
Theorem slot_never_wedged :
  forall cfg t0 w,
    reachable cfg t0 w -> busy w = true ->
    exists tw entry,
      busyTimer w = Some tw /\ find_timer tw w = Some entry /\
      t_cb entry = CbResetBusy /\ t_due entry <= clock w + 10000 /\
      forall t, clock w <= t -> t_due entry <= t ->
        exists w', step cfg w t (TimerFired tw) = Some w' /\
                   busy w' = false /\ busyTimer w' = None /\
                   consecutiveErrors w' = consecutiveErrors w + 1.
Proof.
  intros cfg t0 w Hreach Hb.
  pose proof (reachable_wf cfg t0 w Hreach) as Hwf.
  destruct Hreach as [tr Hrun].
  pose proof (watchdogs_due_run cfg tr (started cfg t0) w
                (wf_started cfg t0) (watchdogs_due_started cfg t0) Hrun) as Hd.
  pose proof (wf_busy w Hwf) as Hy. pose proof (wf_slot w Hwf) as Hsl.
  destruct (busyTimer w) as [tw|] eqn:Hbt; [|congruence].
  assert (Hin : In tw (watchdogs w)) by (rewrite Hsl; now left).
  unfold watchdogs in Hin. apply in_map_iff in Hin as [entry [Hid Hin]].
  apply filter_In in Hin as [Hin W].
  pose proof (find_timer_unique w entry (wf_timers_nodup w Hwf) Hin) as Hf.
  rewrite Hid in Hf.
  assert (Hcb : t_cb entry = CbResetBusy).
  { unfold is_watchdog in W. destruct (t_cb entry); [reflexivity | discriminate]. }
  destruct (Hd entry Hin W) as [_ Hdue].
  exists tw, entry. repeat split; try assumption.
  intros t Hc Ht.
  destruct (watchdog_fire cfg w t tw entry Hf Hcb) as [Hen Hres].
  destruct (step cfg w t (TimerFired tw)) as [w'|] eqn:Hs.
  - exists w'. split; [reflexivity|]. rewrite (Hres w' eq_refl).
    destruct (resetBusy_frame (fire entry (set_clock t w)))
      as (_ & _ & _ & _ & _ & _ & _ & Eb & Ey).
    split; [exact Ey|]. split; [exact Eb|].
    destruct (resetBusy_failure (fire entry (set_clock t w))) as (Hce & _).
    rewrite Hce.
    destruct (fire_frame entry (set_clock t w))
      as (_ & _ & _ & _ & _ & _ & _ & _ & _ & Fc & _).
    rewrite Fc. reflexivity.
  - exfalso. apply (proj2 Hen); [now split | reflexivity].
Qed.

Lemma slot_never_wedged_witness :
  exists tw entry,
    busyTimer (world_after stale_completion_trace) = Some tw /\
    find_timer tw (world_after stale_completion_trace) = Some entry /\
    t_cb entry = CbResetBusy /\
    t_due entry <= clock (world_after stale_completion_trace) + 10000 /\
    forall t, clock (world_after stale_completion_trace) <= t ->
              t_due entry <= t ->
      exists w', step default_config (world_after stale_completion_trace) t
                      (TimerFired tw) = Some w' /\
                 busy w' = false /\ busyTimer w' = None /\
                 consecutiveErrors w'
                 = consecutiveErrors (world_after stale_completion_trace) + 1.
Proof.
  apply (slot_never_wedged default_config epoch).
  - exists stale_completion_trace. vm_compute. reflexivity.
  - vm_compute. reflexivity.
Defined.

(** ** The cleanup timer *)

Lemma housekeeping_filter_other (ts : list TimerEntry) (id : nat) :
  (forall y, In y ts -> is_watchdog y = false -> t_id y <> id) ->
  filter (fun t => negb (is_watchdog t))
         (filter (fun t => negb (Nat.eqb (t_id t) id)) ts)
  = filter (fun t => negb (is_watchdog t)) ts.
Proof.
  induction ts as [|a ts IH]; intros H; cbn; [reflexivity|].
  assert (H' : forall y, In y ts -> is_watchdog y = false -> t_id y <> id)
    by (intros y Hy; apply H; now right).
  destruct (Nat.eqb_spec (t_id a) id) as [E|ne]; cbn.
  - destruct (is_watchdog a) eqn:Wa; cbn; [now apply IH|].
    exfalso. apply (H a); [now left | assumption | assumption].
  - destruct (is_watchdog a); cbn; now rewrite IH.
Qed.

Lemma filter_comm {A : Type} (f g : A -> bool) (l : list A) :
  filter f (filter g l) = filter g (filter f l).
Proof.
  induction l as [|x l IH]; cbn; [reflexivity|].
  destruct (f x) eqn:Ef, (g x) eqn:Eg; cbn; rewrite ?Ef, ?Eg, IH; reflexivity.
Qed.

Lemma watchdog_owns_handle (w : World) (t : nat) (y : TimerEntry) :
  wf w -> In t (watchdogs w) -> In y (timers w) -> is_watchdog y = false ->
  t_id y <> t.
Proof.
  intros Hwf Ht Hy Wy E. unfold watchdogs in Ht.
  apply in_map_iff in Ht as [x [Hid Hx]]. apply filter_In in Hx as [Hx Wx].
  assert (y = x).
  { apply (NoDup_map_inj t_id (timers w)); try assumption.
    - apply (wf_timers_nodup w Hwf).
    - congruence. }
  subst. congruence.
Qed.

Lemma housekeeping_release_slot (w : World) :
  wf w -> housekeeping (release_slot w) = housekeeping w.
Proof.
  intros Hwf. unfold release_slot. cbv zeta.
  change (busyTimer (set_busy false w)) with (busyTimer w).
  destruct (busyTimer w) as [t|] eqn:Hbt; [|reflexivity].
  unfold housekeeping. cbn [timers set_busyTimer Timer_clear set_timers set_busy].
  apply housekeeping_filter_other. intros y Hy Wy.
  apply (watchdog_owns_handle w t y Hwf); try assumption.
  rewrite (wf_slot w Hwf), Hbt. now left.
Qed.

Lemma housekeeping_step (cfg : Config) (w : World) (t : Z) (e : Event)
  (w' : World) (due : Z) :
  wf w -> housekeeping w = [cleanup_timer cfg due] ->
  step cfg w t e = Some w' ->
  housekeeping w' = [cleanup_timer cfg due] \/
  housekeeping w' = [cleanup_timer cfg (t + CLEANUP_INTERVAL_SEC cfg * 1000)].
Proof.
  intros Hwf Hh Hs. apply step_inv in Hs as [_ Hs]. cbv zeta in Hs.
  pose proof (wf_set_clock t w Hwf) as H0.
  destruct e as [ev res nonce | id | id r e | id r].
  - left. subst.
    destruct (onBle_cases cfg ev res nonce (set_clock t w))
      as [-> | (r & _ & [E | (_ & _ & E)])]; try rewrite E; try exact Hh.
    match goal with
    | |- context [start_delivery ?c ?m ?r ?d ?n ?w1] =>
        destruct (start_delivery_shape c m r d n w1) as [p ->]
    end.
    unfold housekeeping in *. cbn [timers set_lastSent set_clock].
    rewrite filter_app, Hh. reflexivity.
  - destruct Hs as (tm & Hf & _ & Hs).
    apply find_timer_In in Hf as [Hin _].
    change (timers (set_clock t w)) with (timers w) in Hin.
    destruct (t_cb tm) eqn:Hcb.
    + left. subst.
      destruct (resetBusy_frame (fire tm (set_clock t w)))
        as (_ & _ & _ & Et & _).
      unfold housekeeping in *. rewrite Et, fire_timers.
      assert (W : is_watchdog tm = true)
        by (unfold is_watchdog; now rewrite Hcb).
      rewrite (wf_oneshot w Hwf tm Hin W), app_nil_r.
      change (timers (set_clock t w)) with (timers w).
      rewrite housekeeping_filter_other; [exact Hh|].
      intros y Hy Wy.
      apply (watchdog_owns_handle w (t_id tm) y Hwf); try assumption.
      unfold watchdogs. apply in_map. apply filter_In. now split.
    + right. unfold cleanupLastSent in Hs.
      destruct (cleanup_store _ _ _); [|discriminate].
      inversion Hs; subst.
      assert (W : is_watchdog tm = false)
        by (unfold is_watchdog; now rewrite Hcb).
      assert (Htm : tm = cleanup_timer cfg due).
      { assert (Hh' : In tm (housekeeping w)).
        { unfold housekeeping. apply filter_In. split; [assumption|].
          now rewrite W. }
        rewrite Hh in Hh'. destruct Hh' as [E | []]. now symmetry. }
      unfold housekeeping in *.
      cbn [timers set_lastSent]. rewrite fire_timers.
      change (timers (set_clock t w)) with (timers w).
      rewrite filter_app, filter_comm, Hh, Htm. cbn. reflexivity.
  - left. destruct Hs as (p & _ & ->).
    destruct (httpCallback_shape r e (remove_call id (set_clock t w)))
      as (ce & bu & ->).
    change (housekeeping (release_slot (remove_call id (set_clock t w)))
            = [cleanup_timer cfg due]).
    rewrite housekeeping_release_slot;
      [exact Hh | now apply wf_remove_call].
  - left. destruct Hs as (_ & ->).
    destruct (deviceInfoCallback_shape r (remove_call id (set_clock t w)))
      as [g ->].
    exact Hh.
Qed.

Lemma housekeeping_run (cfg : Config) (tr : list (Z * Event)) (w w' : World) :
  wf w ->
  (exists due, housekeeping w = [cleanup_timer cfg due] /\
               due <= clock w + CLEANUP_INTERVAL_SEC cfg * 1000) ->
  run cfg w tr = Some w' ->
  exists due, housekeeping w' = [cleanup_timer cfg due] /\
              due <= clock w' + CLEANUP_INTERVAL_SEC cfg * 1000.
Proof.
  revert w; induction tr as [|[t e] tr IH]; intros w Hwf Hh H; cbn in H.
  - now inversion H; subst.
  - destruct (step cfg w t e) as [w1|] eqn:Hs; [|discriminate].
    apply (IH w1); [eapply wf_step; eassumption | | exact H].
    destruct Hh as (due & Hh & Hdue).
    destruct (clock_step cfg w t e w1 Hs) as [Hle Hck].
    destruct (housekeeping_step cfg w t e w1 due Hwf Hh Hs) as [E | E].
    + exists due. split; [exact E | lia].
    + eexists. split; [exact E | lia].
Qed.

(** X12. The cleanup timer is never lost.  In every reachable world the
    only armed timer that is not a watchdog is the repeating timer [init]
    armed for [cleanupLastSent], with handle 1 and a period of
    CLEANUP_INTERVAL_SEC * 1000 ms; it is due no later than one period
    after the current clock reading.  No handler cancels it; each firing
    re-arms it one period later. *)
Theorem cleanup_timer_stays_armed :
  forall cfg t0 w,
    reachable cfg t0 w ->
    exists due,
      housekeeping w = [cleanup_timer cfg due] /\
      find_timer 1 w = Some (cleanup_timer cfg due) /\
      due <= clock w + CLEANUP_INTERVAL_SEC cfg * 1000.
Proof.
  intros cfg t0 w Hreach.
  pose proof (reachable_wf cfg t0 w Hreach) as Hwf.
  destruct Hreach as [tr Hrun].
  destruct (housekeeping_run cfg tr (started cfg t0) w (wf_started cfg t0))
    as (due & Hh & Hdue); [| exact Hrun |].
  - exists (t0 + CLEANUP_INTERVAL_SEC cfg * 1000). split; [reflexivity|].
    cbn. lia.
  - exists due. split; [exact Hh|]. split; [|exact Hdue].
    assert (Hin : In (cleanup_timer cfg due) (timers w)).
    { assert (H : In (cleanup_timer cfg due) (housekeeping w))
        by (rewrite Hh; now left).
      unfold housekeeping in H. now apply filter_In in H as [H _]. }
    exact (find_timer_unique w (cleanup_timer cfg due)
             (wf_timers_nodup w Hwf) Hin).
Qed.

Lemma cleanup_timer_stays_armed_witness :
  exists due,
    housekeeping (world_after eviction_trace) = [cleanup_timer default_config due] /\
    find_timer 1 (world_after eviction_trace)
    = Some (cleanup_timer default_config due) /\
    due <= clock (world_after eviction_trace)
           + CLEANUP_INTERVAL_SEC default_config * 1000.
Proof.
  apply (cleanup_timer_stays_armed default_config epoch).
  exists eviction_trace. vm_compute. reflexivity.
Defined.

(** ** More on the cleanup pass *)

Lemma delete_oldest_short (n : nat) (l : list Aged) (st : Store) :
  (List.length l < n)%nat -> delete_oldest n l st = None.
Proof.
  revert l st; induction n as [|n IH]; intros l st H; [lia|].
  destruct l as [|a l]; [reflexivity|]. cbn [delete_oldest].
  apply IH. cbn in H. lia.
Qed.

Lemma cleanup_store_negative (max now : Z) (st : Store) :
  max < 0 -> cleanup_store max now st = None.
Proof.
  intros Hneg. unfold cleanup_store.
  destruct (Z.leb_spec (Z.of_nat (List.length (store_keys st))) max); [lia|].
  apply delete_oldest_short.
  rewrite <- (Permutation_length (sort_by_perm _ _)), length_map. lia.
Qed.

Lemma cleanup_store_bound (max now : Z) (st st' : Store) :
  NoDup (store_keys st) -> cleanup_store max now st = Some st' ->
  Z.of_nat (List.length st') <= max.
Proof.
  intros Hnd H.
  destruct (Z_lt_ge_dec max 0) as [Hneg|Hpos].
  - rewrite cleanup_store_negative in H by assumption. discriminate.
  - destruct (Z_le_gt_dec (Z.of_nat (List.length st)) max) as [Hle|Hgt].
    + unfold cleanup_store in H. unfold store_keys in H at 1.
      rewrite length_map in H.
      destruct (Z.leb_spec (Z.of_nat (List.length st)) max); [|lia].
      inversion H; subst. exact Hle.
    + destruct (cleanup_partition max now st Hnd) as (Hc & Hperm & Hlen & _);
        [lia|].
      rewrite Hc in H. inversion H; subst.
      apply Permutation_length in Hperm. rewrite length_app, Hlen in Hperm.
      lia.
Qed.

Lemma cleanup_store_within (max now : Z) (st : Store) :
  Z.of_nat (List.length st) <= max -> cleanup_store max now st = Some st.
Proof.
  intros H. unfold cleanup_store. unfold store_keys. rewrite length_map.
  destruct (Z.leb_spec (Z.of_nat (List.length st)) max); [reflexivity | lia].
Qed.

(** X13. A cleanup pass that completes changes nothing but lastSent;
    the entries it keeps are entries of the old store, in their old order
    and with their old timestamps; afterwards the store holds at most
    MAX_LASTSENT_ENTRIES entries, and a further pass, at whatever time,
    changes nothing. *)
Theorem cleanup_bounds_and_settles :
  forall cfg w w',
    NoDup (store_keys (lastSent w)) ->
    cleanupLastSent cfg w = Some w' ->
    w' = set_lastSent (lastSent w') w /\
    (exists keep : string -> bool,
       lastSent w' = filter (fun e => keep (fst e)) (lastSent w)) /\
    Z.of_nat (List.length (lastSent w')) <= MAX_LASTSENT_ENTRIES cfg /\
    forall t, cleanupLastSent cfg (set_clock t w') = Some (set_clock t w').
Proof.
  intros cfg w w' Hnd H. unfold cleanupLastSent in H.
  destruct (cleanup_store (MAX_LASTSENT_ENTRIES cfg) (now_sec w) (lastSent w))
    as [st|] eqn:E; [|discriminate].
  inversion H; subst. cbn [lastSent set_lastSent].
  pose proof (cleanup_store_bound _ _ _ _ Hnd E) as Hb.
  split; [reflexivity|]. split; [|split; [exact Hb|]].
  - apply cleanup_store_shape in E as [rk ->].
    now exists (fun k => negb (mem_str k rk)).
  - intros t. unfold cleanupLastSent. cbn [lastSent set_lastSent set_clock].
    rewrite cleanup_store_within by exact Hb.
    destruct w; reflexivity.
Qed.

Lemma cleanup_bounds_and_settles_witness :
  let w' := set_lastSent [ ("AA:BB:CC:DD:EE:02", 1699999990);
                           ("AA:BB:CC:DD:EE:03", 1699999970) ] three_devices in
  w' = set_lastSent (lastSent w') three_devices /\
  (exists keep : string -> bool,
     lastSent w' = filter (fun e => keep (fst e)) (lastSent three_devices)) /\
  Z.of_nat (List.length (lastSent w')) <= MAX_LASTSENT_ENTRIES small_config /\
  forall t, cleanupLastSent small_config (set_clock t w') = Some (set_clock t w').
Proof.
  intros w'. apply (cleanup_bounds_and_settles small_config three_devices w').
  - repeat constructor; cbn; intuition discriminate.
  - vm_compute. reflexivity.
Defined.

(** X14. Degenerate limits.  With MAX_LASTSENT_ENTRIES negative the pass
    reads past the end of its sorted array and aborts, whatever the store
    holds, even an empty one; with a limit of 0 it empties the store. *)
Theorem cleanup_degenerate_limits :
  forall cfg w,
    (MAX_LASTSENT_ENTRIES cfg < 0 -> cleanupLastSent cfg w = None) /\
    (MAX_LASTSENT_ENTRIES cfg = 0 -> NoDup (store_keys (lastSent w)) ->
     cleanupLastSent cfg w = Some (set_lastSent [] w)).
Proof.
  intros cfg w. split.
  - intros Hneg. unfold cleanupLastSent.
    now rewrite cleanup_store_negative.
  - intros H0 Hnd. unfold cleanupLastSent.
    destruct (cleanup_store (MAX_LASTSENT_ENTRIES cfg) (now_sec w) (lastSent w))
      as [st|] eqn:E.
    + pose proof (cleanup_store_bound _ _ _ _ Hnd E) as Hb.
      destruct st as [|x st]; [reflexivity | cbn in Hb; lia].
    + exfalso.
      destruct (Z_le_gt_dec (Z.of_nat (List.length (lastSent w))) 0) as [Hle|Hgt].
      * rewrite H0, cleanup_store_within in E by exact Hle. discriminate.
      * destruct (cleanup_partition (MAX_LASTSENT_ENTRIES cfg) (now_sec w)
                    (lastSent w) Hnd) as (Hc & _); [lia|].
        rewrite Hc in E. discriminate.
Qed.

Lemma cleanup_degenerate_limits_witness :
  cleanupLastSent (mkConfig (URL default_config) (MFG default_config) 5 (-1) 300 2)
    (started default_config epoch) = None /\
  cleanupLastSent (mkConfig (URL default_config) (MFG default_config) 5 0 300 2)
    three_devices = Some (set_lastSent [] three_devices).
Proof.
  split.
  - apply (proj1 (cleanup_degenerate_limits
                    (mkConfig (URL default_config) (MFG default_config)
                              5 (-1) 300 2)
                    (started default_config epoch))).
    reflexivity.
  - apply (proj2 (cleanup_degenerate_limits
                    (mkConfig (URL default_config) (MFG default_config)
                              5 0 300 2)
                    three_devices)).
    + reflexivity.
    + repeat constructor; cbn; intuition discriminate.
Defined.

(** ** Timestamps *)

Lemma timestamps_run (cfg : Config) (t0 : Z) (tr : list (Z * Event))
  (w w' : World) :
  t0 <= clock w ->
  (forall k v, In (k, v) (lastSent w) -> t0 / 1000 <= v <= now_sec w) ->
  run cfg w tr = Some w' ->
  t0 <= clock w' /\
  (forall k v, In (k, v) (lastSent w') -> t0 / 1000 <= v <= now_sec w').
Proof.
  revert w; induction tr as [|[t e] tr IH]; intros w Hc Hv H; cbn in H.
  - inversion H; subst. now split.
  - destruct (step cfg w t e) as [w1|] eqn:Hs; [|discriminate].
    destruct (clock_step cfg w t e w1 Hs) as [Hle Hck].
    assert (Hn : now_sec w <= t / 1000)
      by (unfold now_sec; apply Z.div_le_mono; lia).
    assert (Hn0 : t0 / 1000 <= t / 1000) by (apply Z.div_le_mono; lia).
    assert (Hn1 : now_sec w1 = t / 1000) by (unfold now_sec; now rewrite Hck).
    apply (IH w1); [lia | | exact H].
    intros k v Hin. rewrite Hn1.
    destruct (lastSent_step cfg w t e w1 Hs) as [E | [[m E] | [rk E]]];
      rewrite E in Hin.
    + specialize (Hv k v Hin). lia.
    + apply store_set_In in Hin as [Eq | Hin].
      * inversion Eq; subst. lia.
      * specialize (Hv k v Hin). lia.
    + apply filter_In in Hin as [Hin _]. specialize (Hv k v Hin). lia.
Qed.

(** X15. No timestamp in lastSent is in the future: in every reachable
    world each entry lies between the second the script started and the
    current second.  So the ages the cleanup pass sorts by and the
    differences the rate limiter compares are never negative. *)
Theorem lastSent_not_in_future :
  forall cfg t0 w,
    reachable cfg t0 w ->
    NoDup (store_keys (lastSent w)) /\
    forall k v, In (k, v) (lastSent w) ->
                t0 / 1000 <= v <= now_sec w /\ 0 <= now_sec w - v /\
                store_get k (lastSent w) = Some v.
Proof.
  intros cfg t0 w Hreach.
  pose proof (reachable_wf cfg t0 w Hreach) as Hwf.
  destruct Hreach as [tr Hrun].
  destruct (timestamps_run cfg t0 tr (started cfg t0) w) as [_ Hv];
    [cbn; lia | intros k v [] | exact Hrun |].
  split; [apply (wf_keys_nodup w Hwf)|].
  intros k v Hin. specialize (Hv k v Hin).
  split; [exact Hv|]. split; [lia|].
  apply store_get_in; [apply (wf_keys_nodup w Hwf) | exact Hin].
Qed.

Lemma lastSent_not_in_future_witness :
  NoDup (store_keys (lastSent (world_after eviction_trace))) /\
  forall k v, In (k, v) (lastSent (world_after eviction_trace)) ->
              epoch / 1000 <= v <= now_sec (world_after eviction_trace) /\
              0 <= now_sec (world_after eviction_trace) - v /\
              store_get k (lastSent (world_after eviction_trace)) = Some v.
Proof.
  apply (lastSent_not_in_future default_config epoch).
  exists eviction_trace. vm_compute. reflexivity.
Defined.
